(** * A shallow embedding of the compiler's parser front end

    The development follows the Go sources: the token channel with its
    one-slot push-back buffer ([TokenChannel.next], [TokenChannel.pushBack]),
    the recursive-descent productions ([parseVariable] ... [parseStatementList],
    [parse]), the literal classifier [getConstType], the [String] methods of
    operators and expressions, and the helpers with which the tests compare
    trees.

    Go values are modelled as follows.
    - [string] is Rocq's [string] (a sequence of bytes).
    - A slice is a [list]; [nil] and the empty slice are both [[]].
    - An [error] is [option error]: [None] is Go's [nil].
    - A function with results [(x T, err error)] returns the pair [(x, err)];
      on the error paths [x] holds whatever the Go code left in it.
    - The token channel, once the lexer has sent everything and closed it, is
      the list of tokens still to be received; receiving from the drained,
      closed channel gives Go's zero [Token].
    - Unbounded loops and recursion take a fuel argument; [None] means the
      fuel ran out.  Every production is shown to return for every fuel above
      the number of pending tokens. *)

From Stdlib Require Import String Ascii List Bool Arith Lia.
Import ListNotations.
Open Scope string_scope.
Open Scope list_scope.

Set Implicit Arguments.

(* ================================================================= *)
(** ** Constants and AST data types *)

(** [type Type int] with its [iota] constants; the zero value is [TYPE_INT]. *)
Inductive Type_ : Set :=
| TYPE_INT | TYPE_STRING | TYPE_FLOAT | TYPE_BOOL | TYPE_UNKNOWN.

(** [type Operator int]; the zero value is [OP_PLUS]. *)
Inductive Operator : Set :=
| OP_PLUS | OP_MINUS | OP_MULT | OP_DIV
| OP_NEGATIVE | OP_NOT
| OP_EQ | OP_NE | OP_LE | OP_GE | OP_LESS | OP_GREATER
| OP_AND | OP_OR
| OP_UNKNOWN.

(** Modelled from the spec: the [TokenType] constants are declared in the
    lexer, which is not among the sources.  The kinds are the ones the data
    model lists for a token: identifier, keyword, constant-literal, operator,
    separator, assignment, semicolon, parenthesis-open/close, curly-open/close. *)
Inductive TokenType : Set :=
| TOKEN_IDENTIFIER | TOKEN_KEYWORD | TOKEN_CONSTANT | TOKEN_OPERATOR
| TOKEN_SEPARATOR | TOKEN_ASSIGNMENT | TOKEN_SEMICOLON
| TOKEN_PARENTHESIS_OPEN | TOKEN_PARENTHESIS_CLOSE
| TOKEN_CURLY_OPEN | TOKEN_CURLY_CLOSE.

Definition Operator_eq_dec (a b : Operator) : {a = b} + {a <> b}.
Proof. decide equality. Defined.

Definition TokenType_eq_dec (a b : TokenType) : {a = b} + {a <> b}.
Proof. decide equality. Defined.

Definition TokenType_eqb (a b : TokenType) : bool :=
  if TokenType_eq_dec a b then true else false.

Record Token : Set := mkToken { tokenType : TokenType; value : string }.

Definition Token_eq_dec (a b : Token) : {a = b} + {a <> b}.
Proof. decide equality; [apply string_dec | apply TokenType_eq_dec]. Defined.

Record Variable_ : Set := mkVariable { vType : Type_; vName : string; vShadow : bool }.
Record Constant : Set := mkConstant { cType : Type_; cValue : string }.

(** [Expression] is a Go interface implemented by [Variable], [Constant],
    [BinaryOp] and [UnaryOp]; [nilExpression] is the nil interface value, which
    a named result holds until it is assigned. *)
Inductive Expression : Set :=
| nilExpression
| EVariable (v : Variable_)
| EConstant (k : Constant)
| BinaryOp (operator : Operator) (leftExpr rightExpr : Expression) (opType : Type_)
| UnaryOp (operator : Operator) (expr : Expression) (opType : Type_).

Record SymbolEntry : Set := mkSymbolEntry { sType : Type_; sShadowing : bool }.

(** [map[string]SymbolEntry]; the parser leaves every table nil. *)
Definition SymbolTable : Set := list (string * SymbolEntry).

Record Assignment : Set :=
  mkAssignment { variables : list Variable_; expressions : list Expression }.

(** [Block], [Condition] and [Loop] refer to [Statement], the interface they
    implement; the records are therefore parametric in the statement type. *)
Record Block_ (St : Set) : Set := mkBlock
  { statements : list St;
    parentSymbolTable : SymbolTable;
    symbolTable : SymbolTable }.

Record Condition_ (St : Set) : Set := mkCondition
  { expression : Expression;
    block : Block_ St;
    elseBlock : Block_ St }.

Record Loop_ (St : Set) : Set := mkLoop
  { assignment : Assignment;
    loopExpressions : list Expression;
    incrAssignment : Assignment;
    loopBlock : Block_ St }.

#[local] Unset Elimination Schemes.
Inductive Statement : Set :=
| SBlock (b : Block_ Statement)
| SAssignment (a : Assignment)
| SCondition (cnd : Condition_ Statement)
| SLoop (l : Loop_ Statement).
#[local] Set Elimination Schemes.

Definition Block : Set := Block_ Statement.
Definition Condition : Set := Condition_ Statement.
Definition Loop : Set := Loop_ Statement.

Record AST : Set := mkAST { astBlock : Block; globalSymbolTable : SymbolTable }.

(** Zero values ([Variable{}], [Constant{}], [var ast AST], ...). *)
Definition zeroVariable : Variable_ := mkVariable TYPE_INT EmptyString false.
Definition zeroConstant : Constant := mkConstant TYPE_INT EmptyString.
Definition zeroAssignment : Assignment := mkAssignment [] [].
Definition zeroBlock : Block := mkBlock [] [] [].
Definition zeroCondition : Condition := mkCondition nilExpression zeroBlock zeroBlock.
Definition zeroLoop : Loop := mkLoop zeroAssignment [] zeroAssignment zeroBlock.
Definition zeroAST : AST := mkAST zeroBlock [].

(* ================================================================= *)
(** ** Errors *)

(** The error values the parser handles: the two package-level sentinels, a
    fresh value made by [errors.New], and a value made by [fmt.Errorf] with a
    leading [%w] verb, which wraps its argument. *)
Inductive error : Set :=
| ErrCritical
| ErrNormal
| errors_New (text : string)
| fmt_Errorf_w (wrapped : error) (suffix : string).

(** [err.Error()]. *)
Fixpoint Error (e : error) : string :=
  match e with
  | ErrCritical => "Critical semantic error"
  | ErrNormal => "Semantic error"
  | errors_New text => text
  | fmt_Errorf_w wrapped suffix => (Error wrapped ++ suffix)%string
  end.

(** [err == target] on error values: the sentinels are pointers, equal only to
    themselves; a value built by [errors.New] or [fmt.Errorf] is a new pointer. *)
Definition sameError (e target : error) : bool :=
  match e, target with
  | ErrCritical, ErrCritical => true
  | ErrNormal, ErrNormal => true
  | _, _ => false
  end.

(** [errors.Is(err, target)]: compare, then unwrap and repeat. *)
Fixpoint errors_Is (e target : error) : bool :=
  sameError e target ||
  match e with
  | fmt_Errorf_w wrapped _ => errors_Is wrapped target
  | _ => false
  end.

(* ================================================================= *)
(** ** Operators and literal types *)

Definition getOperatorType (o : string) : Operator :=
  if String.eqb o "+" then OP_PLUS
  else if String.eqb o "-" then OP_MINUS
  else if String.eqb o "*" then OP_MULT
  else if String.eqb o "/" then OP_DIV
  else if String.eqb o "==" then OP_EQ
  else if String.eqb o "!=" then OP_NE
  else if String.eqb o "<=" then OP_LE
  else if String.eqb o ">=" then OP_GE
  else if String.eqb o "<" then OP_LESS
  else if String.eqb o ">" then OP_GREATER
  else if String.eqb o "&&" then OP_AND
  else if String.eqb o "||" then OP_OR
  else if String.eqb o "!" then OP_NOT
  else OP_UNKNOWN.

(** *** Printing

    The [String] methods of the operators, the types and the expression
    nodes.  [fmt.Sprintf] with the verb [%v] calls the [String] method of
    each operand that has one and prints a string operand as it is. *)

Definition Operator_String (o : Operator) : string :=
  match o with
  | OP_PLUS => "+"
  | OP_MINUS => "-"
  | OP_MULT => "*"
  | OP_DIV => "/"
  | OP_NEGATIVE => "-"
  | OP_EQ => "=="
  | OP_NE => "!="
  | OP_LE => "<="
  | OP_GE => ">="
  | OP_LESS => "<"
  | OP_GREATER => ">"
  | OP_AND => "&&"
  | OP_OR => "||"
  | OP_NOT => "!"
  | OP_UNKNOWN => "?"
  end.

Definition Type_String (v : Type_) : string :=
  match v with
  | TYPE_INT => "int"
  | TYPE_STRING => "string"
  | TYPE_FLOAT => "float"
  | TYPE_BOOL => "bool"
  | TYPE_UNKNOWN => "?"
  end.

Definition Variable_String (v : Variable_) : string :=
  let shadowString := if vShadow v then "shadow " else EmptyString in
  (shadowString ++ Type_String (vType v) ++ "(" ++ vName v ++ ")")%string.

Definition Constant_String (k : Constant) : string :=
  (Type_String (cType k) ++ "(" ++ cValue k ++ ")")%string.

(** [%v] of an [Expression]: the [String] method of the node it holds, and
    [<nil>] for the nil interface value. *)
Fixpoint Expression_String (e : Expression) : string :=
  match e with
  | nilExpression => "<nil>"
  | EVariable v => Variable_String v
  | EConstant k => Constant_String k
  | BinaryOp operator leftExpr rightExpr _ =>
      (Expression_String leftExpr ++ " " ++ Operator_String operator ++ " "
       ++ Expression_String rightExpr)%string
  | UnaryOp operator expr _ =>
      (Operator_String operator ++ "(" ++ Expression_String expr ++ ")")%string
  end.

(** The fragment of Go's [regexp] syntax that [getConstType] uses.  A byte
    class stands for a literal byte, [\d] or [.]; [Alt r Eps] is [r?] and
    [Cat r (Star r)] is [r+]. *)
Inductive regexp : Type :=
| Void
| Eps
| Class (p : ascii -> bool)
| Cat (r1 r2 : regexp)
| Alt (r1 r2 : regexp)
| Star (r : regexp).

Definition Lit (a : ascii) : regexp := Class (Ascii.eqb a).
Definition Opt (r : regexp) : regexp := Alt r Eps.
Definition Plus (r : regexp) : regexp := Cat r (Star r).

Fixpoint Word (s : string) : regexp :=
  match s with
  | EmptyString => Eps
  | String a s' => Cat (Lit a) (Word s')
  end.

(** [\d]: the ASCII digits. *)
Definition isDigit (a : ascii) : bool :=
  Nat.leb 48 (nat_of_ascii a) && Nat.leb (nat_of_ascii a) 57.

(** [.]: any byte but the line feed. *)
Definition isDot (a : ascii) : bool := negb (Ascii.eqb a "010"%char).

Definition quote : ascii := "034"%char.

Fixpoint nullable (r : regexp) : bool :=
  match r with
  | Void => false
  | Eps => true
  | Class _ => false
  | Cat r1 r2 => nullable r1 && nullable r2
  | Alt r1 r2 => nullable r1 || nullable r2
  | Star _ => true
  end.

(** What is left of [r] once the byte [a] has been read. *)
Fixpoint deriv (a : ascii) (r : regexp) : regexp :=
  match r with
  | Void => Void
  | Eps => Void
  | Class p => if p a then Eps else Void
  | Cat r1 r2 =>
      if nullable r1 then Alt (Cat (deriv a r1) r2) (deriv a r2)
      else Cat (deriv a r1) r2
  | Alt r1 r2 => Alt (deriv a r1) (deriv a r2)
  | Star r1 => Cat (deriv a r1) (Star r1)
  end.

(** Whether [FindIndex] of the compiled pattern, a caret followed by the group
    [r], returns a non-nil result on the bytes of [s].  The caret anchors the
    pattern at the start of the text and nothing anchors its end, so it is
    found exactly when it matches some prefix of [s]. *)
Fixpoint FindIndex_found (r : regexp) (s : string) : bool :=
  nullable r ||
  match s with
  | EmptyString => false
  | String a s' => FindIndex_found (deriv a r) s'
  end.

(** The words a pattern matches, as the regular-expression syntax defines them. *)
Inductive matches : regexp -> string -> Prop :=
| MEps : matches Eps EmptyString
| MClass (p : ascii -> bool) (a : ascii) :
    p a = true -> matches (Class p) (String a EmptyString)
| MCat (r1 r2 : regexp) (s1 s2 : string) :
    matches r1 s1 -> matches r2 s2 -> matches (Cat r1 r2) (s1 ++ s2)%string
| MAltL (r1 r2 : regexp) (s : string) : matches r1 s -> matches (Alt r1 r2) s
| MAltR (r1 r2 : regexp) (s : string) : matches r2 s -> matches (Alt r1 r2) s
| MStar0 (r : regexp) : matches (Star r) EmptyString
| MStarS (r : regexp) (s1 s2 : string) :
    matches r s1 -> matches (Star r) s2 -> matches (Star r) (s1 ++ s2)%string.

(** The float pattern: a caret, then, in a group, an optional minus, one or
    more digits, a dot, any number of digits. *)
Definition rFloat : regexp :=
  Cat (Opt (Lit "-"%char)) (Cat (Plus (Class isDigit)) (Cat (Lit "."%char) (Star (Class isDigit)))).
(** The int pattern: a caret, then, in a group, an optional minus and one or
    more digits. *)
Definition rInt : regexp := Cat (Opt (Lit "-"%char)) (Plus (Class isDigit)).
(** The string pattern: a caret, then, in a group, a double quote, any number
    of dots, a double quote. *)
Definition rString : regexp := Cat (Lit quote) (Cat (Star (Class isDot)) (Lit quote)).
(** The bool pattern: a caret, then the group [true|false]. *)
Definition rBool : regexp := Alt (Word "true") (Word "false").

Definition getConstType (c : string) : Type_ :=
  if FindIndex_found rFloat c then TYPE_FLOAT
  else if FindIndex_found rInt c then TYPE_INT
  else if FindIndex_found rString c then TYPE_STRING
  else if FindIndex_found rBool c then TYPE_BOOL
  else TYPE_UNKNOWN.

(** *** The literal shapes, as the grammar words them

    Each shape is a property of the text's beginning; these are the
    statements [getConstType] is compared with. *)

(** Every byte of [s] satisfies [p]. *)
Fixpoint allChars (p : ascii -> bool) (s : string) : Prop :=
  match s with
  | EmptyString => True
  | String a s' => p a = true /\ allChars p s'
  end.

Definition allDigits (s : string) : Prop := allChars isDigit s.

(** An optional sign: nothing, or one [-]. *)
Definition optSign (s : string) : Prop := s = EmptyString \/ s = "-".

(** The text begins with [-?digits '.' digits*]. *)
Definition floatShape (s : string) : Prop :=
  exists sign ds frac rest,
    s = (sign ++ ds ++ "." ++ frac ++ rest)%string /\
    optSign sign /\ ds <> EmptyString /\ allDigits ds /\ allDigits frac.

(** The text begins with [-?digits]. *)
Definition intShape (s : string) : Prop :=
  exists sign ds rest,
    s = (sign ++ ds ++ rest)%string /\ optSign sign /\ ds <> EmptyString /\ allDigits ds.

(** The text begins with a double quote, any bytes of the same line, and a
    double quote. *)
Definition stringShape (s : string) : Prop :=
  exists body rest,
    s = String quote (body ++ String quote rest)%string /\ allChars isDot body.

(** The text begins with [true] or with [false]. *)
Definition boolShape (s : string) : Prop :=
  exists rest, s = ("true" ++ rest)%string \/ s = ("false" ++ rest)%string.

(* ================================================================= *)
(** ** Comparing trees

    The helpers with which the tests compare the tree [parse] returned with
    the tree they expect.  Each returns [(equal, message)].  They read the
    fields of the nodes declared above and nothing else of a node. *)

Definition Type_eq_dec (a b : Type_) : {a = b} + {a <> b}.
Proof. decide equality. Defined.

Definition Type_eqb (a b : Type_) : bool := if Type_eq_dec a b then true else false.

Definition Operator_eqb (a b : Operator) : bool :=
  if Operator_eq_dec a b then true else false.

(** [Constant.eq] *)
Definition Constant_eq (e e2 : Constant) : bool :=
  Type_eqb (cType e) (cType e2) && String.eqb (cValue e) (cValue e2).

(** [Variable.eq] *)
Definition Variable_eq (e e2 : Variable_) : bool :=
  String.eqb (vName e) (vName e2) && Bool.eqb (vShadow e) (vShadow e2)
  && Type_eqb (vType e) (vType e2).

(** [%v] of a slice: the items between brackets, separated by spaces. *)
Definition Slice_String {A : Type} (f : A -> string) (l : list A) : string :=
  ("[" ++ String.concat " " (map f l) ++ "]")%string.

Fixpoint compareExpression (e1 e2 : Expression) : bool * string :=
  match e1 with
  | EConstant v1 =>
      match e2 with
      | EConstant v2 =>
          if Constant_eq v1 v2 then (true, EmptyString)
          else (false, (Expression_String e1 ++ " != " ++ Expression_String e2
                        ++ " (Constant)")%string)
      | _ => (false, (Expression_String e1 ++ " != " ++ Expression_String e2
                      ++ " (Constant)")%string)
      end
  | EVariable v1 =>
      match e2 with
      | EVariable v2 =>
          if Variable_eq v1 v2 then (true, EmptyString)
          else (false, (Expression_String e1 ++ " != " ++ Expression_String e2
                        ++ " (Variable)")%string)
      | _ => (false, (Expression_String e1 ++ " != " ++ Expression_String e2
                      ++ " (Variable)")%string)
      end
  | BinaryOp operator1 leftExpr1 rightExpr1 _ =>
      match e2 with
      | BinaryOp operator2 leftExpr2 rightExpr2 _ =>
          let (ok1, err1) := compareExpression leftExpr1 leftExpr2 in
          let (ok2, err2) := compareExpression rightExpr1 rightExpr2 in
          let ok3 := Operator_eqb operator1 operator2 in
          (ok1 && ok2 && ok3, (err1 ++ err2)%string)
      | _ => (false, (Expression_String e1 ++ " != " ++ Expression_String e2
                      ++ " (BinaryOp)")%string)
      end
  | UnaryOp operator1 expr1 _ =>
      match e2 with
      | UnaryOp operator2 expr2 _ =>
          let (ok1, err1) := compareExpression expr1 expr2 in
          (Operator_eqb operator1 operator2 && ok1, err1)
      | _ => (false, (Expression_String e1 ++ " != " ++ Expression_String e2
                      ++ " (UnaryOp)")%string)
      end
  | nilExpression => (false, (Expression_String e1 ++ " is not an expression")%string)
  end.

(** The loop of [compareExpressions]: item [i] of the first slice against item
    [i] of the second, stopping at the first difference.  It runs once the
    lengths are known to be equal, so every index exists in both slices. *)
Fixpoint compareExpressions_loop (ee1 ee2 : list Expression) : bool * string :=
  match ee1, ee2 with
  | v1 :: rest1, v2 :: rest2 =>
      let (b, e) := compareExpression v1 v2 in
      if negb b then (false, e) else compareExpressions_loop rest1 rest2
  | _, _ => (true, EmptyString)
  end.

Definition compareExpressions (ee1 ee2 : list Expression) : bool * string :=
  if negb (Nat.eqb (length ee1) (length ee2)) then
    (false, ("Different lengths: " ++ Slice_String Expression_String ee1 ++ ", "
             ++ Slice_String Expression_String ee2)%string)
  else compareExpressions_loop ee1 ee2.

Fixpoint compareVariables_loop (vv1 vv2 : list Variable_) : bool * string :=
  match vv1, vv2 with
  | v1 :: rest1, v2 :: rest2 =>
      if negb (Variable_eq v1 v2) then
        (false, ("Variables are different: " ++ Variable_String v1 ++ " != "
                 ++ Variable_String v2)%string)
      else compareVariables_loop rest1 rest2
  | _, _ => (true, EmptyString)
  end.

Definition compareVariables (vv1 vv2 : list Variable_) : bool * string :=
  if negb (Nat.eqb (length vv1) (length vv2)) then
    (false, ("Different lengths: " ++ Slice_String Variable_String vv1 ++ ", "
             ++ Slice_String Variable_String vv2)%string)
  else compareVariables_loop vv1 vv2.

(** [compareStatement] on two assignments. *)
Definition compareAssignment (v1 v2 : Assignment) : bool * string :=
  let (ok1, err1) := compareVariables (variables v1) (variables v2) in
  let (ok2, err2) := compareExpressions (expressions v1) (expressions v2) in
  (ok1 && ok2, (err1 ++ err2)%string).

Section Comparison.

(** The text [%v] gives for a statement and for a block.  A [Block] has no
    [String] method, and the text of a statement goes through the blocks it
    holds; the comparison does not depend on what these texts are. *)
Variable formatStatement : Statement -> string.
Variable formatBlock : Block -> string.

(** [compareStatement], with [compareBlock] for the blocks inside a
    statement.  A loop compares its two assignments as statements, which is
    the assignment case.  There is no case for a [Block] used as a
    statement: like a loop compared with something else, it ends at the last
    [return]. *)
Fixpoint compareStatement (s1 s2 : Statement) {struct s1} : bool * string :=
  let compareBlock (ss1 ss2 : Block) : bool * string :=
    if negb (Nat.eqb (length (statements ss1)) (length (statements ss2))) then
      (false, ("Statement lists of different lengths: " ++ formatBlock ss1 ++ ", "
               ++ formatBlock ss2)%string)
    else
      (fix loop (l1 l2 : list Statement) {struct l1} : bool * string :=
         match l1, l2 with
         | v1 :: rest1, v2 :: rest2 =>
             let (b, e) := compareStatement v1 v2 in
             if negb b then (false, e) else loop rest1 rest2
         | _, _ => (true, EmptyString)
         end) (statements ss1) (statements ss2) in
  match s1 with
  | SAssignment v1 =>
      match s2 with
      | SAssignment v2 => compareAssignment v1 v2
      | _ => (false, (formatStatement s2 ++ " not an Assignment")%string)
      end
  | SCondition v1 =>
      match s2 with
      | SCondition v2 =>
          let (ok1, err1) := compareExpression (expression v1) (expression v2) in
          let (ok2, err2) := compareBlock (block v1) (block v2) in
          let (ok3, err3) := compareBlock (elseBlock v1) (elseBlock v2) in
          (ok1 && ok2 && ok3, (err1 ++ err2 ++ err3)%string)
      | _ => (false, (formatStatement s2 ++ " not a Condition")%string)
      end
  | SLoop v1 =>
      match s2 with
      | SLoop v2 =>
          let (ok1, err1) := compareAssignment (assignment v1) (assignment v2) in
          let (ok2, err2) := compareExpressions (loopExpressions v1) (loopExpressions v2) in
          let (ok3, err3) := compareAssignment (incrAssignment v1) (incrAssignment v2) in
          let (ok4, err4) := compareBlock (loopBlock v1) (loopBlock v2) in
          (ok1 && ok2 && ok3 && ok4, (err1 ++ err2 ++ err3 ++ err4)%string)
      | _ => (false, ("Expected statement, got: " ++ formatStatement s1)%string)
      end
  | SBlock _ => (false, ("Expected statement, got: " ++ formatStatement s1)%string)
  end.

(** The loop of [compareBlock]. *)
Fixpoint compareBlock_loop (l1 l2 : list Statement) : bool * string :=
  match l1, l2 with
  | v1 :: rest1, v2 :: rest2 =>
      let (b, e) := compareStatement v1 v2 in
      if negb b then (false, e) else compareBlock_loop rest1 rest2
  | _, _ => (true, EmptyString)
  end.

Definition compareBlock (ss1 ss2 : Block) : bool * string :=
  if negb (Nat.eqb (length (statements ss1)) (length (statements ss2))) then
    (false, ("Statement lists of different lengths: " ++ formatBlock ss1 ++ ", "
             ++ formatBlock ss2)%string)
  else compareBlock_loop (statements ss1) (statements ss2).

Definition compareASTs (generated expected : AST) : bool * string :=
  compareBlock (astBlock generated) (astBlock expected).

End Comparison.

(** *** What a comparison leaves out *)

(** The expression without the result types of its binary and unary nodes. *)
Fixpoint forgetOpTypes (e : Expression) : Expression :=
  match e with
  | BinaryOp operator leftExpr rightExpr _ =>
      BinaryOp operator (forgetOpTypes leftExpr) (forgetOpTypes rightExpr) TYPE_UNKNOWN
  | UnaryOp operator expr _ => UnaryOp operator (forgetOpTypes expr) TYPE_UNKNOWN
  | _ => e
  end.

(** No node of the expression is the nil interface value. *)
Fixpoint withoutNil (e : Expression) : Prop :=
  match e with
  | nilExpression => False
  | BinaryOp _ leftExpr rightExpr _ => withoutNil leftExpr /\ withoutNil rightExpr
  | UnaryOp _ expr _ => withoutNil expr
  | _ => True
  end.

Definition forgetAssignment (a : Assignment) : Assignment :=
  mkAssignment (variables a) (map forgetOpTypes (expressions a)).

(** The statement without the result types of its expressions and without its
    symbol tables. *)
Fixpoint forgetStatement (s : Statement) : Statement :=
  let forgetBlock (b : Block) : Block :=
    mkBlock ((fix all (ss : list Statement) : list Statement :=
                match ss with
                | [] => []
                | s' :: ss' => forgetStatement s' :: all ss'
                end) (statements b)) [] [] in
  match s with
  | SBlock b => SBlock (forgetBlock b)
  | SAssignment a => SAssignment (forgetAssignment a)
  | SCondition cnd =>
      SCondition (mkCondition (forgetOpTypes (expression cnd))
                    (forgetBlock (block cnd)) (forgetBlock (elseBlock cnd)))
  | SLoop l =>
      SLoop (mkLoop (forgetAssignment (assignment l))
               (map forgetOpTypes (loopExpressions l))
               (forgetAssignment (incrAssignment l))
               (forgetBlock (loopBlock l)))
  end.

Definition forgetBlock (b : Block) : Block :=
  mkBlock (map forgetStatement (statements b)) [] [].

(** A statement the comparison can find equal to another: no [Block] used as
    a statement and no nil expression anywhere in it. *)
Fixpoint comparableStatement (s : Statement) : Prop :=
  let comparableBlock (b : Block) : Prop :=
    (fix all (ss : list Statement) : Prop :=
       match ss with
       | [] => True
       | s' :: ss' => comparableStatement s' /\ all ss'
       end) (statements b) in
  match s with
  | SBlock _ => False
  | SAssignment a => Forall withoutNil (expressions a)
  | SCondition cnd =>
      withoutNil (expression cnd) /\
      comparableBlock (block cnd) /\ comparableBlock (elseBlock cnd)
  | SLoop l =>
      Forall withoutNil (expressions (assignment l)) /\
      Forall withoutNil (loopExpressions l) /\
      Forall withoutNil (expressions (incrAssignment l)) /\
      comparableBlock (loopBlock l)
  end.

Definition comparableBlock (b : Block) : Prop :=
  Forall comparableStatement (statements b).

(** What [compareStatement] answers for the statement [s1], against every
    other: equal exactly when [s1] is comparable and the two are the same
    once result types and symbol tables are left out, and then with an empty
    message. *)
Definition statementVerdict (formatStatement : Statement -> string)
    (formatBlock : Block -> string) (s1 : Statement) : Prop :=
  forall s2,
    (fst (compareStatement formatStatement formatBlock s1 s2) = true <->
     comparableStatement s1 /\ forgetStatement s1 = forgetStatement s2) /\
    (fst (compareStatement formatStatement formatBlock s1 s2) = true ->
     snd (compareStatement formatStatement formatBlock s1 s2) = EmptyString).

(* ================================================================= *)
(** ** Token channel *)

Record TokenChannel : Set := mkTokenChannel
  { c : list Token;        (* what the channel still delivers before it is closed *)
    isCached : bool;
    token : Token }.

(** What the parser acts on: the [*TokenChannel] every production receives as
    [tokens], and the lines written with [fmt.Println]. *)
Record World : Set := mkWorld { tokens : TokenChannel; stdout : list string }.

Section Parser.

(** The [TokenType] whose numeric value is 0, the kind of Go's zero [Token].
    Which constant that is depends on the lexer's const block; everything below
    holds for each choice. *)
Variable zeroType : TokenType.

Definition zeroToken : Token := mkToken zeroType EmptyString.

Definition next (w : World) : Token * World :=
  let tc := tokens w in
  if isCached tc then
    (token tc, mkWorld (mkTokenChannel (c tc) false (token tc)) (stdout w))
  else
    match c tc with
    | v :: rest => (v, mkWorld (mkTokenChannel rest false (token tc)) (stdout w))
    | [] => (zeroToken, mkWorld tc (stdout w ++ ["Channel closed unexpectedly."]))
    end.

Definition pushBack (t : Token) (w : World) : World :=
  let tc := tokens w in
  if isCached tc then
    mkWorld tc (stdout w ++ ["Can only cache one item at a time."])
  else
    mkWorld (mkTokenChannel (c tc) true t) (stdout w).

(** [n] successive calls of [next]: the tokens returned, in order. *)
Fixpoint nextN (n : nat) (w : World) : list Token * World :=
  match n with
  | 0 => ([], w)
  | S n' => let (t, w1) := next w in
            let (ts, w2) := nextN n' w1 in (t :: ts, w2)
  end.

(** *** The stream a channel state stands for *)

(** The tokens held by the state, in the order [next] will return them. *)
Definition pending (tc : TokenChannel) : list Token :=
  (if isCached tc then [token tc] else []) ++ c tc.

(** The [i]-th token that [next] is going to return: after the pending tokens
    come zero tokens, for ever. *)
Definition stream (w : World) (i : nat) : Token := nth i (pending (tokens w)) zeroToken.

Definition peek (w : World) : Token := stream w 0.

(** Two states stand for the same token stream. *)
Definition sameStream (w w' : World) : Prop := forall i, stream w' i = stream w i.

Definition isZeroToken (t : Token) : bool := if Token_eq_dec t zeroToken then true else false.

(** The state holds nothing but zero tokens: it behaves like the drained channel. *)
Definition atEnd (w : World) : bool := forallb isZeroToken (pending (tokens w)).

(** The number of tokens left before the stream is all zero tokens. *)
Definition left (w : World) : nat :=
  if atEnd w then 0 else length (pending (tokens w)).


(* ================================================================= *)
(** ** Parser implementation *)

(** A computation on the world that may run out of fuel. *)
Definition M (A : Type) : Type := World -> option (A * World).

Definition ret {A : Type} (a : A) : M A := fun w => Some (a, w).

Definition bind {A B : Type} (m : M A) (k : A -> M B) : M B :=
  fun w => match m w with
           | None => None
           | Some (a, w1) => k a w1
           end.

(** A call that needs no fuel. *)
Definition call {A : Type} (f : World -> A * World) : M A := fun w => Some (f w).

Definition outOfFuel {A : Type} : M A := fun _ => None.

Notation "x <- m ;; k" := (bind m (fun x => k))
  (at level 61, m at next level, right associativity).
Notation "' pat <- m ;; k" := (bind m (fun x => match x with pat => k end))
  (at level 61, pat pattern, m at next level, right associativity).

Definition expectType (ttype : TokenType) (w : World) : (string * bool) * World :=
  let (t, w1) := next w in
  if negb (TokenType_eqb (tokenType t) ttype) then
    ((EmptyString, false), pushBack t w1)
  else ((value t, true), w1).

Definition expect (ttype : TokenType) (val : string) (w : World) : bool * World :=
  let (t, w1) := next w in
  if negb (TokenType_eqb (tokenType t) ttype) || negb (String.eqb (value t) val) then
    (false, pushBack t w1)
  else (true, w1).

Definition parseVariable (w : World) : (Variable_ * bool) * World :=
  let (shadowing, w1) := expect TOKEN_KEYWORD "shadow" w in
  let '((v, ok), w2) := expectType TOKEN_IDENTIFIER w1 in
  if ok then ((mkVariable TYPE_UNKNOWN v shadowing, true), w2)
  else ((zeroVariable, false), w2).

(** The [for] loop of [parseVarList]; [variables] is the slice built so far. *)
Fixpoint parseVarList_loop (fuel : nat) (variables : list Variable_) : M (list Variable_) :=
  match fuel with
  | 0 => outOfFuel
  | S n =>
      '(v, ok) <- call parseVariable ;;
      if negb ok then ret []
      else
        let variables := variables ++ [v] in
        sep <- call (expect TOKEN_SEPARATOR ",") ;;
        if negb sep then ret variables
        else parseVarList_loop n variables
  end.

Definition parseVarList (fuel : nat) : M (list Variable_) := parseVarList_loop fuel [].

Definition parseConstant (w : World) : (Constant * bool) * World :=
  let '((v, ok), w1) := expectType TOKEN_CONSTANT w in
  if ok then ((mkConstant (getConstType v) v, true), w1)
  else ((zeroConstant, false), w1).

(** What an expression production returns: [(expression, err)]. *)
Definition ExprResult : Set := Expression * option error.

(** The expression productions call each other; each takes the production
    [parseExpression] it calls as an argument, and [parseExpression] ties the
    knot on the fuel. *)
Definition parseSimpleExpression (parseExpression : M ExprResult) : M ExprResult :=
  '(tmpV, ok) <- call parseVariable ;;
  if ok then ret (EVariable tmpV, None)
  else
    '(tmpC, ok) <- call parseConstant ;;
    if ok then ret (EConstant tmpC, None)
    else
      open <- call (expect TOKEN_PARENTHESIS_OPEN "(") ;;
      if open then
        '(e, parseErr) <- parseExpression ;;
        match parseErr with
        | Some _ => ret (nilExpression, Some (errors_New "Invalid expression in ()"))
        | None =>
            close <- call (expect TOKEN_PARENTHESIS_CLOSE ")") ;;
            if close then ret (e, None)
            else ret (e, Some (errors_New "Expected ')', got something else"))
        end
      else ret (nilExpression, Some (errors_New "Invalid simple expression")).

Definition parseUnaryExpression (parseExpression : M ExprResult) : M ExprResult :=
  minus <- call (expect TOKEN_OPERATOR "-") ;;
  if minus then
    '(e, parseErr) <- parseExpression ;;
    match parseErr with
    | Some _ => ret (nilExpression, Some (errors_New "Invalid expression after unary '-'"))
    | None => ret (UnaryOp OP_NEGATIVE e TYPE_UNKNOWN, None)
    end
  else
    bang <- call (expect TOKEN_OPERATOR "!") ;;
    if bang then
      '(e, parseErr) <- parseExpression ;;
      match parseErr with
      | Some _ => ret (nilExpression, Some (errors_New "Invalid expression after unary '!'"))
      | None => ret (UnaryOp OP_NOT e TYPE_UNKNOWN, None)
      end
    else ret (nilExpression, Some (errors_New "Invalid unary expression")).

(** The second half of [parseExpression]: [expression] has been parsed; if an
    operator token follows, everything after it becomes the right operand. *)
Definition parseExpression_binop (parseExpression : M ExprResult)
    (expression : Expression) : M ExprResult :=
  '(t, ok) <- call (expectType TOKEN_OPERATOR) ;;
  if ok then
    '(rightHandExpr, parseErr) <- parseExpression ;;
    match parseErr with
    | Some _ =>
        ret (expression,
             Some (errors_New "Invalid expression on right hand side of binary operation"))
    | None => ret (BinaryOp (getOperatorType t) expression rightHandExpr TYPE_UNKNOWN, None)
    end
  else ret (expression, None).

Definition parseExpression_body (parseExpression : M ExprResult) : M ExprResult :=
  '(unaryExpression, parseErr) <- parseUnaryExpression parseExpression ;;
  match parseErr with
  | None => parseExpression_binop parseExpression unaryExpression
  | Some _ =>
      '(simpleExpression, parseErr) <- parseSimpleExpression parseExpression ;;
      match parseErr with
      | Some _ =>
          ret (nilExpression, Some (errors_New "Simple expression expected, got something else"))
      | None => parseExpression_binop parseExpression simpleExpression
      end
  end.

Fixpoint parseExpression (fuel : nat) : M ExprResult :=
  match fuel with
  | 0 => outOfFuel
  | S n => parseExpression_body (parseExpression n)
  end.

(** The [for] loop of [parseExpressionList], with its counter [i]. *)
Fixpoint parseExpressionList_loop (parseExpression : M ExprResult) (fuel : nat)
    (i : nat) (expressions : list Expression) : M (list Expression * option error) :=
  match fuel with
  | 0 => outOfFuel
  | S n =>
      '(e, parseErr) <- parseExpression ;;
      match parseErr with
      | Some _ =>
          if Nat.eqb i 0 then ret (expressions, None)
          else
            ret ([], Some (errors_New
              "Expected expression in expression list after ',', got something else"))
      | None =>
          let expressions := expressions ++ [e] in
          sep <- call (expect TOKEN_SEPARATOR ",") ;;
          if negb sep then ret (expressions, None)
          else parseExpressionList_loop parseExpression n (i + 1) expressions
      end
  end.

Definition parseExpressionList (fuel : nat) : M (list Expression * option error) :=
  parseExpressionList_loop (parseExpression fuel) fuel 0 [].

Definition parseAssignment (fuel : nat) : M (Assignment * option error) :=
  variables <- parseVarList fuel ;;
  if Nat.eqb (length variables) 0 then
    ret (zeroAssignment,
         Some (errors_New "Expected variable in assignment, got something else"))
  else
    eq <- call (expect TOKEN_ASSIGNMENT "=") ;;
    if negb eq then
      ret (zeroAssignment, Some (errors_New "Expected '=' in assignment, got something else"))
    else
      '(expressions, parseErr) <- parseExpressionList fuel ;;
      match parseErr with
      | Some pe =>
          ret (zeroAssignment,
               Some (errors_New ("Invalid expression list in assignment -- " ++ Error pe)))
      | None => ret (mkAssignment variables expressions, None)
      end.

Definition newline : string := String "010"%char EmptyString.

(** What a statement-list production returns: [(block, err)]. *)
Definition BlockResult : Set := Block * option error.

Definition parseCondition (fuel : nat) (parseStatementList : M BlockResult)
  : M (Condition * option error) :=
  kw <- call (expect TOKEN_KEYWORD "if") ;;
  if negb kw then
    ret (zeroCondition,
         Some (errors_New "Expected 'if' keyword for condition, got something else"))
  else
    '(expression, parseErr) <- parseExpression fuel ;;
    match parseErr with
    | Some pe =>
        ret (zeroCondition,
             Some (errors_New ("Expected expression after 'if' keyword" ++ newline ++ Error pe)))
    | None =>
        open <- call (expect TOKEN_CURLY_OPEN "{") ;;
        if negb open then
          ret (zeroCondition,
               Some (errors_New "Expected '{' after condition, got something else"))
        else
          '(statements, parseErr) <- parseStatementList ;;
          match parseErr with
          | Some pe =>
              ret (zeroCondition,
                   Some (fmt_Errorf_w pe ", Error while parsing the condition if block"))
          | None =>
              close <- call (expect TOKEN_CURLY_CLOSE "}") ;;
              if negb close then
                ret (zeroCondition,
                     Some (errors_New "Expected '}' after condition block, got something else"))
              else
                let condition := mkCondition expression statements zeroBlock in
                els <- call (expect TOKEN_KEYWORD "else") ;;
                if els then
                  open <- call (expect TOKEN_CURLY_OPEN "{") ;;
                  if negb open then
                    ret (condition,
                         Some (errors_New
                           "Expected '{' after 'else' in condition, got something else"))
                  else
                    '(elseStatements, parseErr) <- parseStatementList ;;
                    match parseErr with
                    | Some pe =>
                        ret (condition,
                             Some (fmt_Errorf_w pe
                               ", Error while parsing the condition else block"))
                    | None =>
                        close <- call (expect TOKEN_CURLY_CLOSE "}") ;;
                        if negb close then
                          ret (condition,
                               Some (errors_New
                                 "Expected '}' after 'eĺse' block in condition, got something else"))
                        else ret (mkCondition expression statements elseStatements, None)
                    end
                else ret (condition, None)
          end
    end.

Definition parseLoop (fuel : nat) (parseStatementList : M BlockResult)
  : M (Loop * option error) :=
  kw <- call (expect TOKEN_KEYWORD "for") ;;
  if negb kw then
    ret (zeroLoop, Some (errors_New "Expected 'for' keyword for loop, got something else"))
  else
    '(assignment, _) <- parseAssignment fuel ;;
    semi <- call (expect TOKEN_SEMICOLON ";") ;;
    if negb semi then
      ret (zeroLoop, Some (errors_New "Expected ';' after loop assignment, got something else"))
    else
      '(expressions, parseErr) <- parseExpressionList fuel ;;
      match parseErr with
      | Some pe =>
          ret (zeroLoop,
               Some (errors_New ("Invalid expression list in loop expression" ++ newline
                                 ++ Error pe)))
      | None =>
          semi <- call (expect TOKEN_SEMICOLON ";") ;;
          if negb semi then
            ret (zeroLoop,
                 Some (errors_New "Expected ';' after loop expression, got something else"))
          else
            '(incrAssignment, _) <- parseAssignment fuel ;;
            open <- call (expect TOKEN_CURLY_OPEN "{") ;;
            if negb open then
              ret (zeroLoop,
                   Some (errors_New "Expected '{' after loop header, got something else"))
            else
              '(forBlock, parseErr) <- parseStatementList ;;
              match parseErr with
              | Some pe =>
                  ret (zeroLoop, Some (fmt_Errorf_w pe ", Error while parsing the loop block"))
              | None =>
                  close <- call (expect TOKEN_CURLY_CLOSE "}") ;;
                  if negb close then
                    ret (zeroLoop,
                         Some (errors_New "Expected '}' after loop block, got something else"))
                  else ret (mkLoop assignment expressions incrAssignment forBlock, None)
              end
      end.

(** [block.statements = append(block.statements, s)] *)
Definition appendStatement (block : Block) (s : Statement) : Block :=
  mkBlock (statements block ++ [s]) (parentSymbolTable block) (symbolTable block).

(** The [for] loop of [parseStatementList]: the three [switch] statements, each
    trying one production; [block] is the named result built so far. *)
Fixpoint parseStatementList_loop
    (parseCondition : M (Condition * option error))
    (parseLoop : M (Loop * option error))
    (parseAssignment : M (Assignment * option error))
    (fuel : nat) (block : Block) : M BlockResult :=
  match fuel with
  | 0 => outOfFuel
  | S n =>
      let continue := parseStatementList_loop parseCondition parseLoop parseAssignment n in
      '(ifStatement, parseErr) <- parseCondition ;;
      match parseErr with
      | None => continue (appendStatement block (SCondition ifStatement))
      | Some e =>
          if errors_Is e ErrCritical then ret (block, Some e)
          else
            '(loopStatement, parseErr) <- parseLoop ;;
            match parseErr with
            | None => continue (appendStatement block (SLoop loopStatement))
            | Some e =>
                if errors_Is e ErrCritical then ret (block, Some e)
                else
                  '(assignment, parseErr) <- parseAssignment ;;
                  match parseErr with
                  | None => continue (appendStatement block (SAssignment assignment))
                  | Some e =>
                      if errors_Is e ErrCritical then ret (block, Some e)
                      else ret (block, None)
                  end
            end
      end
  end.

Fixpoint parseStatementList (fuel : nat) : M BlockResult :=
  match fuel with
  | 0 => outOfFuel
  | S n =>
      let nested := parseStatementList n in
      parseStatementList_loop
        (parseCondition (S n) nested)
        (parseLoop (S n) nested)
        (parseAssignment (S n))
        (S n) zeroBlock
  end.

(** What [parse] does with the results of [parseStatementList]: with an error
    it returns the tree it declared, [var ast AST], untouched; without, it
    stores the block in that tree. *)
Definition parse_result (r : BlockResult) : AST :=
  let ast := zeroAST in
  let (block, parseErr) := r in
  match parseErr with
  | Some _ => ast
  | None => mkAST block (globalSymbolTable ast)
  end.

(** [parse] has the single result [AST].  Its channel argument is given by the
    tokens the lexer sends before closing it; [out] is what has been printed
    so far, and the lines printed while parsing are returned with the tree. *)
Definition parse (fuel : nat) (tokens : list Token) (out : list string)
  : option (AST * list string) :=
  let tokenChan := mkTokenChannel tokens false zeroToken in
  match parseStatementList fuel (mkWorld tokenChan out) with
  | None => None
  | Some (r, w) => Some (parse_result r, stdout w)
  end.

(* ================================================================= *)
(** ** Vocabulary of the statements proved below *)

(** Total correctness: [m] returns from [w], and the result satisfies [Q]. *)
Definition returns {A : Type} (m : M A) (w : World) (Q : A -> World -> Prop) : Prop :=
  exists a w', m w = Some (a, w') /\ Q a w'.

(** The tokens that can begin an [exp] of the grammar. *)
Definition beginsExpression (t : Token) : bool :=
  match tokenType t with
  | TOKEN_IDENTIFIER | TOKEN_CONSTANT => true
  | TOKEN_KEYWORD => String.eqb (value t) "shadow"
  | TOKEN_OPERATOR => String.eqb (value t) "-" || String.eqb (value t) "!"
  | TOKEN_PARENTHESIS_OPEN => String.eqb (value t) "("
  | _ => false
  end.

Definition isToken (ttype : TokenType) (val : string) (t : Token) : bool :=
  TokenType_eqb (tokenType t) ttype && String.eqb (value t) val.

(** The tokens that can begin an [assign] of the grammar. *)
Definition beginsVariable (t : Token) : bool :=
  TokenType_eqb (tokenType t) TOKEN_IDENTIFIER || isToken TOKEN_KEYWORD "shadow" t.

(** An operand written without parentheses: a variable, possibly declared with
    [shadow], or a constant literal. *)
Inductive Operand : Set :=
| OVariable (shadow : bool) (name : string)
| OConstant (text : string).

Definition operandTokens (o : Operand) : list Token :=
  match o with
  | OVariable true name => [mkToken TOKEN_KEYWORD "shadow"; mkToken TOKEN_IDENTIFIER name]
  | OVariable false name => [mkToken TOKEN_IDENTIFIER name]
  | OConstant text => [mkToken TOKEN_CONSTANT text]
  end.

Definition operandExpression (o : Operand) : Expression :=
  match o with
  | OVariable shadow name => EVariable (mkVariable TYPE_UNKNOWN name shadow)
  | OConstant text => EConstant (mkConstant (getConstType text) text)
  end.

(** The [binop] alternatives of the grammar, with the operator each stands for. *)
Definition binaryOperators : list (string * Operator) :=
  [("+", OP_PLUS); ("-", OP_MINUS); ("*", OP_MULT); ("/", OP_DIV);
   ("==", OP_EQ); ("!=", OP_NE); ("<=", OP_LE); (">=", OP_GE);
   ("<", OP_LESS); (">", OP_GREATER); ("&&", OP_AND); ("||", OP_OR)].

(** What an expression production guarantees when started in [w]: it never
    lengthens what is left, and when it succeeds it has shortened it, unless
    the stream was at its end and the zero token is itself an operand. *)
Definition exprPost (w : World) (r : ExprResult) (w' : World) : Prop :=
  left w' <= left w /\
  (snd r = None ->
   left w' < left w \/
   (left w = 0 /\ (zeroType = TOKEN_IDENTIFIER \/ zeroType = TOKEN_CONSTANT))).

(** What a statement production guarantees when started in [w]: a statement
    that is accepted has shortened what is left, and an error is never
    critical. *)
Definition stmtPost {A : Type} (w : World) (r : A * option error) (w' : World) : Prop :=
  left w' <= left w /\
  (snd r = None -> left w' < left w) /\
  (forall e, snd r = Some e -> errors_Is e ErrCritical = false).

(** What a statement list guarantees when started in [w]: there is no error. *)
Definition blockPost (w : World) (r : BlockResult) (w' : World) : Prop :=
  left w' <= left w /\ snd r = None.

(** Whatever [m1] returns, [m2] returns as well. *)
Definition extends {A : Type} (m1 m2 : M A) : Prop :=
  forall w r, m1 w = Some r -> m2 w = Some r.

(** The error is a value made by [errors.New]: it is neither of the sentinels
    and wraps nothing. *)
Definition freshError (err : option error) : Prop :=
  forall e, err = Some e -> exists text, e = errors_New text.

(** The world in which [parse] starts: a fresh [TokenChannel] around the
    channel that delivers [toks]. *)
Definition startWorld (toks : list Token) (out : list string) : World :=
  mkWorld (mkTokenChannel toks false zeroToken) out.

(** The identifiers [a], [b] and [c]. *)
Definition tokA : Token := mkToken TOKEN_IDENTIFIER "a".
Definition tokB : Token := mkToken TOKEN_IDENTIFIER "b".
Definition tokC : Token := mkToken TOKEN_IDENTIFIER "c".


(** [a = 1 } b = 2]: an assignment, a stray closing brace, another assignment. *)
Definition trailingGarbage : list Token :=
  [mkToken TOKEN_IDENTIFIER "a"; mkToken TOKEN_ASSIGNMENT "="; mkToken TOKEN_CONSTANT "1";
   mkToken TOKEN_CURLY_CLOSE "}";
   mkToken TOKEN_IDENTIFIER "b"; mkToken TOKEN_ASSIGNMENT "="; mkToken TOKEN_CONSTANT "2"].

(** [m] cannot tell apart two worlds that stand for the same token stream: it
    returns the same value from both and leaves the same stream. *)
Definition respects {A : Type} (m : M A) : Prop :=
  forall w1 w2, sameStream w1 w2 ->
    match m w1, m w2 with
    | Some (a1, w1'), Some (a2, w2') => a1 = a2 /\ sameStream w1' w2'
    | None, None => True
    | _, _ => False
    end.

(** Every run of [m] takes a world to one that [R] relates it to. *)
Definition stepsBy (R : World -> World -> Prop) {A : Type} (m : M A) : Prop :=
  forall w a w', m w = Some (a, w') -> R w w'.

(** The line [next] prints when it finds the channel closed. *)
Definition closedLine : string := "Channel closed unexpectedly.".

(** [w'] has printed what [w] had, and after it nothing but the line of the
    closed channel, some number of times. *)
Definition printsOnlyClosed (w w' : World) : Prop :=
  exists k, stdout w' = stdout w ++ repeat closedLine k.

(** The stream of [w'] is the stream of [w] with some tokens taken off its
    front. *)
Definition advanced (w w' : World) : Prop :=
  exists k, forall i, stream w' i = stream w (k + i).

(** The shape of the expressions the parser builds: no nil node, every result
    type and variable type still [TYPE_UNKNOWN], a constant typed by its
    text, a unary node with one of the two unary operators, a binary node
    with the operator [getOperatorType] read (never the unary minus). *)
Fixpoint parsedExpression (e : Expression) : Prop :=
  match e with
  | nilExpression => False
  | EVariable v => vType v = TYPE_UNKNOWN
  | EConstant k => cType k = getConstType (cValue k)
  | BinaryOp operator leftExpr rightExpr opType =>
      operator <> OP_NEGATIVE /\ opType = TYPE_UNKNOWN /\
      parsedExpression leftExpr /\ parsedExpression rightExpr
  | UnaryOp operator expr opType =>
      (operator = OP_NEGATIVE \/ operator = OP_NOT) /\ opType = TYPE_UNKNOWN /\
      parsedExpression expr
  end.

Definition parsedAssignment (a : Assignment) : Prop :=
  Forall (fun v => vType v = TYPE_UNKNOWN) (variables a) /\
  Forall parsedExpression (expressions a).

(** The shape of the statements the parser builds: never a [Block] used as a
    statement, every symbol table nil, every expression as above, an
    assignment statement with at least one target. *)
Fixpoint parsedStatement (s : Statement) : Prop :=
  let parsedBlock (b : Block) :=
    parentSymbolTable b = [] /\ symbolTable b = [] /\
    (fix all (ss : list Statement) : Prop :=
       match ss with
       | [] => True
       | s' :: ss' => parsedStatement s' /\ all ss'
       end) (statements b) in
  match s with
  | SBlock _ => False
  | SAssignment a => 1 <= length (variables a) /\ parsedAssignment a
  | SCondition cnd =>
      parsedExpression (expression cnd) /\
      parsedBlock (block cnd) /\ parsedBlock (elseBlock cnd)
  | SLoop l =>
      parsedAssignment (assignment l) /\
      Forall parsedExpression (loopExpressions l) /\
      parsedAssignment (incrAssignment l) /\
      parsedBlock (loopBlock l)
  end.

Definition parsedBlock (b : Block) : Prop :=
  parentSymbolTable b = [] /\ symbolTable b = [] /\ Forall parsedStatement (statements b).

(** A variable as it is written: whether [shadow] comes first, and the name. *)
Definition varTokens (v : bool * string) : list Token :=
  operandTokens (OVariable (fst v) (snd v)).

Definition varOf (v : bool * string) : Variable_ :=
  mkVariable TYPE_UNKNOWN (snd v) (fst v).

Definition commaToken : Token := mkToken TOKEN_SEPARATOR ",".

(** The tokens of a list whose items are separated by commas. *)
Fixpoint separated {A : Type} (f : A -> list Token) (xs : list A) : list Token :=
  match xs with
  | [] => []
  | x :: xs' =>
      match xs' with
      | [] => f x
      | _ :: _ => f x ++ commaToken :: separated f xs'
      end
  end.

(** The two unary operators, with the operator each stands for. *)
Definition unaryOperators : list (string * Operator) :=
  [("-", OP_NEGATIVE); ("!", OP_NOT)].

(** The world [w] with one more zero token at the end of its channel: it
    stands for the same stream. *)
Definition padded (w : World) : World :=
  mkWorld (mkTokenChannel (c (tokens w) ++ [zeroToken]) (isCached (tokens w))
             (token (tokens w))) (stdout w).

(** The rounds of the loop of [parseExpressionList] that go on to another
    round: from [w] the loop reads the items [items], each of them an
    accepted expression followed by a [','] that [expect] consumes, and is
    about to read the next item in [w']. *)
Inductive readsItems (pe : M ExprResult) : World -> list Expression -> World -> Prop :=
| readsItems_nil (w : World) : readsItems pe w [] w
| readsItems_cons (w w1 w2 w3 : World) (e : Expression) (items : list Expression) :
    pe w = Some ((e, None), w1) ->
    expect TOKEN_SEPARATOR "," w1 = (true, w2) ->
    readsItems pe w2 items w3 ->
    readsItems pe w (e :: items) w3.

(* ================================================================= *)
(** ** The token channel *)

Lemma next_spec (w : World) :
  fst (next w) = peek w /\
  pending (tokens (snd (next w))) = tl (pending (tokens w)) /\
  isCached (tokens (snd (next w))) = false.
Proof.
  destruct w as [[l b tk] out]; unfold next, peek, stream, pending; simpl.
  destruct b; simpl; [auto|].
  destruct l; simpl; auto.
Qed.

Lemma pushBack_spec (t : Token) (w : World) :
  isCached (tokens w) = false ->
  pending (tokens (pushBack t w)) = t :: pending (tokens w) /\
  stdout (pushBack t w) = stdout w.
Proof.
  destruct w as [[l b tk] out]; unfold pushBack, pending; simpl.
  intros ->; simpl; auto.
Qed.

(** The pending tokens after [next] and [pushBack] of the token just read. *)
Lemma unread_pending (w : World) :
  pending (tokens (pushBack (fst (next w)) (snd (next w))))
  = peek w :: tl (pending (tokens w)).
Proof.
  destruct (next_spec w) as (Ht & Hp & Hc).
  destruct (pushBack_spec (fst (next w)) _ Hc) as (Hq & _).
  rewrite Hq, Hp, Ht; reflexivity.
Qed.

Lemma nth_unread (l : list Token) (i : nat) :
  nth i (nth 0 l zeroToken :: tl l) zeroToken = nth i l zeroToken.
Proof. destruct l; destruct i; simpl; auto; destruct i; auto. Qed.

Lemma atEnd_peek (w : World) : atEnd w = true -> peek w = zeroToken.
Proof.
  unfold atEnd, peek, stream. destruct (pending (tokens w)) as [|t l]; simpl; auto.
  intros H; apply andb_prop in H; destruct H as [H _].
  unfold isZeroToken in H. destruct (Token_eq_dec t zeroToken); congruence.
Qed.

Lemma left_zero (w : World) : left w = 0 <-> atEnd w = true.
Proof.
  unfold left, atEnd. destruct (pending (tokens w)) as [|t l]; simpl.
  - tauto.
  - destruct (isZeroToken t && forallb isZeroToken l); simpl; split; congruence.
Qed.

(** Reading a token never lengthens what is left, and shortens it unless the
    stream holds zero tokens only. *)
Lemma left_tl (w w1 : World) :
  pending (tokens w1) = tl (pending (tokens w)) ->
  left w1 <= left w /\ (left w <> 0 -> left w1 < left w).
Proof.
  unfold left, atEnd. intros ->.
  destruct (pending (tokens w)) as [|t l]; simpl; [lia|].
  destruct (isZeroToken t) eqn:Ht; simpl.
  - destruct (forallb isZeroToken l); simpl; lia.
  - destruct (forallb isZeroToken l); simpl; lia.
Qed.

Lemma left_unread (w w1 : World) :
  pending (tokens w1) = peek w :: tl (pending (tokens w)) ->
  left w1 = left w /\ sameStream w w1.
Proof.
  intros H. split.
  - unfold left, atEnd. rewrite H. unfold peek, stream.
    destruct (pending (tokens w)) as [|t l]; simpl; [|reflexivity].
    unfold isZeroToken. destruct (Token_eq_dec zeroToken zeroToken); simpl; congruence.
  - intros i. unfold stream at 1. rewrite H. apply nth_unread.
Qed.


Lemma sameStream_refl (w : World) : sameStream w w.
Proof. intros i; reflexivity. Qed.

Lemma sameStream_trans (w1 w2 w3 : World) :
  sameStream w1 w2 -> sameStream w2 w3 -> sameStream w1 w3.
Proof. intros H12 H23 i. rewrite H23. apply H12. Qed.

Lemma sameStream_peek (w w' : World) : sameStream w w' -> peek w' = peek w.
Proof. intros H; apply (H 0). Qed.

Lemma isToken_zero (ttype : TokenType) (val : string) :
  isToken ttype val zeroToken = true -> ttype = zeroType /\ val = EmptyString.
Proof.
  unfold isToken, TokenType_eqb; simpl.
  destruct (TokenType_eq_dec zeroType ttype); simpl; [|discriminate].
  destruct val; simpl; [auto | discriminate].
Qed.

(** [expect] in terms of the pending tokens. *)
Lemma expect_spec (ttype : TokenType) (val : string) (w : World) :
  forall b w1, expect ttype val w = (b, w1) ->
  b = isToken ttype val (peek w) /\
  pending (tokens w1)
  = if b then tl (pending (tokens w)) else peek w :: tl (pending (tokens w)).
Proof.
  intros b w1. unfold expect.
  pose proof (next_spec w) as (Ht & Hp & _). pose proof (unread_pending w) as Hu.
  destruct (next w) as [t w0]; simpl in *. subst t. unfold isToken.
  destruct (TokenType_eqb (tokenType (peek w)) ttype); simpl.
  - destruct (String.eqb (value (peek w)) val); simpl; intros H; inversion H; subst; auto.
  - intros H; inversion H; subst; auto.
Qed.

Lemma expectType_spec (ttype : TokenType) (w : World) :
  forall v ok w1, expectType ttype w = ((v, ok), w1) ->
  ok = TokenType_eqb (tokenType (peek w)) ttype /\
  v = (if ok then value (peek w) else EmptyString) /\
  pending (tokens w1)
  = if ok then tl (pending (tokens w)) else peek w :: tl (pending (tokens w)).
Proof.
  intros v ok w1. unfold expectType.
  pose proof (next_spec w) as (Ht & Hp & _). pose proof (unread_pending w) as Hu.
  destruct (next w) as [t w0]; simpl in *. subst t.
  destruct (TokenType_eqb (tokenType (peek w)) ttype); simpl;
    intros H; inversion H; subst; auto.
Qed.

(** What a call of [expect] does to the measure [left] and to the stream. *)
Lemma expect_facts (ttype : TokenType) (val : string) (w w1 : World) (b : bool) :
  expect ttype val w = (b, w1) ->
  left w1 <= left w /\
  (b = true -> isToken ttype val (peek w) = true /\
               (left w1 < left w \/ (left w = 0 /\ ttype = zeroType /\ val = EmptyString))) /\
  (b = false -> isToken ttype val (peek w) = false /\ left w1 = left w /\ sameStream w w1).
Proof.
  intros H. apply expect_spec in H. destruct H as [Hb Hp].
  destruct b.
  - destruct (left_tl w w1 Hp) as [Hle Hlt].
    split; [assumption|]. split; [|discriminate].
    intros _. split; [auto|].
    destruct (Nat.eq_dec (left w) 0) as [Hz|Hz]; [right | left; auto].
    split; [assumption|]. apply isToken_zero.
    rewrite <- (atEnd_peek w); [auto | apply left_zero; assumption].
  - destruct (left_unread w w1 Hp) as [Heq Hs].
    split; [lia|]. split; [discriminate|]. auto.
Qed.

Lemma expectType_facts (ttype : TokenType) (w w1 : World) (v : string) (ok : bool) :
  expectType ttype w = ((v, ok), w1) ->
  left w1 <= left w /\
  (ok = true -> tokenType (peek w) = ttype /\ v = value (peek w) /\
                (left w1 < left w \/ (left w = 0 /\ ttype = zeroType))) /\
  (ok = false -> tokenType (peek w) <> ttype /\ left w1 = left w /\ sameStream w w1).
Proof.
  intros H. apply expectType_spec in H. destruct H as (Hb & Hv & Hp).
  unfold TokenType_eqb in Hb.
  destruct ok.
  - destruct (left_tl w w1 Hp) as [Hle Hlt].
    split; [assumption|]. split; [|discriminate].
    intros _. destruct (TokenType_eq_dec (tokenType (peek w)) ttype) as [Ht|]; [|discriminate].
    split; [assumption|]. split; [assumption|].
    destruct (Nat.eq_dec (left w) 0) as [Hz|Hz]; [right | left; auto].
    split; [assumption|].
    rewrite <- Ht, (atEnd_peek w); [reflexivity | apply left_zero; assumption].
  - destruct (left_unread w w1 Hp) as [Heq Hs].
    split; [lia|]. split; [discriminate|].
    intros _. destruct (TokenType_eq_dec (tokenType (peek w)) ttype); [discriminate|auto].
Qed.

(** *** Push-back and end of input *)

Lemma nextN_exhausted (n : nat) : forall (w : World),
  c (tokens w) = [] -> isCached (tokens w) = false ->
  fst (nextN n w) = repeat zeroToken n /\ tokens (snd (nextN n w)) = tokens w.
Proof.
  induction n as [|n IH]; intros w Hc Hk; simpl; [auto|].
  assert (Hn : next w = (zeroToken,
                mkWorld (tokens w) (stdout w ++ ["Channel closed unexpectedly."]))).
  { unfold next. rewrite Hk, Hc. reflexivity. }
  rewrite Hn.
  specialize (IH (mkWorld (tokens w) (stdout w ++ ["Channel closed unexpectedly."])) Hc Hk).
  destruct (nextN n _) as [ts w2]; simpl in *.
  destruct IH as [-> ->]; auto.
Qed.

(** C7.  [pushBack] stores exactly one token.  With the buffer free, the token
    is stored, nothing is printed, and the next call of [next] returns it and
    frees the buffer again, leaving the channel as it was.  With a token
    already buffered, [pushBack] stores nothing: the buffered token stays, the
    line "Can only cache one item at a time." is printed, and the next call
    of [next] returns the token buffered first. *)
Theorem pushBack_one_token (t : Token) (w : World) :
  (isCached (tokens w) = false ->
     isCached (tokens (pushBack t w)) = true /\
     stdout (pushBack t w) = stdout w /\
     fst (next (pushBack t w)) = t /\
     c (tokens (snd (next (pushBack t w)))) = c (tokens w) /\
     isCached (tokens (snd (next (pushBack t w)))) = false) /\
  (isCached (tokens w) = true ->
     tokens (pushBack t w) = tokens w /\
     stdout (pushBack t w) = stdout w ++ ["Can only cache one item at a time."] /\
     fst (next (pushBack t w)) = token (tokens w)).
Proof.
  destruct w as [[l b tk] out]; unfold pushBack, next; simpl.
  split; intros ->; simpl; auto.
Qed.

(** C8.  On an exhausted stream (the channel is drained and closed, nothing
    is buffered) every call of [next] returns at once with the zero [Token],
    the end-of-input token, and leaves the channel exhausted: any number of
    calls in a row return that token each time. *)
Theorem next_exhausted (w : World) (n : nat) :
  c (tokens w) = [] -> isCached (tokens w) = false ->
  fst (next w) = zeroToken /\
  tokens (snd (next w)) = tokens w /\
  Forall (fun t => t = zeroToken) (fst (nextN n w)) /\
  length (fst (nextN n w)) = n /\
  c (tokens (snd (nextN n w))) = [] /\ isCached (tokens (snd (nextN n w))) = false.
Proof.
  intros Hc Hk.
  destruct (nextN_exhausted n w Hc Hk) as [Hts Hw].
  rewrite Hts, Hw. unfold next. rewrite Hk, Hc; simpl.
  repeat split; auto.
  - apply Forall_forall. intros x Hx. apply repeat_spec in Hx. assumption.
  - apply repeat_length.
Qed.


(* ================================================================= *)
(** ** Reasoning about computations *)

Lemma returns_ret {A : Type} (a : A) (w : World) (Q : A -> World -> Prop) :
  Q a w -> returns (ret a) w Q.
Proof. intros H; exists a, w; split; [reflexivity | assumption]. Qed.

Lemma returns_bind {A B : Type} (m : M A) (k : A -> M B) (w : World)
    (P : A -> World -> Prop) (Q : B -> World -> Prop) :
  returns m w P ->
  (forall a w1, P a w1 -> returns (k a) w1 Q) ->
  returns (bind m k) w Q.
Proof.
  intros (a & w1 & Hm & HP) Hk. destruct (Hk a w1 HP) as (b & w2 & Hb & HQ).
  exists b, w2. unfold bind. rewrite Hm. auto.
Qed.

Lemma returns_call {A B : Type} (f : World -> A * World) (k : A -> M B) (w : World)
    (Q : B -> World -> Prop) :
  (forall a w1, f w = (a, w1) -> returns (k a) w1 Q) ->
  returns (bind (call f) k) w Q.
Proof.
  intros Hk. destruct (f w) as [a w1] eqn:Hf.
  destruct (Hk a w1 eq_refl) as (b & w2 & Hb & HQ).
  exists b, w2. unfold bind, call. rewrite Hf. auto.
Qed.

Lemma returns_weaken {A : Type} (m : M A) (w : World) (P Q : A -> World -> Prop) :
  returns m w P -> (forall a w', P a w' -> Q a w') -> returns m w Q.
Proof. intros (a & w' & Hm & HP) H. exists a, w'. auto. Qed.

Lemma bind_inv {A B : Type} (m : M A) (k : A -> M B) (w : World) (r : B * World) :
  bind m k w = Some r -> exists a w1, m w = Some (a, w1) /\ k a w1 = Some r.
Proof.
  unfold bind. destruct (m w) as [[a w1]|]; [|discriminate].
  intros H; exists a, w1; auto.
Qed.

Lemma call_inv {A : Type} (f : World -> A * World) (w : World) (r : A * World) :
  call f w = Some r -> f w = r.
Proof. unfold call; congruence. Qed.

Lemma ret_inv {A : Type} (a : A) (w : World) (r : A * World) :
  ret a w = Some r -> r = (a, w).
Proof. unfold ret; congruence. Qed.

(** Take apart a hypothesis saying that a computation returned. *)
Ltac invM H :=
  repeat match type of H with
  | bind _ _ _ = Some _ =>
      let a := fresh "a" in let w := fresh "w" in let E := fresh "E" in
      apply bind_inv in H; destruct H as (a & w & E & H);
      try (apply call_inv in E); cbv beta in H
  | ret _ _ = Some _ => apply ret_inv in H
  | outOfFuel _ = Some _ => discriminate H
  | (match ?x with _ => _ end) _ = Some _ => destruct x eqn:?
  | (let (_, _) := ?x in _) _ = Some _ => destruct x eqn:?
  | (if ?b then _ else _) _ = Some _ => destruct b eqn:?
  end.

(** Step through a goal saying that a computation returns. *)
Ltac stepCall E :=
  apply returns_call; intros ? ? E; cbv beta.

(** *** Variables and constants *)

Lemma parseVariable_facts (w w1 : World) (v : Variable_) (ok : bool) :
  parseVariable w = ((v, ok), w1) ->
  left w1 <= left w /\
  (ok = true -> left w1 < left w \/ (left w = 0 /\ zeroType = TOKEN_IDENTIFIER)) /\
  (ok = false -> v = zeroVariable) /\
  (isToken TOKEN_KEYWORD "shadow" (peek w) = false ->
     ok = TokenType_eqb (tokenType (peek w)) TOKEN_IDENTIFIER /\
     (ok = true -> v = mkVariable TYPE_UNKNOWN (value (peek w)) false) /\
     (ok = false -> left w1 = left w /\ sameStream w w1)).
Proof.
  unfold parseVariable.
  destruct (expect TOKEN_KEYWORD "shadow" w) as [shadowing w0] eqn:E1.
  destruct (expectType TOKEN_IDENTIFIER w0) as [[name ok'] w2] eqn:E2.
  pose proof (expectType_spec _ _ E2) as (Hok & Hname & _).
  apply expect_facts in E1. apply expectType_facts in E2.
  destruct E1 as (L1 & T1 & F1). destruct E2 as (L2 & T2 & F2).
  intros H.
  assert (Hres : ok = ok' /\ w1 = w2 /\
                 v = if ok' then mkVariable TYPE_UNKNOWN name shadowing else zeroVariable)
    by (destruct ok'; inversion H; auto).
  clear H. destruct Hres as (-> & -> & Hv).
  split; [lia|]. split; [|split].
  - intros ->. destruct (T2 eq_refl) as (_ & _ & [Hlt | [Hz Hty]]); [left; lia|].
    destruct shadowing.
    + destruct (T1 eq_refl) as (_ & [Hlt | (_ & _ & Habs)]); [left; lia | discriminate].
    + destruct (F1 eq_refl) as (_ & Heq & _). right. split; [lia | auto].
  - intros ->. assumption.
  - intros Hsh. destruct shadowing.
    + destruct (T1 eq_refl) as [Habs _]. congruence.
    + destruct (F1 eq_refl) as (_ & Heq & Hs).
      rewrite (sameStream_peek Hs) in Hok, Hname.
      split; [assumption|]. split.
      * intros ->. rewrite Hv, Hname. reflexivity.
      * intros ->. destruct (F2 eq_refl) as (_ & Heq2 & Hs2).
        split; [lia | eapply sameStream_trans; eauto].
Qed.

Lemma parseConstant_facts (w w1 : World) (k : Constant) (ok : bool) :
  parseConstant w = ((k, ok), w1) ->
  left w1 <= left w /\
  (ok = true -> left w1 < left w \/ (left w = 0 /\ zeroType = TOKEN_CONSTANT)) /\
  ok = TokenType_eqb (tokenType (peek w)) TOKEN_CONSTANT /\
  (ok = true -> k = mkConstant (getConstType (value (peek w))) (value (peek w))) /\
  (ok = false -> k = zeroConstant /\ left w1 = left w /\ sameStream w w1).
Proof.
  unfold parseConstant.
  destruct (expectType TOKEN_CONSTANT w) as [[text ok'] w2] eqn:E.
  pose proof (expectType_spec _ _ E) as (Hok & Htext & _).
  apply expectType_facts in E. destruct E as (L & T & F).
  intros H.
  assert (Hres : ok = ok' /\ w1 = w2 /\
                 k = if ok' then mkConstant (getConstType text) text else zeroConstant)
    by (destruct ok'; inversion H; auto).
  clear H. destruct Hres as (-> & -> & Hk).
  split; [lia|]. split; [|split; [assumption|split]].
  - intros ->. destruct (T eq_refl) as (_ & _ & [Hlt | [Hz Hty]]); [left | right]; auto.
  - intros ->. rewrite Hk, Htext. reflexivity.
  - intros ->. destruct (F eq_refl) as (_ & Heq & Hs). auto.
Qed.

Tactic Notation "stepCall" simple_intropattern(a) ident(w) ident(E) :=
  apply returns_call; intros a w E; cbv beta iota.

(** *** Expressions return *)

Section ExpressionBody.

Variable rec : M ExprResult.
Variable w : World.
Hypothesis Hrec : forall w1, left w1 < left w -> returns rec w1 (exprPost w1).

Lemma parseUnaryExpression_returns (w0 : World) :
  left w0 <= left w ->
  returns (parseUnaryExpression rec) w0
    (fun r w' => left w' <= left w0 /\ (snd r = None -> left w' < left w0)).
Proof.
  intros Hw0. unfold parseUnaryExpression.
  stepCall minus w1 E1. apply expect_facts in E1. destruct E1 as (L1 & T1 & F1).
  destruct minus.
  - destruct (T1 eq_refl) as (_ & [Hlt | (_ & _ & Habs)]); [|discriminate].
    eapply returns_bind; [apply Hrec; lia|].
    intros [e perr] w2 [Hle _]; cbv beta iota.
    destruct perr; apply returns_ret; simpl; split; try lia; discriminate.
  - destruct (F1 eq_refl) as (_ & Heq1 & _).
    stepCall bang w2 E2. apply expect_facts in E2. destruct E2 as (L2 & T2 & F2).
    destruct bang.
    + destruct (T2 eq_refl) as (_ & [Hlt | (_ & _ & Habs)]); [|discriminate].
      eapply returns_bind; [apply Hrec; lia|].
      intros [e perr] w3 [Hle _]; cbv beta iota.
      destruct perr; apply returns_ret; simpl; split; try lia; discriminate.
    + apply returns_ret; simpl; split; [lia | discriminate].
Qed.

Lemma parseSimpleExpression_returns (w0 : World) :
  left w0 <= left w ->
  returns (parseSimpleExpression rec) w0 (exprPost w0).
Proof.
  intros Hw0. unfold parseSimpleExpression, exprPost.
  stepCall [tmpV ok] w1 E1. apply parseVariable_facts in E1.
  destruct E1 as (L1 & T1 & _).
  destruct ok.
  { apply returns_ret; simpl. split; [lia|]. intros _.
    destruct (T1 eq_refl) as [Hlt | [Hz Hty]]; auto. }
  stepCall [tmpC ok] w2 E2. apply parseConstant_facts in E2.
  destruct E2 as (L2 & T2 & _).
  destruct ok.
  { apply returns_ret; simpl. split; [lia|]. intros _.
    destruct (T2 eq_refl) as [Hlt | [Hz Hty]]; [left; lia|].
    destruct (Nat.eq_dec (left w0) 0); [right; auto | left; lia]. }
  stepCall open w3 E3. apply expect_facts in E3. destruct E3 as (L3 & T3 & _).
  destruct open.
  - destruct (T3 eq_refl) as (_ & [Hlt | (_ & _ & Habs)]); [|discriminate].
    eapply returns_bind; [apply Hrec; lia|].
    intros [e perr] w4 [Hle _]; cbv beta iota.
    destruct perr.
    + apply returns_ret; simpl; split; [lia | discriminate].
    + stepCall close w5 E5. apply expect_facts in E5. destruct E5 as (L5 & _ & _).
      destruct close; apply returns_ret; simpl; split; try lia; discriminate.
  - apply returns_ret; simpl; split; [lia | discriminate].
Qed.

Lemma parseExpression_binop_returns (w0 : World) (e : Expression) :
  left w0 <= left w ->
  (left w0 < left w \/
   (left w = 0 /\ (zeroType = TOKEN_IDENTIFIER \/ zeroType = TOKEN_CONSTANT))) ->
  returns (parseExpression_binop rec e) w0 (exprPost w).
Proof.
  intros Hle Hprog. unfold parseExpression_binop, exprPost.
  stepCall [t ok] w1 E1. apply expectType_facts in E1. destruct E1 as (L1 & T1 & _).
  destruct ok.
  - assert (Hlt : left w1 < left w).
    { destruct (T1 eq_refl) as (_ & _ & [H1 | [Hz Hty]]); [lia|].
      destruct Hprog as [H0 | [_ [Hi | Hc]]]; [lia | congruence | congruence]. }
    eapply returns_bind; [apply Hrec; assumption|].
    intros [rhs perr] w2 [Hle2 _]; cbv beta iota.
    destruct perr; apply returns_ret; simpl; split; try lia; discriminate.
  - apply returns_ret; simpl. split; [lia|]. intros _.
    destruct Hprog as [H0 | H0]; [left; lia | right; assumption].
Qed.

Lemma parseExpression_body_returns :
  returns (parseExpression_body rec) w (exprPost w).
Proof.
  unfold parseExpression_body.
  eapply returns_bind; [apply (parseUnaryExpression_returns w); lia|].
  intros [unaryExpression perr] w1 [L1 S1]; cbv beta iota. simpl in S1.
  destruct perr as [pe|].
  - eapply returns_bind; [apply (parseSimpleExpression_returns w1); lia|].
    intros [simpleExpression perr] w2 [L2 S2]; cbv beta iota. simpl in S2.
    destruct perr as [pe2|].
    + apply returns_ret; simpl; split; [lia | discriminate].
    + apply parseExpression_binop_returns; [lia|].
      destruct (S2 eq_refl) as [Hlt | [Hz Hty]]; [left; lia|].
      destruct (Nat.eq_dec (left w) 0); [right; auto | left; lia].
  - apply parseExpression_binop_returns; [lia|]. left. apply S1. reflexivity.
Qed.

End ExpressionBody.

Lemma parseExpression_returns (fuel : nat) : forall w : World,
  left w < fuel -> returns (parseExpression fuel) w (exprPost w).
Proof.
  induction fuel as [|n IH]; intros w Hw; [lia|].
  simpl. apply parseExpression_body_returns.
  intros w1 H1. apply IH. lia.
Qed.

(** *** Statements return *)

Ltac solvePost :=
  apply returns_ret; unfold stmtPost, blockPost; simpl;
  repeat split; try lia; try discriminate;
  try (let e := fresh "e" in let He := fresh "He" in
       intros e He; inversion He; subst; reflexivity).

Lemma parseVarList_loop_returns (fuel : nat) :
  forall (vars : list Variable_) (w : World),
  left w < fuel ->
  returns (parseVarList_loop fuel vars) w (fun _ w' => left w' <= left w).
Proof.
  induction fuel as [|n IH]; intros vars w Hw; [lia|].
  simpl. stepCall [v ok] w1 E1. apply parseVariable_facts in E1. destruct E1 as (L1 & _).
  destruct ok; cbn [negb]; [|apply returns_ret; lia].
  stepCall sep w2 E2. apply expect_facts in E2. destruct E2 as (L2 & T2 & _).
  destruct sep; cbn [negb]; [|apply returns_ret; lia].
  destruct (T2 eq_refl) as (_ & [Hlt | (_ & _ & Habs)]); [|discriminate].
  eapply returns_weaken; [apply IH; lia|]. intros ? w' H; simpl in H; lia.
Qed.

Lemma parseExpressionList_loop_returns (pe : M ExprResult) (fuel : nat) :
  forall (i : nat) (es : list Expression) (w : World),
  left w < fuel ->
  (forall w1, left w1 <= left w -> returns pe w1 (exprPost w1)) ->
  returns (parseExpressionList_loop pe fuel i es) w (fun _ w' => left w' <= left w).
Proof.
  induction fuel as [|n IH]; intros i es w Hw Hpe; [lia|].
  simpl. eapply returns_bind; [apply Hpe; lia|].
  intros [e perr] w1 [L1 _]; cbv beta iota in *.
  destruct perr.
  { destruct (Nat.eqb i 0); apply returns_ret; lia. }
  stepCall sep w2 E2. apply expect_facts in E2. destruct E2 as (L2 & T2 & _).
  destruct sep; cbn [negb]; [|apply returns_ret; lia].
  destruct (T2 eq_refl) as (_ & [Hlt | (_ & _ & Habs)]); [|discriminate].
  eapply returns_weaken; [apply IH; [lia|]|].
  - intros w3 H3. apply Hpe. lia.
  - intros ? w' H; simpl in H; lia.
Qed.

Lemma parseExpressionList_returns (fuel : nat) (w : World) :
  left w < fuel ->
  returns (parseExpressionList fuel) w (fun _ w' => left w' <= left w).
Proof.
  intros Hw. unfold parseExpressionList.
  apply parseExpressionList_loop_returns; [assumption|].
  intros w1 H1. apply parseExpression_returns. lia.
Qed.

Lemma parseAssignment_returns (fuel : nat) (w : World) :
  left w < fuel -> returns (parseAssignment fuel) w (stmtPost w).
Proof.
  intros Hw. unfold parseAssignment.
  eapply returns_bind; [apply parseVarList_loop_returns; eassumption|].
  intros vars w1 L1; cbv beta in *.
  destruct (Nat.eqb (length vars) 0); [solvePost|].
  stepCall eq w2 E2. apply expect_facts in E2. destruct E2 as (L2 & T2 & _).
  destruct eq; cbn [negb]; [|solvePost].
  destruct (T2 eq_refl) as (_ & [Hlt | (_ & _ & Habs)]); [|discriminate].
  eapply returns_bind; [apply parseExpressionList_returns; lia|].
  intros [es perr] w3 L3; cbv beta iota in *.
  destruct perr; solvePost.
Qed.

Section StatementBody.

Variable rec : M BlockResult.
Variable w : World.
Hypothesis Hrec : forall w1, left w1 < left w -> returns rec w1 (blockPost w1).

Lemma parseCondition_returns (fuel : nat) :
  left w < fuel -> returns (parseCondition fuel rec) w (stmtPost w).
Proof.
  intros Hw. unfold parseCondition.
  stepCall kw w1 E1. apply expect_facts in E1. destruct E1 as (L1 & T1 & _).
  destruct kw; cbn [negb]; [|solvePost].
  destruct (T1 eq_refl) as (_ & [Hlt | (_ & _ & Habs)]); [|discriminate].
  eapply returns_bind; [apply parseExpression_returns; lia|].
  intros [e perr] w2 [L2 _]; cbv beta iota in *.
  destruct perr; [solvePost|].
  stepCall open w3 E3. apply expect_facts in E3. destruct E3 as (L3 & _ & _).
  destruct open; cbn [negb]; [|solvePost].
  eapply returns_bind; [apply Hrec; lia|].
  intros [stmts perr] w4 [L4 N4]; cbv beta iota in *. simpl in N4; subst perr.
  stepCall close w5 E5. apply expect_facts in E5. destruct E5 as (L5 & _ & _).
  destruct close; cbn [negb]; [|solvePost].
  cbv zeta.
  stepCall els w6 E6. apply expect_facts in E6. destruct E6 as (L6 & _ & _).
  destruct els; [|solvePost].
  stepCall open2 w7 E7. apply expect_facts in E7. destruct E7 as (L7 & _ & _).
  destruct open2; cbn [negb]; [|solvePost].
  eapply returns_bind; [apply Hrec; lia|].
  intros [estmts perr] w8 [L8 N8]; cbv beta iota in *. simpl in N8; subst perr.
  stepCall close2 w9 E9. apply expect_facts in E9. destruct E9 as (L9 & _ & _).
  destruct close2; cbn [negb]; solvePost.
Qed.

Lemma parseLoop_returns (fuel : nat) :
  left w < fuel -> returns (parseLoop fuel rec) w (stmtPost w).
Proof.
  intros Hw. unfold parseLoop.
  stepCall kw w1 E1. apply expect_facts in E1. destruct E1 as (L1 & T1 & _).
  destruct kw; cbn [negb]; [|solvePost].
  destruct (T1 eq_refl) as (_ & [Hlt | (_ & _ & Habs)]); [|discriminate].
  eapply returns_bind; [apply parseAssignment_returns; lia|].
  intros [a aerr] w2 (L2 & _ & _); cbv beta iota in *.
  stepCall semi w3 E3. apply expect_facts in E3. destruct E3 as (L3 & _ & _).
  destruct semi; cbn [negb]; [|solvePost].
  eapply returns_bind; [apply parseExpressionList_returns; lia|].
  intros [es perr] w4 L4; cbv beta iota in *.
  destruct perr; [solvePost|].
  stepCall semi2 w5 E5. apply expect_facts in E5. destruct E5 as (L5 & _ & _).
  destruct semi2; cbn [negb]; [|solvePost].
  eapply returns_bind; [apply parseAssignment_returns; lia|].
  intros [ia iaerr] w6 (L6 & _ & _); cbv beta iota in *.
  stepCall open w7 E7. apply expect_facts in E7. destruct E7 as (L7 & _ & _).
  destruct open; cbn [negb]; [|solvePost].
  eapply returns_bind; [apply Hrec; lia|].
  intros [stmts perr] w8 [L8 N8]; cbv beta iota in *. simpl in N8; subst perr.
  stepCall close w9 E9. apply expect_facts in E9. destruct E9 as (L9 & _ & _).
  destruct close; cbn [negb]; solvePost.
Qed.

End StatementBody.

Lemma parseStatementList_loop_returns
    (pc : M (Condition * option error)) (pl : M (Loop * option error))
    (pa : M (Assignment * option error)) (fuel : nat) :
  forall (b : Block) (w : World),
  left w < fuel ->
  (forall w1, left w1 <= left w -> returns pc w1 (stmtPost w1)) ->
  (forall w1, left w1 <= left w -> returns pl w1 (stmtPost w1)) ->
  (forall w1, left w1 <= left w -> returns pa w1 (stmtPost w1)) ->
  returns (parseStatementList_loop pc pl pa fuel b) w (blockPost w).
Proof.
  induction fuel as [|n IH]; intros b w Hw Hpc Hpl Hpa; [lia|].
  assert (Hcont : forall b' w1, left w1 < left w ->
            returns (parseStatementList_loop pc pl pa n b') w1 (blockPost w)).
  { intros b' w1 H1. eapply returns_weaken.
    - apply IH; [lia | | |]; intros w2 H2; [apply Hpc | apply Hpl | apply Hpa]; lia.
    - intros r w' [Hle Hn]. split; [lia | assumption]. }
  simpl. eapply returns_bind; [apply Hpc; lia|].
  intros [ifStatement perr] w1 (L1 & S1 & C1); cbv beta iota in *. simpl in S1, C1.
  destruct perr as [e1|]; [|apply Hcont; auto].
  rewrite (C1 e1 eq_refl).
  eapply returns_bind; [apply Hpl; lia|].
  intros [loopStatement perr] w2 (L2 & S2 & C2); cbv beta iota in *. simpl in S2, C2.
  destruct perr as [e2|]; [|apply Hcont; specialize (S2 eq_refl); lia].
  rewrite (C2 e2 eq_refl).
  eapply returns_bind; [apply Hpa; lia|].
  intros [asg perr] w3 (L3 & S3 & C3); cbv beta iota in *. simpl in S3, C3.
  destruct perr as [e3|]; [|apply Hcont; specialize (S3 eq_refl); lia].
  rewrite (C3 e3 eq_refl).
  apply returns_ret. split; [lia | reflexivity].
Qed.

Lemma parseStatementList_returns (fuel : nat) : forall w : World,
  left w < fuel -> returns (parseStatementList fuel) w (blockPost w).
Proof.
  induction fuel as [|n IH]; intros w Hw; [lia|].
  cbn [parseStatementList]. cbv zeta.
  apply parseStatementList_loop_returns; [assumption | | |]; intros w1 H1.
  - apply parseCondition_returns; [|lia]. intros w2 H2. apply IH. lia.
  - apply parseLoop_returns; [|lia]. intros w2 H2. apply IH. lia.
  - apply parseAssignment_returns. lia.
Qed.

(* ================================================================= *)
(** ** More fuel never changes a result *)

Lemma extends_refl {A : Type} (m : M A) : extends m m.
Proof. intros w r H; exact H. Qed.

Lemma extends_outOfFuel {A : Type} (m : M A) : extends outOfFuel m.
Proof. intros w r H; discriminate H. Qed.

Lemma extends_bind {A B : Type} (m1 m2 : M A) (k1 k2 : A -> M B) :
  extends m1 m2 -> (forall a, extends (k1 a) (k2 a)) ->
  extends (bind m1 k1) (bind m2 k2).
Proof.
  intros Hm Hk w r H. apply bind_inv in H. destruct H as (a & w1 & E & H).
  unfold bind. rewrite (Hm _ _ E). apply Hk, H.
Qed.

Ltac ext :=
  repeat first
    [ assumption
    | apply extends_refl
    | apply extends_outOfFuel
    | progress cbv zeta
    | solve [auto 2]
    | apply extends_bind; [|intros ?]
    | match goal with
      | |- extends (match ?x with _ => _ end) _ => destruct x
      | |- extends (if ?b then _ else _) _ => destruct b
      end ].

Lemma parseExpression_body_ext (r1 r2 : M ExprResult) :
  extends r1 r2 -> extends (parseExpression_body r1) (parseExpression_body r2).
Proof.
  intros H.
  unfold parseExpression_body, parseUnaryExpression, parseSimpleExpression,
    parseExpression_binop.
  ext.
Qed.

Lemma parseExpression_mono (n m : nat) :
  n <= m -> extends (parseExpression n) (parseExpression m).
Proof.
  revert m. induction n as [|n IH]; intros m Hnm; [apply extends_outOfFuel|].
  destruct m as [|m]; [lia|]. simpl.
  apply parseExpression_body_ext, IH. lia.
Qed.

Lemma parseVarList_loop_mono (n : nat) : forall (m : nat) (vars : list Variable_),
  n <= m -> extends (parseVarList_loop n vars) (parseVarList_loop m vars).
Proof.
  induction n as [|n IH]; intros m vars Hnm; [apply extends_outOfFuel|].
  destruct m as [|m]; [lia|]. simpl.
  assert (forall vs, extends (parseVarList_loop n vs) (parseVarList_loop m vs))
    by (intros; apply IH; lia).
  ext.
Qed.

Lemma parseExpressionList_loop_mono (pe pe' : M ExprResult) (n : nat) :
  forall (m i : nat) (es : list Expression),
  extends pe pe' -> n <= m ->
  extends (parseExpressionList_loop pe n i es) (parseExpressionList_loop pe' m i es).
Proof.
  induction n as [|n IH]; intros m i es Hpe Hnm; [apply extends_outOfFuel|].
  destruct m as [|m]; [lia|]. simpl.
  assert (forall j xs, extends (parseExpressionList_loop pe n j xs)
                               (parseExpressionList_loop pe' m j xs))
    by (intros; apply IH; [assumption | lia]).
  ext.
Qed.

Lemma parseExpressionList_mono (n m : nat) :
  n <= m -> extends (parseExpressionList n) (parseExpressionList m).
Proof.
  intros H. apply parseExpressionList_loop_mono; [apply parseExpression_mono|]; assumption.
Qed.

Lemma parseAssignment_mono (n m : nat) :
  n <= m -> extends (parseAssignment n) (parseAssignment m).
Proof.
  intros H. unfold parseAssignment, parseVarList.
  pose proof (parseVarList_loop_mono [] H).
  pose proof (parseExpressionList_mono H).
  ext.
Qed.

Lemma parseCondition_mono (n m : nat) (r1 r2 : M BlockResult) :
  n <= m -> extends r1 r2 -> extends (parseCondition n r1) (parseCondition m r2).
Proof.
  intros H Hr. unfold parseCondition.
  pose proof (parseExpression_mono H).
  ext.
Qed.

Lemma parseLoop_mono (n m : nat) (r1 r2 : M BlockResult) :
  n <= m -> extends r1 r2 -> extends (parseLoop n r1) (parseLoop m r2).
Proof.
  intros H Hr. unfold parseLoop.
  pose proof (parseAssignment_mono H).
  pose proof (parseExpressionList_mono H).
  ext.
Qed.

Lemma parseStatementList_loop_mono
    (pc pc' : M (Condition * option error)) (pl pl' : M (Loop * option error))
    (pa pa' : M (Assignment * option error)) (n : nat) :
  forall (m : nat) (b : Block),
  extends pc pc' -> extends pl pl' -> extends pa pa' -> n <= m ->
  extends (parseStatementList_loop pc pl pa n b) (parseStatementList_loop pc' pl' pa' m b).
Proof.
  induction n as [|n IH]; intros m b Hpc Hpl Hpa Hnm; [apply extends_outOfFuel|].
  destruct m as [|m]; [lia|]. simpl.
  assert (forall b', extends (parseStatementList_loop pc pl pa n b')
                             (parseStatementList_loop pc' pl' pa' m b'))
    by (intros; apply IH; auto; lia).
  ext.
Qed.

Lemma parseStatementList_mono (n : nat) : forall m : nat,
  n <= m -> extends (parseStatementList n) (parseStatementList m).
Proof.
  induction n as [|n IH]; intros m Hnm; [apply extends_outOfFuel|].
  destruct m as [|m]; [lia|]. cbn [parseStatementList]. cbv zeta.
  assert (extends (parseStatementList n) (parseStatementList m)) by (apply IH; lia).
  apply parseStatementList_loop_mono; [| | |lia].
  - apply parseCondition_mono; [lia | assumption].
  - apply parseLoop_mono; [lia | assumption].
  - apply parseAssignment_mono; lia.
Qed.

(* ================================================================= *)
(** ** The errors of the productions *)

Ltac freshGoal :=
  match goal with
  | H : _ = (_, _) |- _ => inversion H; subst; clear H
  end;
  try (let e := fresh "e" in let He := fresh "He" in
       intros e He; inversion He; subst; eexists; reflexivity).

Lemma freshError_not_critical (err : option error) :
  freshError err -> forall e, err = Some e -> errors_Is e ErrCritical = false.
Proof. intros H e He. destruct (H e He) as [text ->]. reflexivity. Qed.

Lemma parseExpression_fresh (fuel : nat) (w w' : World) (x : Expression)
    (err : option error) :
  parseExpression fuel w = Some ((x, err), w') -> freshError err.
Proof.
  destruct fuel as [|n]; [discriminate|]. simpl.
  unfold parseExpression_body, parseUnaryExpression, parseSimpleExpression,
    parseExpression_binop.
  intros H. invM H; freshGoal.
Qed.

Lemma parseExpressionList_loop_fresh (pe : M ExprResult) (fuel : nat) :
  forall (i : nat) (es : list Expression) (w w' : World) (xs : list Expression)
         (err : option error),
  parseExpressionList_loop pe fuel i es w = Some ((xs, err), w') -> freshError err.
Proof.
  induction fuel as [|n IH]; intros i es w w' xs err H; [discriminate|].
  simpl in H. invM H; try freshGoal.
  eapply IH; eassumption.
Qed.

Lemma parseAssignment_fresh (fuel : nat) (w w' : World) (a : Assignment)
    (err : option error) :
  parseAssignment fuel w = Some ((a, err), w') -> freshError err.
Proof.
  unfold parseAssignment. intros H. invM H; freshGoal.
Qed.

Section StatementErrors.

Variable rec : M BlockResult.
Hypothesis Hrec : forall w b e w', rec w = Some ((b, Some e), w') -> False.

Lemma parseCondition_fresh (fuel : nat) (w w' : World) (x : Condition)
    (err : option error) :
  parseCondition fuel rec w = Some ((x, err), w') -> freshError err.
Proof.
  unfold parseCondition. intros H.
  invM H;
    try match goal with
        | E : rec _ = Some (_, Some _, _) |- _ => exfalso; exact (Hrec E)
        end; freshGoal.
Qed.

Lemma parseLoop_fresh (fuel : nat) (w w' : World) (x : Loop) (err : option error) :
  parseLoop fuel rec w = Some ((x, err), w') -> freshError err.
Proof.
  unfold parseLoop. intros H.
  invM H;
    try match goal with
        | E : rec _ = Some (_, Some _, _) |- _ => exfalso; exact (Hrec E)
        end; freshGoal.
Qed.

End StatementErrors.

Lemma parseStatementList_loop_no_error
    (pc : M (Condition * option error)) (pl : M (Loop * option error))
    (pa : M (Assignment * option error)) :
  (forall w x err w', pc w = Some ((x, err), w') -> freshError err) ->
  (forall w x err w', pl w = Some ((x, err), w') -> freshError err) ->
  (forall w x err w', pa w = Some ((x, err), w') -> freshError err) ->
  forall (fuel : nat) (b : Block) (w w' : World) (b' : Block) (err : option error),
  parseStatementList_loop pc pl pa fuel b w = Some ((b', err), w') -> err = None.
Proof.
  intros Hpc Hpl Hpa.
  induction fuel as [|n IH]; intros b w w' b' err H; [discriminate|].
  simpl in H. invM H;
    try (eapply IH; eassumption);
    try (inversion H; reflexivity);
    exfalso;
    match goal with
    | E : pc _ = Some (_, Some ?e, _), C : errors_Is ?e ErrCritical = true |- _ =>
        rewrite (freshError_not_critical (Hpc _ _ _ _ E) eq_refl) in C; discriminate C
    | E : pl _ = Some (_, Some ?e, _), C : errors_Is ?e ErrCritical = true |- _ =>
        rewrite (freshError_not_critical (Hpl _ _ _ _ E) eq_refl) in C; discriminate C
    | E : pa _ = Some (_, Some ?e, _), C : errors_Is ?e ErrCritical = true |- _ =>
        rewrite (freshError_not_critical (Hpa _ _ _ _ E) eq_refl) in C; discriminate C
    end.
Qed.

Lemma parseStatementList_no_error (fuel : nat) :
  forall (w w' : World) (b : Block) (err : option error),
  parseStatementList fuel w = Some ((b, err), w') -> err = None.
Proof.
  induction fuel as [|n IH]; intros w w' b err H; [discriminate|].
  cbn [parseStatementList] in H. cbv zeta in H.
  assert (Hrec : forall w b e w', parseStatementList n w = Some ((b, Some e), w') -> False).
  { intros w0 b0 e0 w0' H0. apply IH in H0. discriminate. }
  eapply parseStatementList_loop_no_error; [| | |exact H].
  - intros ? ? ? ?. apply parseCondition_fresh. exact Hrec.
  - intros ? ? ? ?. apply parseLoop_fresh. exact Hrec.
  - intros ? ? ? ?. apply parseAssignment_fresh.
Qed.

(* ================================================================= *)
(** ** A production that fails on the first token it reads *)

Lemma not_beginsExpression (t : Token) :
  beginsExpression t = false ->
  isToken TOKEN_OPERATOR "-" t = false /\
  isToken TOKEN_OPERATOR "!" t = false /\
  isToken TOKEN_KEYWORD "shadow" t = false /\
  TokenType_eqb (tokenType t) TOKEN_IDENTIFIER = false /\
  TokenType_eqb (tokenType t) TOKEN_CONSTANT = false /\
  isToken TOKEN_PARENTHESIS_OPEN "(" t = false.
Proof.
  unfold beginsExpression, isToken. destruct t as [ty v]. simpl.
  destruct ty; simpl; intros H; try discriminate H;
    try (apply orb_false_elim in H; destruct H as [H1 H2]);
    repeat split; auto.
Qed.

Lemma not_beginsVariable (t : Token) :
  beginsVariable t = false ->
  isToken TOKEN_KEYWORD "shadow" t = false /\
  TokenType_eqb (tokenType t) TOKEN_IDENTIFIER = false.
Proof.
  unfold beginsVariable. intros H. apply orb_false_elim in H. tauto.
Qed.

(** A failed [expect] leaves the next token in place for the next attempt. *)
Ltac failExpect E w1 Hs :=
  let L := fresh "L" in let T := fresh "T" in let F := fresh "F" in
  let Hp := fresh "Hp" in
  apply expect_facts in E; destruct E as (L & T & F);
  match type of T with
  | ?b = true -> _ =>
      destruct b;
      [ destruct (T eq_refl) as [Hp _]; congruence
      | destruct (F eq_refl) as (_ & _ & Hs); clear L T F ]
  end.

Lemma parseExpression_first_token (n : nat) (w : World) :
  beginsExpression (peek w) = false ->
  returns (parseExpression (S n)) w
    (fun r w' => fst r = nilExpression /\ snd r <> None /\ sameStream w w').
Proof.
  intros Hb. apply not_beginsExpression in Hb.
  destruct Hb as (Hminus & Hbang & Hshadow & Hident & Hconst & Hopen).
  simpl. unfold parseExpression_body, parseUnaryExpression, parseSimpleExpression.
  eapply returns_bind with
    (P := fun r w1 => snd r <> None /\ sameStream w w1).
  - stepCall minus w1 E1. failExpect E1 w1 S1.
    rewrite <- (sameStream_peek S1) in Hbang.
    stepCall bang w2 E2. failExpect E2 w2 S2.
    apply returns_ret. simpl. split; [discriminate|].
    eapply sameStream_trans; eassumption.
  - intros [u perr] w2 [Hne S2]; cbv beta iota. simpl in Hne.
    destruct perr as [pe|]; [clear Hne | congruence].
    rewrite <- (sameStream_peek S2) in Hshadow, Hident, Hconst, Hopen.
    apply returns_bind with (P := fun r w6 => snd r <> None /\ sameStream w w6).
    + stepCall [tmpV ok] w3 E3. apply parseVariable_facts in E3.
      destruct E3 as (_ & _ & _ & F3). destruct (F3 Hshadow) as (Hok & _ & F3').
      rewrite Hident in Hok. subst ok. destruct (F3' eq_refl) as [_ S3].
      rewrite <- (sameStream_peek S3) in Hconst, Hopen.
      stepCall [tmpC ok] w4 E4. apply parseConstant_facts in E4.
      destruct E4 as (_ & _ & Hok & _ & F4).
      rewrite Hconst in Hok. subst ok. destruct (F4 eq_refl) as (_ & _ & S4).
      rewrite <- (sameStream_peek S4) in Hopen.
      stepCall open w5 E5. failExpect E5 w5 S5.
      apply returns_ret. simpl. split; [discriminate|].
      repeat (eapply sameStream_trans; [eassumption|]). apply sameStream_refl.
    + intros [s perr] w6 [Hne S6]; cbv beta iota. simpl in Hne.
      destruct perr; [|congruence].
      apply returns_ret. simpl. split; [reflexivity|]. split; [discriminate | assumption].
Qed.

Lemma parseAssignment_first_token (n : nat) (w : World) :
  beginsVariable (peek w) = false ->
  returns (parseAssignment (S n)) w
    (fun r w' => fst r = zeroAssignment /\ snd r <> None /\ sameStream w w').
Proof.
  intros Hb. apply not_beginsVariable in Hb. destruct Hb as [Hshadow Hident].
  unfold parseAssignment, parseVarList. simpl.
  apply returns_bind with (P := fun vars w1 => vars = [] /\ sameStream w w1).
  - stepCall [v ok] w1 E1. apply parseVariable_facts in E1.
    destruct E1 as (_ & _ & _ & F1). destruct (F1 Hshadow) as (Hok & _ & F1').
    rewrite Hident in Hok. subst ok. destruct (F1' eq_refl) as [_ S1].
    cbn [negb]. apply returns_ret. auto.
  - intros vars w1 [-> S1]. simpl.
    apply returns_ret. simpl. split; [reflexivity|]. split; [discriminate | assumption].
Qed.

Lemma parseCondition_first_token (fuel : nat) (rec : M BlockResult) (w : World) :
  isToken TOKEN_KEYWORD "if" (peek w) = false ->
  returns (parseCondition fuel rec) w
    (fun r w' => fst r = zeroCondition /\ snd r <> None /\ sameStream w w').
Proof.
  intros Hif. unfold parseCondition.
  stepCall kw w1 E1. failExpect E1 w1 S1. cbn [negb].
  apply returns_ret. simpl. split; [reflexivity|]. split; [discriminate | assumption].
Qed.

Lemma parseLoop_first_token (fuel : nat) (rec : M BlockResult) (w : World) :
  isToken TOKEN_KEYWORD "for" (peek w) = false ->
  returns (parseLoop fuel rec) w
    (fun r w' => fst r = zeroLoop /\ snd r <> None /\ sameStream w w').
Proof.
  intros Hfor. unfold parseLoop.
  stepCall kw w1 E1. failExpect E1 w1 S1. cbn [negb].
  apply returns_ret. simpl. split; [reflexivity|]. split; [discriminate | assumption].
Qed.

(* ================================================================= *)
(** ** Expression lists and assignments *)

Lemma parseAssignment_result (fuel : nat) (w w' : World) (a : Assignment)
    (err : option error) :
  parseAssignment fuel w = Some ((a, err), w') ->
  (err = None -> 1 <= length (variables a)) /\ (err <> None -> a = zeroAssignment).
Proof.
  unfold parseAssignment. intros H. invM H; inversion H; subst; clear H;
    (split; [intros; try discriminate | intros; try congruence]).
  simpl. match goal with
         | E : Nat.eqb (length ?l) 0 = false |- _ => destruct l; [discriminate E | simpl; lia]
         end.
Qed.


(* ================================================================= *)
(** ** Statement lists and [parse] *)

Lemma left_le_length (w : World) : left w <= length (pending (tokens w)).
Proof. unfold left. destruct (atEnd w); lia. Qed.

Lemma parseStatementList_total (fuel : nat) (w : World) :
  left w < fuel ->
  exists b w', parseStatementList fuel w = Some ((b, None), w').
Proof.
  intros Hw. destruct (@parseStatementList_returns fuel w Hw) as ([b err] & w' & H & _ & Hn).
  simpl in Hn; subst err. eauto.
Qed.

Lemma parse_total (fuel : nat) (toks : list Token) (out : list string) :
  length toks < fuel ->
  exists b w',
    parseStatementList fuel (mkWorld (mkTokenChannel toks false zeroToken) out)
      = Some ((b, None), w') /\
    parse fuel toks out = Some (mkAST b [], stdout w').
Proof.
  intros Hf.
  destruct (@parseStatementList_total fuel (mkWorld (mkTokenChannel toks false zeroToken) out))
    as (b & w' & H).
  - pose proof (left_le_length (mkWorld (mkTokenChannel toks false zeroToken) out)) as Hl.
    unfold pending in Hl; simpl in Hl. lia.
  - exists b, w'. split; [assumption|]. unfold parse. rewrite H. reflexivity.
Qed.

(** C9.  No production returns the critical error: every error of a production
    is a fresh [errors.New] value, for which [errors.Is(err, ErrCritical)] is
    false.  So [parseStatementList] never returns an error, and it returns for
    every token stream: the first statement that does not parse ends the
    block.  [parse] therefore always yields a tree; on [a = 1 } b = 2] the tree
    holds the first assignment only, and nothing tells that the rest was
    dropped.  More fuel never changes what [parseStatementList] returns. *)
Theorem parseStatementList_never_fails :
  (forall (fuel : nat) (w w' : World) (x : Expression) (e : error),
     parseExpression fuel w = Some ((x, Some e), w') -> errors_Is e ErrCritical = false) /\
  (forall (fuel : nat) (w w' : World) (xs : list Expression) (e : error),
     parseExpressionList fuel w = Some ((xs, Some e), w') ->
     errors_Is e ErrCritical = false) /\
  (forall (fuel : nat) (w w' : World) (a : Assignment) (e : error),
     parseAssignment fuel w = Some ((a, Some e), w') -> errors_Is e ErrCritical = false) /\
  (forall (fuel n : nat) (w w' : World) (x : Condition) (e : error),
     parseCondition fuel (parseStatementList n) w = Some ((x, Some e), w') ->
     errors_Is e ErrCritical = false) /\
  (forall (fuel n : nat) (w w' : World) (x : Loop) (e : error),
     parseLoop fuel (parseStatementList n) w = Some ((x, Some e), w') ->
     errors_Is e ErrCritical = false) /\
  (forall (fuel : nat) (w w' : World) (b : Block) (err : option error),
     parseStatementList fuel w = Some ((b, err), w') -> err = None) /\
  (forall (fuel : nat) (w : World),
     left w < fuel -> exists b w', parseStatementList fuel w = Some ((b, None), w')) /\
  (forall (fuel : nat) (toks : list Token) (out : list string),
     length toks < fuel ->
     exists b out', parse fuel toks out = Some (mkAST b [], out')) /\
  (forall (n m : nat) (w : World) (r : BlockResult * World),
     n <= m -> parseStatementList n w = Some r -> parseStatementList m w = Some r) /\
  parse 8 trailingGarbage []
  = Some (mkAST (mkBlock
                   [SAssignment
                      (mkAssignment [mkVariable TYPE_UNKNOWN "a" false]
                                    [EConstant (mkConstant TYPE_INT "1")])] [] []) [],
          []).
Proof.
  assert (Hrec : forall n w b e w', parseStatementList n w = Some ((b, Some e), w') -> False).
  { intros n w b e w' H. apply parseStatementList_no_error in H. discriminate. }
  split; [|split; [|split; [|split; [|split; [|split; [|split; [|split; [|split]]]]]]]].
  - intros fuel w w' x e H.
    exact (freshError_not_critical (@parseExpression_fresh fuel w w' x (Some e) H) eq_refl).
  - intros fuel w w' xs e H. unfold parseExpressionList in H.
    exact (freshError_not_critical
             (@parseExpressionList_loop_fresh _ fuel 0 [] w w' xs (Some e) H) eq_refl).
  - intros fuel w w' a e H.
    exact (freshError_not_critical (@parseAssignment_fresh fuel w w' a (Some e) H) eq_refl).
  - intros fuel n w w' x e H.
    exact (freshError_not_critical
             (@parseCondition_fresh (parseStatementList n) (Hrec n) fuel w w' x (Some e) H)
             eq_refl).
  - intros fuel n w w' x e H.
    exact (freshError_not_critical
             (@parseLoop_fresh (parseStatementList n) (Hrec n) fuel w w' x (Some e) H)
             eq_refl).
  - intros fuel w w' b err H. eapply parseStatementList_no_error; eassumption.
  - apply parseStatementList_total.
  - intros fuel toks out Hf.
    destruct (parse_total toks out Hf) as (b & w' & _ & H). eauto.
  - intros n m w r Hnm H. exact (parseStatementList_mono Hnm _ H).
  - vm_compute. reflexivity.
Qed.

(* ================================================================= *)
(** ** Chains of binary operators *)

Lemma peek_pending (w : World) (t : Token) (l : list Token) :
  pending (tokens w) = t :: l -> peek w = t.
Proof. unfold peek, stream. intros ->. reflexivity. Qed.

Lemma expect_miss (ttype : TokenType) (val : string) (w : World) (t : Token)
    (l : list Token) :
  pending (tokens w) = t :: l -> isToken ttype val t = false ->
  exists w1, expect ttype val w = (false, w1) /\ pending (tokens w1) = t :: l.
Proof.
  intros Hp Ht. destruct (expect ttype val w) as [b w1] eqn:E.
  destruct (expect_spec _ _ _ E) as [Hb Hq].
  rewrite (peek_pending _ Hp), Ht in Hb. subst b.
  rewrite (peek_pending _ Hp), Hp in Hq. eauto.
Qed.

Lemma expect_hit (ttype : TokenType) (val : string) (w : World) (l : list Token) :
  pending (tokens w) = mkToken ttype val :: l ->
  exists w1, expect ttype val w = (true, w1) /\ pending (tokens w1) = l.
Proof.
  intros Hp. destruct (expect ttype val w) as [b w1] eqn:E.
  destruct (expect_spec _ _ _ E) as [Hb Hq].
  rewrite (peek_pending _ Hp) in Hb. unfold isToken, TokenType_eqb in Hb. simpl in Hb.
  destruct (TokenType_eq_dec ttype ttype); [|congruence].
  rewrite String.eqb_refl in Hb. subst b. rewrite Hp in Hq. eauto.
Qed.

Lemma expectType_miss (ttype : TokenType) (w : World) (t : Token) (l : list Token) :
  pending (tokens w) = t :: l -> tokenType t <> ttype ->
  exists w1, expectType ttype w = ((EmptyString, false), w1) /\
             pending (tokens w1) = t :: l.
Proof.
  intros Hp Ht. destruct (expectType ttype w) as [[v ok] w1] eqn:E.
  destruct (expectType_spec _ _ E) as (Hok & Hv & Hq).
  rewrite (peek_pending _ Hp) in Hok. unfold TokenType_eqb in Hok.
  destruct (TokenType_eq_dec (tokenType t) ttype); [congruence|]. subst ok. subst v.
  rewrite (peek_pending _ Hp), Hp in Hq. eauto.
Qed.

Lemma expectType_hit (ttype : TokenType) (val : string) (w : World) (l : list Token) :
  pending (tokens w) = mkToken ttype val :: l ->
  exists w1, expectType ttype w = ((val, true), w1) /\ pending (tokens w1) = l.
Proof.
  intros Hp. destruct (expectType ttype w) as [[v ok] w1] eqn:E.
  destruct (expectType_spec _ _ E) as (Hok & Hv & Hq).
  rewrite (peek_pending _ Hp) in Hok, Hv. unfold TokenType_eqb in Hok. simpl in Hok, Hv.
  destruct (TokenType_eq_dec ttype ttype); [|congruence]. subst ok. subst v.
  rewrite Hp in Hq. eauto.
Qed.

Lemma operandTokens_head (o : Operand) :
  exists t l, operandTokens o = t :: l /\ tokenType t <> TOKEN_OPERATOR /\
              tokenType t <> TOKEN_PARENTHESIS_OPEN.
Proof.
  destruct o as [[|] name | text]; simpl; eexists; eexists; split;
    try reflexivity; simpl; split; discriminate.
Qed.

Lemma isToken_other_type (ttype : TokenType) (val : string) (t : Token) :
  tokenType t <> ttype -> isToken ttype val t = false.
Proof.
  intros H. unfold isToken, TokenType_eqb.
  destruct (TokenType_eq_dec (tokenType t) ttype); [congruence | reflexivity].
Qed.

(** Before an operand, [parseUnaryExpression] fails and consumes nothing. *)
Lemma parseUnaryExpression_operand (rec : M ExprResult) (o : Operand) (l : list Token)
    (w : World) :
  pending (tokens w) = operandTokens o ++ l ->
  exists e w1, parseUnaryExpression rec w = Some ((nilExpression, Some e), w1) /\
               pending (tokens w1) = operandTokens o ++ l.
Proof.
  intros Hp. destruct (operandTokens_head o) as (t & l0 & Ho & Ht & _).
  rewrite Ho in *. simpl in Hp.
  destruct (expect_miss TOKEN_OPERATOR "-" w Hp (isToken_other_type _ _ Ht))
    as (w1 & E1 & Hp1).
  destruct (expect_miss TOKEN_OPERATOR "!" w1 Hp1 (isToken_other_type _ _ Ht))
    as (w2 & E2 & Hp2).
  exists (errors_New "Invalid unary expression"), w2. split; [|assumption].
  unfold parseUnaryExpression, bind, call. rewrite E1, E2. reflexivity.
Qed.

(** [parseSimpleExpression] reads an operand. *)
Lemma parseSimpleExpression_operand (rec : M ExprResult) (o : Operand) (l : list Token)
    (w : World) :
  pending (tokens w) = operandTokens o ++ l ->
  exists w1, parseSimpleExpression rec w = Some ((operandExpression o, None), w1) /\
             pending (tokens w1) = l.
Proof.
  intros Hp. unfold parseSimpleExpression, parseVariable, parseConstant, bind, call.
  destruct o as [[|] name | text]; simpl in Hp.
  - destruct (expect_hit w Hp) as (w1 & E1 & Hp1). rewrite E1.
    destruct (expectType_hit w1 Hp1) as (w2 & E2 & Hp2). rewrite E2.
    exists w2. split; [reflexivity | assumption].
  - destruct (@expect_miss TOKEN_KEYWORD "shadow" w _ _ Hp) as (w1 & E1 & Hp1);
      [reflexivity|]. rewrite E1.
    destruct (expectType_hit w1 Hp1) as (w2 & E2 & Hp2). rewrite E2.
    exists w2. split; [reflexivity | assumption].
  - destruct (@expect_miss TOKEN_KEYWORD "shadow" w _ _ Hp) as (w1 & E1 & Hp1);
      [reflexivity|]. rewrite E1.
    destruct (@expectType_miss TOKEN_IDENTIFIER w1 _ _ Hp1) as (w2 & E2 & Hp2);
      [discriminate|]. rewrite E2.
    destruct (expectType_hit w2 Hp2) as (w3 & E3 & Hp3). rewrite E3.
    exists w3. split; [reflexivity | assumption].
Qed.

(** An operand that no operator follows is the whole expression. *)
Lemma parseExpression_operand (n : nat) (o : Operand) (rest : list Token) (w : World) :
  pending (tokens w) = operandTokens o ++ rest ->
  tokenType (nth 0 rest zeroToken) <> TOKEN_OPERATOR ->
  exists w', parseExpression (S n) w = Some ((operandExpression o, None), w') /\
             forall i, stream w' i = nth i rest zeroToken.
Proof.
  intros Hp Hrest. simpl. unfold parseExpression_body.
  destruct (parseUnaryExpression_operand (parseExpression n) o rest w Hp)
    as (e & w1 & E1 & Hp1).
  destruct (parseSimpleExpression_operand (parseExpression n) o rest w1 Hp1)
    as (w2 & E2 & Hp2).
  unfold bind at 1. rewrite E1. unfold bind at 1. rewrite E2.
  unfold parseExpression_binop.
  destruct (expectType TOKEN_OPERATOR w2) as [[v ok] w3] eqn:E3.
  pose proof (expectType_facts _ _ E3) as (_ & T3 & F3).
  assert (Hpeek : peek w2 = nth 0 rest zeroToken) by (unfold peek, stream; rewrite Hp2; auto).
  destruct ok.
  - destruct (T3 eq_refl) as [Habs _]. rewrite Hpeek in Habs. contradiction.
  - destruct (F3 eq_refl) as (_ & _ & Hs).
    exists w3. unfold bind, call. rewrite E3. split; [reflexivity|].
    intros i. rewrite (Hs i). unfold stream. rewrite Hp2. reflexivity.
Qed.

(** An operand followed by an operator token: everything after the operator
    is parsed as the right operand. *)
Lemma parseExpression_operand_operator (n : nat) (o : Operand) (op : string)
    (l : list Token) (w : World) :
  pending (tokens w) = operandTokens o ++ mkToken TOKEN_OPERATOR op :: l ->
  exists w1,
    pending (tokens w1) = l /\
    forall rhs w',
      parseExpression n w1 = Some ((rhs, None), w') ->
      parseExpression (S n) w
      = Some ((BinaryOp (getOperatorType op) (operandExpression o) rhs TYPE_UNKNOWN, None), w').
Proof.
  intros Hp. simpl. unfold parseExpression_body.
  destruct (parseUnaryExpression_operand (parseExpression n) o _ w Hp)
    as (e & w1 & E1 & Hp1).
  destruct (parseSimpleExpression_operand (parseExpression n) o _ w1 Hp1)
    as (w2 & E2 & Hp2).
  destruct (expectType_hit w2 Hp2) as (w3 & E3 & Hp3).
  exists w3. split; [assumption|]. intros rhs w' Hrhs.
  unfold bind at 1. rewrite E1. unfold bind at 1. rewrite E2.
  unfold parseExpression_binop, bind, call. rewrite E3, Hrhs. reflexivity.
Qed.

Lemma binaryOperators_getOperatorType (s : string) (op : Operator) :
  In (s, op) binaryOperators -> getOperatorType s = op.
Proof.
  unfold binaryOperators. simpl.
  intros H; repeat (destruct H as [H|H]; [inversion H; reflexivity|]); contradiction.
Qed.

(** C1.  The tokens [a OP1 b OP2 c], with operands written without
    parentheses and any two binary operators, not followed by a further
    operator token, parse to the right-nested tree [a OP1 (b OP2 c)],
    whatever the two operators are; what follows the chain stays in the
    stream. *)
Theorem binary_chain_nests_right (a b c : Operand) (s1 s2 : string) (op1 op2 : Operator)
    (rest : list Token) (w : World) (fuel : nat) :
  In (s1, op1) binaryOperators ->
  In (s2, op2) binaryOperators ->
  pending (tokens w)
  = operandTokens a ++ mkToken TOKEN_OPERATOR s1 ::
    operandTokens b ++ mkToken TOKEN_OPERATOR s2 ::
    operandTokens c ++ rest ->
  tokenType (nth 0 rest zeroToken) <> TOKEN_OPERATOR ->
  3 <= fuel ->
  exists w',
    parseExpression fuel w
    = Some ((BinaryOp op1 (operandExpression a)
               (BinaryOp op2 (operandExpression b) (operandExpression c) TYPE_UNKNOWN)
               TYPE_UNKNOWN, None), w') /\
    forall i, stream w' i = nth i rest zeroToken.
Proof.
  intros H1 H2 Hp Hrest Hfuel.
  destruct fuel as [|[|[|n]]]; try lia.
  apply binaryOperators_getOperatorType in H1, H2. subst op1 op2.
  destruct (parseExpression_operand_operator (S (S n)) a s1 _ w Hp) as (w1 & Hp1 & Ha).
  destruct (parseExpression_operand_operator (S n) b s2 _ w1 Hp1) as (w2 & Hp2 & Hb).
  destruct (parseExpression_operand n c rest w2 Hp2 Hrest) as (w3 & Hc & Hs).
  exists w3. split; [|assumption].
  apply Ha, Hb, Hc.
Qed.

(* ================================================================= *)
(** ** Only the token stream matters *)

Lemma nth_tl (l : list Token) (i : nat) :
  nth i (tl l) zeroToken = nth (S i) l zeroToken.
Proof. destruct l; simpl; [destruct i|]; reflexivity. Qed.

Lemma expect_stream (ttype : TokenType) (val : string) (w w' : World) (b : bool) :
  expect ttype val w = (b, w') ->
  b = isToken ttype val (peek w) /\
  forall i, stream w' i = stream w (if b then S i else i).
Proof.
  intros H. apply expect_spec in H. destruct H as [Hb Hp]. split; [assumption|].
  intros i. unfold stream at 1. rewrite Hp. destruct b.
  - apply nth_tl.
  - apply nth_unread.
Qed.

Lemma expectType_stream (ttype : TokenType) (w w' : World) (v : string) (ok : bool) :
  expectType ttype w = ((v, ok), w') ->
  ok = TokenType_eqb (tokenType (peek w)) ttype /\
  v = (if ok then value (peek w) else EmptyString) /\
  forall i, stream w' i = stream w (if ok then S i else i).
Proof.
  intros H. apply expectType_spec in H. destruct H as (Hb & Hv & Hp).
  split; [assumption|]. split; [assumption|].
  intros i. unfold stream at 1. rewrite Hp. destruct ok.
  - apply nth_tl.
  - apply nth_unread.
Qed.

Lemma respects_ret {A : Type} (a : A) : respects (ret a).
Proof. intros w1 w2 H. simpl. auto. Qed.

Lemma respects_outOfFuel {A : Type} : respects (@outOfFuel A).
Proof. intros w1 w2 H. exact I. Qed.

Lemma respects_bind {A B : Type} (m : M A) (k : A -> M B) :
  respects m -> (forall a, respects (k a)) -> respects (bind m k).
Proof.
  intros Hm Hk w1 w2 H. specialize (Hm w1 w2 H). unfold bind.
  destruct (m w1) as [[a1 w1']|], (m w2) as [[a2 w2']|]; try contradiction; [|exact I].
  destruct Hm as [<- Hs]. apply Hk, Hs.
Qed.

Lemma respects_expect (ttype : TokenType) (val : string) :
  respects (call (expect ttype val)).
Proof.
  intros w1 w2 H. unfold call.
  destruct (expect ttype val w1) as [b1 w1'] eqn:E1.
  destruct (expect ttype val w2) as [b2 w2'] eqn:E2.
  apply expect_stream in E1, E2. destruct E1 as [Hb1 Hs1], E2 as [Hb2 Hs2].
  rewrite (sameStream_peek H) in Hb2. rewrite <- Hb1 in Hb2. subst b2.
  split; [reflexivity|]. intros i. rewrite Hs1, Hs2. apply H.
Qed.

Lemma respects_expectType (ttype : TokenType) : respects (call (expectType ttype)).
Proof.
  intros w1 w2 H. unfold call.
  destruct (expectType ttype w1) as [[v1 b1] w1'] eqn:E1.
  destruct (expectType ttype w2) as [[v2 b2] w2'] eqn:E2.
  apply expectType_stream in E1, E2.
  destruct E1 as (Hb1 & Hv1 & Hs1), E2 as (Hb2 & Hv2 & Hs2).
  rewrite (sameStream_peek H) in Hb2, Hv2. rewrite <- Hb1 in Hb2. subst b2.
  rewrite <- Hv1 in Hv2. subst v2.
  split; [reflexivity|]. intros i. rewrite Hs1, Hs2. apply H.
Qed.

Lemma respects_parseVariable : respects (call parseVariable).
Proof.
  intros w1 w2 H. unfold call, parseVariable.
  pose proof (respects_expect TOKEN_KEYWORD "shadow" H) as R1. unfold call in R1.
  destruct (expect TOKEN_KEYWORD "shadow" w1) as [s1 u1].
  destruct (expect TOKEN_KEYWORD "shadow" w2) as [s2 u2].
  destruct R1 as [<- Hs].
  pose proof (respects_expectType TOKEN_IDENTIFIER Hs) as R2. unfold call in R2.
  destruct (expectType TOKEN_IDENTIFIER u1) as [[v1 ok1] x1].
  destruct (expectType TOKEN_IDENTIFIER u2) as [[v2 ok2] x2].
  destruct R2 as [Heq Hs2]. inversion Heq; subst.
  destruct ok2; auto.
Qed.

Lemma respects_parseConstant : respects (call parseConstant).
Proof.
  intros w1 w2 H. unfold call, parseConstant.
  pose proof (respects_expectType TOKEN_CONSTANT H) as R. unfold call in R.
  destruct (expectType TOKEN_CONSTANT w1) as [[v1 ok1] x1].
  destruct (expectType TOKEN_CONSTANT w2) as [[v2 ok2] x2].
  destruct R as [Heq Hs]. inversion Heq; subst.
  destruct ok2; auto.
Qed.

Ltac resp :=
  repeat first
    [ apply respects_ret
    | apply respects_outOfFuel
    | apply respects_expect
    | apply respects_expectType
    | apply respects_parseVariable
    | apply respects_parseConstant
    | solve [auto 2]
    | progress cbv zeta
    | apply respects_bind; [|intros ?]
    | match goal with
      | |- respects (match ?x with _ => _ end) => destruct x
      | |- respects (if ?b then _ else _) => destruct b
      end ].

Lemma respects_parseExpression (fuel : nat) : respects (parseExpression fuel).
Proof.
  induction fuel as [|n IH]; [apply respects_outOfFuel|]. simpl.
  unfold parseExpression_body, parseUnaryExpression, parseSimpleExpression,
    parseExpression_binop.
  resp.
Qed.

Lemma respects_parseVarList_loop (fuel : nat) :
  forall vars, respects (parseVarList_loop fuel vars).
Proof.
  induction fuel as [|n IH]; intros vars; [apply respects_outOfFuel|]. simpl. resp.
Qed.

Lemma respects_parseExpressionList_loop (pe : M ExprResult) (fuel : nat) :
  respects pe -> forall i es, respects (parseExpressionList_loop pe fuel i es).
Proof.
  intros Hpe. induction fuel as [|n IH]; intros i es; [apply respects_outOfFuel|].
  simpl. resp.
Qed.

Lemma respects_parseAssignment (fuel : nat) : respects (parseAssignment fuel).
Proof.
  unfold parseAssignment, parseVarList, parseExpressionList.
  pose proof (respects_parseVarList_loop fuel).
  pose proof (@respects_parseExpressionList_loop _ fuel (respects_parseExpression fuel)).
  resp.
Qed.

Lemma respects_parseCondition (fuel : nat) (rec : M BlockResult) :
  respects rec -> respects (parseCondition fuel rec).
Proof.
  intros Hrec. unfold parseCondition.
  pose proof (respects_parseExpression fuel). resp.
Qed.

Lemma respects_parseLoop (fuel : nat) (rec : M BlockResult) :
  respects rec -> respects (parseLoop fuel rec).
Proof.
  intros Hrec. unfold parseLoop, parseExpressionList.
  pose proof (respects_parseAssignment fuel).
  pose proof (@respects_parseExpressionList_loop _ fuel (respects_parseExpression fuel)).
  resp.
Qed.

Lemma respects_parseStatementList_loop
    (pc : M (Condition * option error)) (pl : M (Loop * option error))
    (pa : M (Assignment * option error)) (fuel : nat) :
  respects pc -> respects pl -> respects pa ->
  forall b, respects (parseStatementList_loop pc pl pa fuel b).
Proof.
  intros Hpc Hpl Hpa. induction fuel as [|n IH]; intros b; [apply respects_outOfFuel|].
  simpl. resp.
Qed.

Lemma respects_parseStatementList (fuel : nat) : respects (parseStatementList fuel).
Proof.
  induction fuel as [|n IH]; [apply respects_outOfFuel|].
  cbn [parseStatementList]. cbv zeta.
  apply respects_parseStatementList_loop.
  - apply respects_parseCondition, IH.
  - apply respects_parseLoop, IH.
  - apply respects_parseAssignment.
Qed.

(** C3, as the code has it.  A production that fails on the first token it
    reads has pushed that token back, and the token stream is as it was
    before the call: [expect] and [expectType] whenever they fail;
    [parseVariable] when no [shadow] comes first; [parseConstant];
    [parseExpression], [parseAssignment], [parseCondition] and [parseLoop]
    when the next token cannot begin them.  The caller loses nothing by it:
    a production started on a world with the same token stream returns the
    same result. *)
Theorem failed_first_token_is_pushed_back :
  (forall (ttype : TokenType) (val : string) (w w' : World),
     expect ttype val w = (false, w') -> sameStream w w') /\
  (forall (ttype : TokenType) (w w' : World) (v : string),
     expectType ttype w = ((v, false), w') -> sameStream w w') /\
  (forall (w w' : World) (v : Variable_),
     isToken TOKEN_KEYWORD "shadow" (peek w) = false ->
     parseVariable w = ((v, false), w') -> sameStream w w') /\
  (forall (w w' : World) (k : Constant),
     parseConstant w = ((k, false), w') -> sameStream w w') /\
  (forall (fuel : nat) (w : World),
     beginsExpression (peek w) = false ->
     exists e w', parseExpression (S fuel) w = Some ((nilExpression, Some e), w') /\
                  sameStream w w') /\
  (forall (fuel : nat) (w : World),
     beginsVariable (peek w) = false ->
     exists e w', parseAssignment (S fuel) w = Some ((zeroAssignment, Some e), w') /\
                  sameStream w w') /\
  (forall (fuel : nat) (rec : M BlockResult) (w : World),
     isToken TOKEN_KEYWORD "if" (peek w) = false ->
     exists e w', parseCondition fuel rec w = Some ((zeroCondition, Some e), w') /\
                  sameStream w w') /\
  (forall (fuel : nat) (rec : M BlockResult) (w : World),
     isToken TOKEN_KEYWORD "for" (peek w) = false ->
     exists e w', parseLoop fuel rec w = Some ((zeroLoop, Some e), w') /\
                  sameStream w w') /\
  (forall fuel : nat,
     respects (parseExpression fuel) /\ respects (parseAssignment fuel) /\
     respects (parseStatementList fuel)).
Proof.
  assert (Hret : forall (A : Set) (m : M (A * option error)) (z : A) (w : World),
            returns m w (fun r w' => fst r = z /\ snd r <> None /\ sameStream w w') ->
            exists e w', m w = Some ((z, Some e), w') /\ sameStream w w').
  { intros A m z w ([x err] & w' & H & Hz & Hne & Hs). simpl in Hz, Hne. subst x.
    destruct err as [e|]; [|congruence]. eauto. }
  split; [|split; [|split; [|split; [|split; [|split; [|split; [|split]]]]]]].
  - intros ttype val w w' H. apply expect_facts in H. destruct H as (_ & _ & F).
    apply F. reflexivity.
  - intros ttype w w' v H. apply expectType_facts in H. destruct H as (_ & _ & F).
    apply F. reflexivity.
  - intros w w' v Hsh H. apply parseVariable_facts in H. destruct H as (_ & _ & _ & F).
    destruct (F Hsh) as (_ & _ & F'). apply F'. reflexivity.
  - intros w w' k H. apply parseConstant_facts in H. destruct H as (_ & _ & _ & _ & F).
    apply F. reflexivity.
  - intros fuel w Hb. apply Hret, parseExpression_first_token, Hb.
  - intros fuel w Hb. apply Hret, parseAssignment_first_token, Hb.
  - intros fuel rec w Hb. apply Hret, parseCondition_first_token, Hb.
  - intros fuel rec w Hb. apply Hret, parseLoop_first_token, Hb.
  - intros fuel. split; [|split].
    + apply respects_parseExpression.
    + apply respects_parseAssignment.
    + apply respects_parseStatementList.
Qed.

(* ================================================================= *)
(** ** What every production does to the world *)

Section Steps.

Variable R : World -> World -> Prop.
Hypothesis R_refl : forall w, R w w.
Hypothesis R_trans : forall w1 w2 w3, R w1 w2 -> R w2 w3 -> R w1 w3.
Hypothesis R_expect : forall ttype val w, R w (snd (expect ttype val w)).
Hypothesis R_expectType : forall ttype w, R w (snd (expectType ttype w)).

Lemma stepsBy_ret {A : Type} (a : A) : stepsBy R (ret a).
Proof. intros w x w' H. apply ret_inv in H. inversion H; subst. apply R_refl. Qed.

Lemma stepsBy_outOfFuel {A : Type} : stepsBy R (@outOfFuel A).
Proof. intros w x w' H. discriminate H. Qed.

Lemma stepsBy_bind {A B : Type} (m : M A) (k : A -> M B) :
  stepsBy R m -> (forall a, stepsBy R (k a)) -> stepsBy R (bind m k).
Proof.
  intros Hm Hk w b w' H. apply bind_inv in H. destruct H as (a & w1 & E & H).
  eapply R_trans; [eapply Hm | eapply Hk]; eassumption.
Qed.

Lemma stepsBy_expect (ttype : TokenType) (val : string) :
  stepsBy R (call (expect ttype val)).
Proof.
  intros w b w' H. apply call_inv in H.
  pose proof (R_expect ttype val w) as HR. rewrite H in HR. exact HR.
Qed.

Lemma stepsBy_expectType (ttype : TokenType) : stepsBy R (call (expectType ttype)).
Proof.
  intros w b w' H. apply call_inv in H.
  pose proof (R_expectType ttype w) as HR. rewrite H in HR. exact HR.
Qed.

Lemma stepsBy_parseVariable : stepsBy R (call parseVariable).
Proof.
  intros w r w' H. apply call_inv in H. unfold parseVariable in H.
  pose proof (R_expect TOKEN_KEYWORD "shadow" w) as H1.
  destruct (expect TOKEN_KEYWORD "shadow" w) as [s w1]. simpl in H1.
  pose proof (R_expectType TOKEN_IDENTIFIER w1) as H2.
  destruct (expectType TOKEN_IDENTIFIER w1) as [[v ok] w2]. simpl in H2.
  destruct ok; inversion H; subst; eapply R_trans; eassumption.
Qed.

Lemma stepsBy_parseConstant : stepsBy R (call parseConstant).
Proof.
  intros w r w' H. apply call_inv in H. unfold parseConstant in H.
  pose proof (R_expectType TOKEN_CONSTANT w) as H1.
  destruct (expectType TOKEN_CONSTANT w) as [[v ok] w1]. simpl in H1.
  destruct ok; inversion H; subst; assumption.
Qed.

Ltac steps :=
  repeat first
    [ apply stepsBy_ret
    | apply stepsBy_outOfFuel
    | apply stepsBy_expect
    | apply stepsBy_expectType
    | apply stepsBy_parseVariable
    | apply stepsBy_parseConstant
    | solve [auto 2]
    | progress cbv zeta
    | apply stepsBy_bind; [|intros ?]
    | match goal with
      | |- stepsBy R (match ?x with _ => _ end) => destruct x
      | |- stepsBy R (if ?b then _ else _) => destruct b
      end ].

Lemma stepsBy_parseExpression (fuel : nat) : stepsBy R (parseExpression fuel).
Proof.
  induction fuel as [|n IH]; [apply stepsBy_outOfFuel|]. simpl.
  unfold parseExpression_body, parseUnaryExpression, parseSimpleExpression,
    parseExpression_binop.
  steps.
Qed.

Lemma stepsBy_parseVarList_loop (fuel : nat) :
  forall vars, stepsBy R (parseVarList_loop fuel vars).
Proof.
  induction fuel as [|n IH]; intros vars; [apply stepsBy_outOfFuel|]. simpl. steps.
Qed.

Lemma stepsBy_parseExpressionList_loop (pe : M ExprResult) (fuel : nat) :
  stepsBy R pe -> forall i es, stepsBy R (parseExpressionList_loop pe fuel i es).
Proof.
  intros Hpe. induction fuel as [|n IH]; intros i es; [apply stepsBy_outOfFuel|].
  simpl. steps.
Qed.

Lemma stepsBy_parseExpressionList (fuel : nat) : stepsBy R (parseExpressionList fuel).
Proof.
  apply stepsBy_parseExpressionList_loop, stepsBy_parseExpression.
Qed.

Lemma stepsBy_parseAssignment (fuel : nat) : stepsBy R (parseAssignment fuel).
Proof.
  unfold parseAssignment, parseVarList.
  pose proof (stepsBy_parseVarList_loop fuel).
  pose proof (stepsBy_parseExpressionList fuel).
  steps.
Qed.

Lemma stepsBy_parseCondition (fuel : nat) (rec : M BlockResult) :
  stepsBy R rec -> stepsBy R (parseCondition fuel rec).
Proof.
  intros Hrec. unfold parseCondition.
  pose proof (stepsBy_parseExpression fuel). steps.
Qed.

Lemma stepsBy_parseLoop (fuel : nat) (rec : M BlockResult) :
  stepsBy R rec -> stepsBy R (parseLoop fuel rec).
Proof.
  intros Hrec. unfold parseLoop.
  pose proof (stepsBy_parseAssignment fuel).
  pose proof (stepsBy_parseExpressionList fuel).
  steps.
Qed.

Lemma stepsBy_parseStatementList_loop
    (pc : M (Condition * option error)) (pl : M (Loop * option error))
    (pa : M (Assignment * option error)) (fuel : nat) :
  stepsBy R pc -> stepsBy R pl -> stepsBy R pa ->
  forall b, stepsBy R (parseStatementList_loop pc pl pa fuel b).
Proof.
  intros Hpc Hpl Hpa. induction fuel as [|n IH]; intros b; [apply stepsBy_outOfFuel|].
  simpl. steps.
Qed.

Lemma stepsBy_parseStatementList (fuel : nat) : stepsBy R (parseStatementList fuel).
Proof.
  induction fuel as [|n IH]; [apply stepsBy_outOfFuel|].
  cbn [parseStatementList]. cbv zeta.
  apply stepsBy_parseStatementList_loop.
  - apply stepsBy_parseCondition, IH.
  - apply stepsBy_parseLoop, IH.
  - apply stepsBy_parseAssignment.
Qed.

End Steps.

(** *** Printing *)

Lemma printsOnlyClosed_refl (w : World) : printsOnlyClosed w w.
Proof. exists 0. simpl. rewrite app_nil_r. reflexivity. Qed.

Lemma printsOnlyClosed_trans (w1 w2 w3 : World) :
  printsOnlyClosed w1 w2 -> printsOnlyClosed w2 w3 -> printsOnlyClosed w1 w3.
Proof.
  intros [k1 H1] [k2 H2]. exists (k1 + k2).
  rewrite H2, H1, <- app_assoc, repeat_app. reflexivity.
Qed.

Lemma next_prints (w : World) :
  printsOnlyClosed w (snd (next w)) /\ isCached (tokens (snd (next w))) = false.
Proof.
  destruct w as [[l b tk] out]. unfold next, printsOnlyClosed. simpl.
  destruct b; simpl.
  - split; [exists 0; simpl; rewrite app_nil_r|]; reflexivity.
  - destruct l; simpl.
    + split; [exists 1|]; reflexivity.
    + split; [exists 0; simpl; rewrite app_nil_r|]; reflexivity.
Qed.

Lemma pushBack_prints (t : Token) (w : World) :
  isCached (tokens w) = false -> stdout (pushBack t w) = stdout w.
Proof. intros H. apply pushBack_spec. assumption. Qed.

Lemma expect_prints (ttype : TokenType) (val : string) (w : World) :
  printsOnlyClosed w (snd (expect ttype val w)).
Proof.
  unfold expect. destruct (next_prints w) as [Hp Hc].
  destruct (next w) as [t w1]. simpl in *.
  destruct (negb (TokenType_eqb (tokenType t) ttype) || negb (String.eqb (value t) val));
    simpl; [|assumption].
  destruct Hp as [k Hk]. exists k. rewrite pushBack_prints; assumption.
Qed.

Lemma expectType_prints (ttype : TokenType) (w : World) :
  printsOnlyClosed w (snd (expectType ttype w)).
Proof.
  unfold expectType. destruct (next_prints w) as [Hp Hc].
  destruct (next w) as [t w1]. simpl in *.
  destruct (negb (TokenType_eqb (tokenType t) ttype)); simpl; [|assumption].
  destruct Hp as [k Hk]. exists k. rewrite pushBack_prints; assumption.
Qed.

(** X4.  No production ever calls [pushBack] on a full buffer: all that a
    production prints is the line of the closed channel, once for each token
    it asks for after the channel has run dry; the line "Can only cache one
    item at a time." never appears.  The same holds for [parse]. *)
Theorem parser_prints_only_closed_channel (fuel : nat) :
  stepsBy printsOnlyClosed (parseExpression fuel) /\
  stepsBy printsOnlyClosed (parseExpressionList fuel) /\
  stepsBy printsOnlyClosed (parseAssignment fuel) /\
  stepsBy printsOnlyClosed (parseStatementList fuel) /\
  (forall (toks : list Token) (out out' : list string) (ast : AST),
     parse fuel toks out = Some (ast, out') ->
     exists k, out' = out ++ repeat closedLine k).
Proof.
  assert (Hall : forall A (m : M A),
            (forall R : World -> World -> Prop,
               (forall w, R w w) ->
               (forall w1 w2 w3, R w1 w2 -> R w2 w3 -> R w1 w3) ->
               (forall ttype val w, R w (snd (expect ttype val w))) ->
               (forall ttype w, R w (snd (expectType ttype w))) -> stepsBy R m) ->
            stepsBy printsOnlyClosed m).
  { intros A m H. apply H.
    - apply printsOnlyClosed_refl.
    - apply printsOnlyClosed_trans.
    - apply expect_prints.
    - apply expectType_prints. }
  split; [|split; [|split; [|split]]].
  - apply Hall. intros R H1 H2 H3 H4. apply stepsBy_parseExpression; assumption.
  - apply Hall. intros R H1 H2 H3 H4. apply stepsBy_parseExpressionList; assumption.
  - apply Hall. intros R H1 H2 H3 H4. apply stepsBy_parseAssignment; assumption.
  - apply Hall. intros R H1 H2 H3 H4. apply stepsBy_parseStatementList; assumption.
  - intros toks out out' ast H. unfold parse in H.
    destruct (parseStatementList fuel (mkWorld (mkTokenChannel toks false zeroToken) out))
      as [[r w]|] eqn:E; [|discriminate].
    inversion H; subst.
    assert (Hs : stepsBy printsOnlyClosed (parseStatementList fuel)).
    { apply Hall. intros R H1 H2 H3 H4. apply stepsBy_parseStatementList; assumption. }
    exact (Hs _ _ _ E).
Qed.

(** *** The token stream *)

Lemma advanced_refl (w : World) : advanced w w.
Proof. exists 0. intros i. reflexivity. Qed.

Lemma advanced_trans (w1 w2 w3 : World) :
  advanced w1 w2 -> advanced w2 w3 -> advanced w1 w3.
Proof.
  intros [k1 H1] [k2 H2]. exists (k1 + k2). intros i.
  rewrite H2, H1. f_equal. lia.
Qed.

Lemma expect_advanced (ttype : TokenType) (val : string) (w : World) :
  advanced w (snd (expect ttype val w)).
Proof.
  destruct (expect ttype val w) as [b w1] eqn:E. simpl.
  apply expect_stream in E. destruct E as [_ Hs].
  destruct b; [exists 1 | exists 0]; intros i; rewrite Hs; reflexivity.
Qed.

Lemma expectType_advanced (ttype : TokenType) (w : World) :
  advanced w (snd (expectType ttype w)).
Proof.
  destruct (expectType ttype w) as [[v ok] w1] eqn:E. simpl.
  apply expectType_stream in E. destruct E as (_ & _ & Hs).
  destruct ok; [exists 1 | exists 0]; intros i; rewrite Hs; reflexivity.
Qed.

(** X5.  A production only moves forward in the token stream: what it leaves
    is the stream it started with, without some number of tokens at the
    front.  It never puts back a token it did not just read, and never
    changes the order of the tokens to come. *)
Theorem parser_only_advances (fuel : nat) :
  stepsBy advanced (parseExpression fuel) /\
  stepsBy advanced (parseExpressionList fuel) /\
  stepsBy advanced (parseAssignment fuel) /\
  stepsBy advanced (parseStatementList fuel).
Proof.
  assert (Hall : forall A (m : M A),
            (forall R : World -> World -> Prop,
               (forall w, R w w) ->
               (forall w1 w2 w3, R w1 w2 -> R w2 w3 -> R w1 w3) ->
               (forall ttype val w, R w (snd (expect ttype val w))) ->
               (forall ttype w, R w (snd (expectType ttype w))) -> stepsBy R m) ->
            stepsBy advanced m).
  { intros A m H. apply H.
    - apply advanced_refl.
    - apply advanced_trans.
    - apply expect_advanced.
    - apply expectType_advanced. }
  split; [|split; [|split]].
  - apply Hall. intros R H1 H2 H3 H4. apply stepsBy_parseExpression; assumption.
  - apply Hall. intros R H1 H2 H3 H4. apply stepsBy_parseExpressionList; assumption.
  - apply Hall. intros R H1 H2 H3 H4. apply stepsBy_parseAssignment; assumption.
  - apply Hall. intros R H1 H2 H3 H4. apply stepsBy_parseStatementList; assumption.
Qed.

(* ================================================================= *)
(** ** The error of an expression list *)

Lemma parseExpression_advanced (fuel : nat) : stepsBy advanced (parseExpression fuel).
Proof.
  apply stepsBy_parseExpression.
  - apply advanced_refl.
  - apply advanced_trans.
  - apply expect_advanced.
  - apply expectType_advanced.
Qed.

Lemma parseExpressionList_loop_trace (pe : M ExprResult) (fuel : nat) :
  forall (i : nat) (es : list Expression) (w w' : World) (xs : list Expression) (e : error),
  parseExpressionList_loop pe fuel i es w = Some ((xs, Some e), w') ->
  xs = [] /\
  e = errors_New "Expected expression in expression list after ',', got something else" /\
  exists (items : list Expression) (w3 : World) (x : Expression) (e' : error),
    readsItems pe w items w3 /\ (i = 0 -> items <> []) /\
    pe w3 = Some ((x, Some e'), w').
Proof.
  induction fuel as [|n IH]; intros i es w w' xs e H; [discriminate|].
  simpl in H. invM H; try (inversion H; fail).
  - inversion H; subst. split; [reflexivity|]. split; [reflexivity|].
    exists [], w. do 2 eexists. split; [constructor|].
    split; [intros ->; discriminate | eassumption].
  - apply IH in H. destruct H as (Hxs & He & items & w3 & x & e' & Hr & _ & Hpe).
    destruct a0; [|discriminate].
    split; [assumption|]. split; [assumption|].
    eexists (_ :: items), w3, x, e'.
    split; [econstructor; eassumption|]. split; [discriminate | assumption].
Qed.

Lemma readsItems_stream (pe : M ExprResult) :
  stepsBy advanced pe ->
  forall (w : World) (items : list Expression) (w3 : World),
  readsItems pe w items w3 -> items <> [] ->
  exists k, isToken TOKEN_SEPARATOR "," (stream w k) = true /\
            forall i, stream w3 i = stream w (S k + i).
Proof.
  intros Hpe w items w3 H.
  induction H as [w | w w1 w2 w3 e items Hp He Hr IH]; intros Hne; [congruence|].
  destruct (Hpe _ _ _ Hp) as [k1 Hk1].
  destruct (expect_stream _ _ _ He) as [Hb Hs]. unfold peek in Hb.
  destruct items as [|e1 items'].
  - inversion Hr; subst. exists k1. split.
    + rewrite Hk1 in Hb. rewrite Nat.add_0_r in Hb. symmetry. exact Hb.
    + intros i. rewrite Hs, Hk1. f_equal. lia.
  - destruct IH as [k [Hk Hi]]; [discriminate|]. exists (S k1 + k). split.
    + rewrite Hs, Hk1 in Hk. replace (S k1 + k) with (k1 + S k) by lia. exact Hk.
    + intros i. rewrite Hi, Hs, Hk1. f_equal. lia.
Qed.

(** C10.  When the next token cannot begin an expression, [parseExpressionList]
    returns the empty list and no error, and the token stream is as before.
    When it returns an error, the list is empty, the error is the one for a
    missing expression after [','], and the run from [w] was this: the loop
    read one or more items, each an accepted expression followed by a [',']
    it consumed; the last of these separators is token [k] of the stream of
    [w]; and the call of [parseExpression] on the stream right after it
    failed. *)
Theorem parseExpressionList_empty_or_dangling_separator :
  (forall (fuel : nat) (w : World),
     beginsExpression (peek w) = false ->
     exists w', parseExpressionList (S fuel) w = Some (([], None), w') /\ sameStream w w') /\
  (forall (fuel : nat) (w w' : World) (es : list Expression) (e : error),
     parseExpressionList fuel w = Some ((es, Some e), w') ->
     es = [] /\
     e = errors_New "Expected expression in expression list after ',', got something else" /\
     exists (items : list Expression) (w3 : World) (k : nat) (x : Expression) (e' : error),
       items <> [] /\
       readsItems (parseExpression fuel) w items w3 /\
       isToken TOKEN_SEPARATOR "," (stream w k) = true /\
       (forall i, stream w3 i = stream w (S k + i)) /\
       parseExpression fuel w3 = Some ((x, Some e'), w')).
Proof.
  split.
  - intros fuel w Hb.
    destruct (parseExpression_first_token fuel w Hb) as ([x err] & w' & Hpe & _ & Hne & Hs).
    simpl in Hne. destruct err as [e|]; [|congruence].
    exists w'. split; [|assumption].
    unfold parseExpressionList. cbn [parseExpressionList_loop].
    unfold bind at 1. rewrite Hpe. reflexivity.
  - intros fuel w w' es e H. unfold parseExpressionList in H.
    apply parseExpressionList_loop_trace in H.
    destruct H as (Hes & He & items & w3 & x & e' & Hr & Hne & Hpe).
    specialize (Hne eq_refl).
    destruct (readsItems_stream (parseExpression_advanced fuel) Hr Hne) as (k & Hk & Hi).
    split; [assumption|]. split; [assumption|].
    exists items, w3, k, x, e'. auto.
Qed.

(* ================================================================= *)
(** ** The shape of what the parser builds *)

(** After an expression has been accepted, the next token is no operator:
    an expression takes every operator that follows it. *)
Lemma parseExpression_binop_maximal (rec : M ExprResult) (x e : Expression)
    (w w' : World) :
  (forall w1 e1 w2, rec w1 = Some ((e1, None), w2) ->
                    tokenType (peek w2) <> TOKEN_OPERATOR) ->
  parseExpression_binop rec x w = Some ((e, None), w') ->
  tokenType (peek w') <> TOKEN_OPERATOR.
Proof.
  intros Hrec H. unfold parseExpression_binop in H. invM H; inversion H; subst; clear H.
  - eapply Hrec; eassumption.
  - apply expectType_facts in E. destruct E as (_ & _ & F).
    destruct (F eq_refl) as (Hne & _ & Hs). rewrite (sameStream_peek Hs). assumption.
Qed.

(** X6.  When [parseExpression] accepts an expression, the token that
    follows it in the stream is not an operator token: the expression
    extends over every operator that follows, so that no caller ever sees
    an operator after an expression. *)
Theorem parseExpression_maximal (fuel : nat) :
  forall (w w' : World) (e : Expression),
  parseExpression fuel w = Some ((e, None), w') ->
  tokenType (peek w') <> TOKEN_OPERATOR.
Proof.
  induction fuel as [|n IH]; intros w w' e H; [discriminate|].
  simpl in H. unfold parseExpression_body in H.
  apply bind_inv in H. destruct H as ([u uerr] & w1 & _ & H). cbv beta iota in H.
  destruct uerr as [ue|].
  - apply bind_inv in H. destruct H as ([s serr] & w2 & _ & H). cbv beta iota in H.
    destruct serr as [se|].
    + apply ret_inv in H. inversion H.
    + eapply parseExpression_binop_maximal; [|exact H]. intros; eapply IH; eassumption.
  - eapply parseExpression_binop_maximal; [|exact H]. intros; eapply IH; eassumption.
Qed.

Lemma parseVariable_type (w w' : World) (v : Variable_) (ok : bool) :
  parseVariable w = ((v, ok), w') -> ok = true -> vType v = TYPE_UNKNOWN.
Proof.
  unfold parseVariable.
  destruct (expect TOKEN_KEYWORD "shadow" w) as [s w1].
  destruct (expectType TOKEN_IDENTIFIER w1) as [[name ok'] w2].
  destruct ok'; intros H Hok; inversion H; subst; [reflexivity | discriminate].
Qed.

Lemma parseConstant_type (w w' : World) (k : Constant) (ok : bool) :
  parseConstant w = ((k, ok), w') -> ok = true -> cType k = getConstType (cValue k).
Proof.
  unfold parseConstant.
  destruct (expectType TOKEN_CONSTANT w) as [[text ok'] w1].
  destruct ok'; intros H Hok; inversion H; subst; [reflexivity | discriminate].
Qed.

Lemma getOperatorType_not_negative (text : string) : getOperatorType text <> OP_NEGATIVE.
Proof.
  unfold getOperatorType.
  repeat match goal with
         | |- context [String.eqb text ?x] => destruct (String.eqb text x); [discriminate|]
         end.
  discriminate.
Qed.

Section ExpressionShape.

Variable rec : M ExprResult.
Hypothesis Hrec : forall w e w', rec w = Some ((e, None), w') -> parsedExpression e.

Lemma parseUnaryExpression_shape (w w' : World) (e : Expression) :
  parseUnaryExpression rec w = Some ((e, None), w') -> parsedExpression e.
Proof.
  unfold parseUnaryExpression. intros H.
  invM H; inversion H; subst; clear H; simpl;
    match goal with E : rec _ = Some _ |- _ => apply Hrec in E end; auto.
Qed.

Lemma parseSimpleExpression_shape (w w' : World) (e : Expression) :
  parseSimpleExpression rec w = Some ((e, None), w') -> parsedExpression e.
Proof.
  unfold parseSimpleExpression. intros H.
  invM H; inversion H; subst; clear H; simpl.
  - eapply parseVariable_type; [eassumption | reflexivity].
  - eapply parseConstant_type; [eassumption | reflexivity].
  - eapply Hrec; eassumption.
Qed.

Lemma parseExpression_binop_shape (x e : Expression) (w w' : World) :
  parsedExpression x ->
  parseExpression_binop rec x w = Some ((e, None), w') -> parsedExpression e.
Proof.
  unfold parseExpression_binop. intros Hx H.
  invM H; inversion H; subst; clear H; simpl; [|assumption].
  match goal with E : rec _ = Some _ |- _ => apply Hrec in E end.
  auto using getOperatorType_not_negative.
Qed.

Lemma parseExpression_body_shape (w w' : World) (e : Expression) :
  parseExpression_body rec w = Some ((e, None), w') -> parsedExpression e.
Proof.
  unfold parseExpression_body. intros H.
  apply bind_inv in H. destruct H as ([u uerr] & w1 & Eu & H). cbv beta iota in H.
  destruct uerr as [ue|].
  - apply bind_inv in H. destruct H as ([s serr] & w2 & Es & H). cbv beta iota in H.
    destruct serr as [se|].
    + apply ret_inv in H. inversion H.
    + eapply parseExpression_binop_shape; [|exact H].
      eapply parseSimpleExpression_shape; eassumption.
  - eapply parseExpression_binop_shape; [|exact H].
    eapply parseUnaryExpression_shape; eassumption.
Qed.

End ExpressionShape.

(** X7.  Every expression [parseExpression] accepts has the parser's shape:
    it holds no nil node; the types of its variables, binary and unary nodes
    are all [TYPE_UNKNOWN]; each constant carries the type [getConstType]
    gives its text; a unary node has operator [OP_NEGATIVE] or [OP_NOT], and
    a binary node never has [OP_NEGATIVE]. *)
Theorem parseExpression_shape (fuel : nat) :
  forall (w w' : World) (e : Expression),
  parseExpression fuel w = Some ((e, None), w') -> parsedExpression e.
Proof.
  induction fuel as [|n IH]; intros w w' e H; [discriminate|].
  simpl in H. eapply parseExpression_body_shape; [|exact H].
  intros w1 e1 w2 H1. eapply IH; eassumption.
Qed.

Lemma all_fix_Forall (P : Statement -> Prop) (ss : list Statement) :
  (fix all (l : list Statement) : Prop :=
     match l with
     | [] => True
     | s' :: l' => P s' /\ all l'
     end) ss <-> Forall P ss.
Proof.
  induction ss as [|s ss IH]; split; intros H.
  - constructor.
  - exact I.
  - destruct H as [H1 H2]. constructor; [assumption | apply IH; assumption].
  - inversion H; subst. split; [assumption | apply IH; assumption].
Qed.

Lemma parsedStatement_SCondition (cnd : Condition) :
  parsedStatement (SCondition cnd) <->
  parsedExpression (expression cnd) /\ parsedBlock (block cnd) /\ parsedBlock (elseBlock cnd).
Proof.
  unfold parsedBlock. simpl. rewrite <- !all_fix_Forall. tauto.
Qed.

Lemma parsedStatement_SLoop (l : Loop) :
  parsedStatement (SLoop l) <->
  parsedAssignment (assignment l) /\ Forall parsedExpression (loopExpressions l) /\
  parsedAssignment (incrAssignment l) /\ parsedBlock (loopBlock l).
Proof.
  unfold parsedBlock. simpl. rewrite <- !all_fix_Forall. tauto.
Qed.

Lemma parsedBlock_zero : parsedBlock zeroBlock.
Proof. unfold parsedBlock, zeroBlock. simpl. auto. Qed.

Lemma parsedBlock_append (b : Block) (s : Statement) :
  parsedBlock b -> parsedStatement s -> parsedBlock (appendStatement b s).
Proof.
  unfold parsedBlock, appendStatement. simpl. intros (H1 & H2 & H3) Hs.
  repeat split; try assumption. apply Forall_app. auto.
Qed.

Lemma parsedAssignment_zero : parsedAssignment zeroAssignment.
Proof. split; constructor. Qed.

Lemma parseVarList_loop_shape (fuel : nat) :
  forall (vars0 vars : list Variable_) (w w' : World),
  Forall (fun v => vType v = TYPE_UNKNOWN) vars0 ->
  parseVarList_loop fuel vars0 w = Some (vars, w') ->
  Forall (fun v => vType v = TYPE_UNKNOWN) vars.
Proof.
  induction fuel as [|n IH]; intros vars0 vars w w' H0 H; [discriminate|].
  simpl in H. invM H;
    try match goal with
        | E : parseVariable _ = ((_, ?ok), _), Hn : negb ?ok = false |- _ =>
            destruct ok; [|discriminate Hn];
            apply parseVariable_type in E; [|reflexivity]
        end.
  - inversion H; subst. constructor.
  - inversion H; subst. apply Forall_app. split; [assumption|]. constructor; auto.
  - eapply IH; [|exact H]. apply Forall_app. split; [assumption|]. constructor; auto.
Qed.

Lemma parseExpressionList_loop_shape (pe : M ExprResult) (fuel : nat) :
  (forall w e w', pe w = Some ((e, None), w') -> parsedExpression e) ->
  forall (i : nat) (es0 es : list Expression) (err : option error) (w w' : World),
  Forall parsedExpression es0 ->
  parseExpressionList_loop pe fuel i es0 w = Some ((es, err), w') ->
  Forall parsedExpression es.
Proof.
  intros Hpe. induction fuel as [|n IH]; intros i es0 es err w w' H0 H; [discriminate|].
  simpl in H. invM H.
  - inversion H; subst. assumption.
  - inversion H; subst. constructor.
  - inversion H; subst. apply Forall_app. split; [assumption|].
    constructor; [eapply Hpe; eassumption | constructor].
  - eapply IH; [|exact H]. apply Forall_app. split; [assumption|].
    constructor; [eapply Hpe; eassumption | constructor].
Qed.

Lemma parseExpressionList_shape (fuel : nat) (w w' : World) (es : list Expression)
    (err : option error) :
  parseExpressionList fuel w = Some ((es, err), w') -> Forall parsedExpression es.
Proof.
  unfold parseExpressionList. intros H.
  eapply parseExpressionList_loop_shape; [| |exact H]; [|constructor].
  intros w1 e1 w2 H1. eapply parseExpression_shape; eassumption.
Qed.

Lemma parseAssignment_shape (fuel : nat) (w w' : World) (a : Assignment)
    (err : option error) :
  parseAssignment fuel w = Some ((a, err), w') -> parsedAssignment a.
Proof.
  unfold parseAssignment, parseVarList. intros H.
  invM H; inversion H; subst; clear H; try apply parsedAssignment_zero.
  split; simpl.
  - eapply parseVarList_loop_shape; [|eassumption]. constructor.
  - eapply parseExpressionList_shape; eassumption.
Qed.

Section StatementShape.

Variable rec : M BlockResult.
Hypothesis Hrec : forall w b err w', rec w = Some ((b, err), w') -> parsedBlock b.

Lemma parseCondition_shape (fuel : nat) (w w' : World) (cnd : Condition) :
  parseCondition fuel rec w = Some ((cnd, None), w') -> parsedStatement (SCondition cnd).
Proof.
  unfold parseCondition. intros H.
  invM H; inversion H; subst; clear H; apply parsedStatement_SCondition; simpl;
    repeat match goal with
    | E : rec _ = Some _ |- _ => apply Hrec in E
    | E : parseExpression _ _ = Some _ |- _ => apply parseExpression_shape in E
    end; auto using parsedBlock_zero.
Qed.

Lemma parseLoop_shape (fuel : nat) (w w' : World) (l : Loop) :
  parseLoop fuel rec w = Some ((l, None), w') -> parsedStatement (SLoop l).
Proof.
  unfold parseLoop. intros H.
  invM H; inversion H; subst; clear H; apply parsedStatement_SLoop; simpl;
    repeat match goal with
    | E : rec _ = Some _ |- _ => apply Hrec in E
    | E : parseAssignment _ _ = Some _ |- _ => apply parseAssignment_shape in E
    | E : parseExpressionList _ _ = Some _ |- _ => apply parseExpressionList_shape in E
    end; auto.
Qed.

End StatementShape.

Lemma parseStatementList_loop_shape
    (pc : M (Condition * option error)) (pl : M (Loop * option error))
    (pa : M (Assignment * option error)) :
  (forall w x w', pc w = Some ((x, None), w') -> parsedStatement (SCondition x)) ->
  (forall w x w', pl w = Some ((x, None), w') -> parsedStatement (SLoop x)) ->
  (forall w x w', pa w = Some ((x, None), w') -> parsedStatement (SAssignment x)) ->
  forall (fuel : nat) (b0 b : Block) (err : option error) (w w' : World),
  parsedBlock b0 ->
  parseStatementList_loop pc pl pa fuel b0 w = Some ((b, err), w') -> parsedBlock b.
Proof.
  intros Hpc Hpl Hpa. induction fuel as [|n IH]; intros b0 b err w w' H0 H; [discriminate|].
  simpl in H. invM H;
    try (inversion H; subst; assumption);
    (eapply IH; [|exact H]); apply parsedBlock_append; try assumption;
    first [eapply Hpc; eassumption | eapply Hpl; eassumption | eapply Hpa; eassumption].
Qed.

Lemma parseStatementList_shape (fuel : nat) :
  forall (w w' : World) (b : Block) (err : option error),
  parseStatementList fuel w = Some ((b, err), w') -> parsedBlock b.
Proof.
  induction fuel as [|n IH]; intros w w' b err H; [discriminate|].
  cbn [parseStatementList] in H. cbv zeta in H.
  assert (Hrec : forall w b err w',
            parseStatementList n w = Some ((b, err), w') -> parsedBlock b)
    by (intros; eapply IH; eassumption).
  eapply parseStatementList_loop_shape; [| | |apply parsedBlock_zero|exact H].
  - intros w1 x w2 H1. eapply parseCondition_shape; eassumption.
  - intros w1 x w2 H1. eapply parseLoop_shape; eassumption.
  - intros w1 x w2 H1. simpl. split.
    + apply parseAssignment_result in H1. apply H1. reflexivity.
    + eapply parseAssignment_shape; eassumption.
Qed.

(** X8.  Every tree [parse] returns has the parser's shape, at every depth:
    a statement is an assignment, a condition or a loop, never a [Block];
    every symbol table, the global one included, is nil; every expression
    has the shape of X7; an assignment statement has at least one target,
    and all targets have type [TYPE_UNKNOWN]. *)
Theorem parse_shape (fuel : nat) (toks : list Token) (out out' : list string) (ast : AST) :
  parse fuel toks out = Some (ast, out') ->
  parsedBlock (astBlock ast) /\ globalSymbolTable ast = [].
Proof.
  unfold parse. intros H.
  destruct (parseStatementList fuel (mkWorld (mkTokenChannel toks false zeroToken) out))
    as [[[b err] w]|] eqn:E; [|discriminate].
  pose proof (parseStatementList_shape _ _ E) as Hb.
  inversion H; subst. unfold parse_result.
  destruct err; simpl; split; auto using parsedBlock_zero.
Qed.

(* ================================================================= *)
(** ** Lists, unary operators and parentheses *)

Lemma padded_pending (w : World) :
  pending (tokens (padded w)) = pending (tokens w) ++ [zeroToken].
Proof. unfold padded, pending. simpl. rewrite app_assoc. reflexivity. Qed.

Lemma padded_sameStream (w : World) : sameStream w (padded w).
Proof.
  intros i. unfold stream. rewrite padded_pending.
  destruct (Nat.lt_ge_cases i (length (pending (tokens w)))) as [Hlt | Hge].
  - apply app_nth1. assumption.
  - rewrite app_nth2 by assumption. rewrite (nth_overflow _ _ Hge).
    destruct (i - length (pending (tokens w))) as [|[|k]]; reflexivity.
Qed.

Lemma stream_pending (w : World) (l : list Token) :
  pending (tokens w) = l -> forall i, stream w i = nth i l zeroToken.
Proof. intros <- i. reflexivity. Qed.

(** A result obtained on the padded world holds on the world itself. *)
Lemma from_padded {A : Type} (m : M A) (w : World) (a : A) (rest : list Token) :
  respects m ->
  (exists w1, m (padded w) = Some (a, w1) /\ pending (tokens w1) = rest ++ [zeroToken]) ->
  exists w', m w = Some (a, w') /\ forall i, stream w' i = nth i rest zeroToken.
Proof.
  intros Hm (w1 & H1 & Hp). specialize (Hm w (padded w) (padded_sameStream w)).
  rewrite H1 in Hm. destruct (m w) as [[a' w']|]; [|contradiction].
  destruct Hm as [-> Hs]. exists w'. split; [reflexivity|].
  intros i. rewrite <- (Hs i). unfold stream. rewrite Hp.
  destruct (Nat.lt_ge_cases i (length rest)) as [Hlt | Hge].
  - apply app_nth1. assumption.
  - rewrite app_nth2 by assumption. rewrite (nth_overflow _ _ Hge).
    destruct (i - length rest) as [|[|k]]; reflexivity.
Qed.

Lemma parseVariable_reads (v : bool * string) (l : list Token) (w : World) :
  pending (tokens w) = varTokens v ++ l ->
  exists w1, parseVariable w = ((varOf v, true), w1) /\ pending (tokens w1) = l.
Proof.
  intros Hp. unfold parseVariable, varOf. destruct v as [[|] name]; simpl in *.
  - destruct (expect_hit w Hp) as (w1 & E1 & Hp1). rewrite E1.
    destruct (expectType_hit w1 Hp1) as (w2 & E2 & Hp2). rewrite E2. eauto.
  - destruct (@expect_miss TOKEN_KEYWORD "shadow" w _ _ Hp) as (w1 & E1 & Hp1);
      [reflexivity|]. rewrite E1.
    destruct (expectType_hit w1 Hp1) as (w2 & E2 & Hp2). rewrite E2. eauto.
Qed.

Lemma separated_cons {A : Type} (f : A -> list Token) (x y : A) (xs : list A) :
  separated f (x :: y :: xs) = f x ++ commaToken :: separated f (y :: xs).
Proof. reflexivity. Qed.

Lemma parseVarList_loop_reads (vs : list (bool * string)) :
  forall (acc : list Variable_) (w : World) (fuel : nat) (t : Token) (l : list Token),
  vs <> [] ->
  pending (tokens w) = separated varTokens vs ++ t :: l ->
  isToken TOKEN_SEPARATOR "," t = false ->
  length vs <= fuel ->
  exists w', parseVarList_loop fuel acc w = Some (acc ++ map varOf vs, w') /\
             pending (tokens w') = t :: l.
Proof.
  induction vs as [|v vs IH]; intros acc w fuel t l Hne Hp Ht Hfuel; [congruence|].
  destruct fuel as [|n]; [simpl in Hfuel; lia|].
  destruct vs as [|v2 vs].
  - simpl in Hp. destruct (parseVariable_reads v _ w Hp) as (w1 & E1 & Hp1).
    destruct (expect_miss TOKEN_SEPARATOR "," w1 Hp1 Ht) as (w2 & E2 & Hp2).
    exists w2. split; [|assumption].
    simpl. unfold bind, call. rewrite E1. simpl. rewrite E2. reflexivity.
  - rewrite separated_cons in Hp. rewrite <- app_assoc in Hp. simpl in Hp.
    destruct (parseVariable_reads v _ w Hp) as (w1 & E1 & Hp1).
    destruct (expect_hit w1 Hp1) as (w2 & E2 & Hp2).
    destruct (IH (acc ++ [varOf v]) w2 n t l) as (w3 & E3 & Hp3);
      [discriminate | assumption | assumption | simpl in *; lia|].
    exists w3. split; [|assumption].
    cbn [parseVarList_loop]. unfold bind at 1, call at 1. rewrite E1. cbn [negb].
    unfold bind at 1, call at 1. rewrite E2. cbn [negb]. rewrite E3.
    rewrite <- app_assoc. reflexivity.
Qed.

(** X9.  On the tokens of one or more variables separated by commas,
    followed by something else than a comma, [parseVarList] returns these
    variables, in order, each with its [shadow] flag and the type
    [TYPE_UNKNOWN], and leaves what follows in the stream. *)
Theorem parseVarList_reads (vs : list (bool * string)) (rest : list Token) (w : World)
    (fuel : nat) :
  vs <> [] ->
  pending (tokens w) = separated varTokens vs ++ rest ->
  isToken TOKEN_SEPARATOR "," (nth 0 rest zeroToken) = false ->
  length vs <= fuel ->
  exists w', parseVarList fuel w = Some (map varOf vs, w') /\
             forall i, stream w' i = nth i rest zeroToken.
Proof.
  intros Hne Hp Ht Hfuel. unfold parseVarList.
  apply from_padded; [apply respects_parseVarList_loop|].
  assert (Hq : exists t l, rest ++ [zeroToken] = t :: l /\ nth 0 rest zeroToken = t).
  { destruct rest as [|t l]; simpl; eauto. }
  destruct Hq as (t & l & Hq & Hn). rewrite Hn in Ht.
  destruct (@parseVarList_loop_reads vs [] (padded w) fuel t l Hne) as (w1 & E & Hp1);
    try assumption.
  - rewrite padded_pending, Hp, <- app_assoc, Hq. reflexivity.
  - exists w1. split; [exact E | rewrite Hq; assumption].
Qed.

Lemma parseVariable_misses (t : Token) (l : list Token) (w : World) :
  pending (tokens w) = t :: l -> beginsVariable t = false ->
  exists w1, parseVariable w = ((zeroVariable, false), w1) /\ pending (tokens w1) = t :: l.
Proof.
  intros Hp Hb. apply not_beginsVariable in Hb. destruct Hb as [Hsh Hid].
  unfold parseVariable.
  destruct (expect_miss TOKEN_KEYWORD "shadow" w Hp Hsh) as (w1 & E1 & Hp1). rewrite E1.
  destruct (@expectType_miss TOKEN_IDENTIFIER w1 t l Hp1) as (w2 & E2 & Hp2).
  - unfold TokenType_eqb in Hid.
    destruct (TokenType_eq_dec (tokenType t) TOKEN_IDENTIFIER); [discriminate | assumption].
  - rewrite E2. eauto.
Qed.

Lemma parseVarList_loop_dangling (vs : list (bool * string)) :
  forall (acc : list Variable_) (w : World) (fuel : nat) (t : Token) (l : list Token),
  vs <> [] ->
  pending (tokens w) = separated varTokens vs ++ commaToken :: t :: l ->
  beginsVariable t = false ->
  length vs < fuel ->
  exists w', parseVarList_loop fuel acc w = Some ([], w') /\ pending (tokens w') = t :: l.
Proof.
  induction vs as [|v vs IH]; intros acc w fuel t l Hne Hp Ht Hfuel; [congruence|].
  destruct fuel as [|n]; [lia|].
  destruct vs as [|v2 vs].
  - simpl in Hp. destruct (parseVariable_reads v _ w Hp) as (w1 & E1 & Hp1).
    destruct (expect_hit w1 Hp1) as (w2 & E2 & Hp2).
    destruct (parseVariable_misses w2 Hp2 Ht) as (w3 & E3 & Hp3).
    destruct n as [|n]; [simpl in Hfuel; lia|].
    exists w3. split; [|assumption].
    cbn [parseVarList_loop]. unfold bind at 1, call at 1. rewrite E1. cbn [negb].
    unfold bind at 1, call at 1. rewrite E2. cbn [negb].
    unfold bind, call. rewrite E3. reflexivity.
  - rewrite separated_cons in Hp. rewrite <- app_assoc in Hp. simpl in Hp.
    destruct (parseVariable_reads v _ w Hp) as (w1 & E1 & Hp1).
    destruct (expect_hit w1 Hp1) as (w2 & E2 & Hp2).
    destruct (IH (acc ++ [varOf v]) w2 n t l) as (w3 & E3 & Hp3);
      [discriminate | assumption | assumption | simpl in *; lia|].
    exists w3. split; [|assumption].
    cbn [parseVarList_loop]. unfold bind at 1, call at 1. rewrite E1. cbn [negb].
    unfold bind at 1, call at 1. rewrite E2. cbn [negb]. exact E3.
Qed.

(** X10.  A comma that no variable follows makes [parseVarList] drop the
    whole list: it returns nil although it has read every variable and the
    comma, and [parseAssignment] then fails with "Expected variable in
    assignment, got something else", the tokens of the list being gone. *)
Theorem parseVarList_dangling_comma (vs : list (bool * string)) (rest : list Token)
    (w : World) (fuel : nat) :
  vs <> [] ->
  pending (tokens w) = separated varTokens vs ++ commaToken :: rest ->
  beginsVariable (nth 0 rest zeroToken) = false ->
  length vs < fuel ->
  (exists w', parseVarList fuel w = Some ([], w') /\
              forall i, stream w' i = nth i rest zeroToken) /\
  (exists w', parseAssignment fuel w
              = Some ((zeroAssignment,
                       Some (errors_New "Expected variable in assignment, got something else")),
                      w') /\
              forall i, stream w' i = nth i rest zeroToken).
Proof.
  intros Hne Hp Ht Hfuel.
  assert (Hq : exists t l, rest ++ [zeroToken] = t :: l /\ nth 0 rest zeroToken = t).
  { destruct rest as [|t l]; simpl; eauto. }
  destruct Hq as (t & l & Hq & Hn). rewrite Hn in Ht.
  destruct (@parseVarList_loop_dangling vs [] (padded w) fuel t l Hne) as (w1 & E & Hp1);
    try assumption.
  { rewrite padded_pending, Hp, <- app_assoc. simpl. rewrite Hq. reflexivity. }
  split.
  - apply from_padded; [apply respects_parseVarList_loop|].
    exists w1. split; [exact E | rewrite Hq; assumption].
  - apply from_padded; [apply respects_parseAssignment|].
    exists w1. split; [|rewrite Hq; assumption].
    unfold parseAssignment, parseVarList, bind. rewrite E. reflexivity.
Qed.

Lemma parseExpression_operand_pending (n : nat) (o : Operand) (t : Token)
    (l : list Token) (w : World) :
  pending (tokens w) = operandTokens o ++ t :: l ->
  tokenType t <> TOKEN_OPERATOR ->
  exists w', parseExpression (S n) w = Some ((operandExpression o, None), w') /\
             pending (tokens w') = t :: l.
Proof.
  intros Hp Ht. simpl. unfold parseExpression_body.
  destruct (parseUnaryExpression_operand (parseExpression n) o _ w Hp)
    as (e & w1 & E1 & Hp1).
  destruct (parseSimpleExpression_operand (parseExpression n) o _ w1 Hp1)
    as (w2 & E2 & Hp2).
  destruct (expectType_miss w2 Hp2 Ht) as (w3 & E3 & Hp3).
  exists w3. split; [|assumption].
  unfold bind at 1. rewrite E1. unfold bind at 1. rewrite E2.
  unfold parseExpression_binop, bind, call. rewrite E3. reflexivity.
Qed.

Lemma parseExpressionList_loop_reads (n : nat) (os : list Operand) :
  forall (acc : list Expression) (i : nat) (w : World) (fuel : nat) (t : Token)
         (l : list Token),
  os <> [] ->
  pending (tokens w) = separated operandTokens os ++ t :: l ->
  tokenType t <> TOKEN_OPERATOR ->
  isToken TOKEN_SEPARATOR "," t = false ->
  length os <= fuel ->
  exists w',
    parseExpressionList_loop (parseExpression (S n)) fuel i acc w
    = Some ((acc ++ map operandExpression os, None), w') /\
    pending (tokens w') = t :: l.
Proof.
  induction os as [|o os IH]; intros acc i w fuel t l Hne Hp Ht Hc Hfuel; [congruence|].
  destruct fuel as [|k]; [simpl in Hfuel; lia|].
  destruct os as [|o2 os].
  - simpl in Hp.
    destruct (@parseExpression_operand_pending n o t l w Hp Ht) as (w1 & E1 & Hp1).
    destruct (expect_miss TOKEN_SEPARATOR "," w1 Hp1 Hc) as (w2 & E2 & Hp2).
    exists w2. split; [|assumption].
    cbn [parseExpressionList_loop]. unfold bind at 1. rewrite E1.
    unfold bind, call. rewrite E2. reflexivity.
  - rewrite separated_cons in Hp. rewrite <- app_assoc in Hp. simpl in Hp.
    destruct (@parseExpression_operand_pending n o commaToken _ w Hp) as (w1 & E1 & Hp1);
      [discriminate|].
    destruct (expect_hit w1 Hp1) as (w2 & E2 & Hp2).
    destruct (IH (acc ++ [operandExpression o]) (i + 1) w2 k t l) as (w3 & E3 & Hp3);
      [discriminate | assumption | assumption | assumption | simpl in *; lia|].
    exists w3. split; [|assumption].
    cbn [parseExpressionList_loop]. unfold bind at 1. rewrite E1.
    unfold bind at 1, call at 1. rewrite E2. cbn [negb]. rewrite E3.
    rewrite <- app_assoc. reflexivity.
Qed.

(** X11.  On the tokens of [n] variables separated by commas, [=], and [m]
    operands separated by commas, [parseAssignment] returns without error the
    assignment with exactly these [n] targets and [m] values, for any [n] and
    [m] from one on: the two numbers need not be equal. *)
Theorem parseAssignment_reads (vs : list (bool * string)) (os : list Operand)
    (rest : list Token) (w : World) (fuel : nat) :
  vs <> [] -> os <> [] ->
  pending (tokens w)
  = separated varTokens vs ++ mkToken TOKEN_ASSIGNMENT "=" ::
    separated operandTokens os ++ rest ->
  tokenType (nth 0 rest zeroToken) <> TOKEN_OPERATOR ->
  isToken TOKEN_SEPARATOR "," (nth 0 rest zeroToken) = false ->
  length vs <= fuel -> length os <= fuel ->
  exists w',
    parseAssignment fuel w
    = Some ((mkAssignment (map varOf vs) (map operandExpression os), None), w') /\
    forall i, stream w' i = nth i rest zeroToken.
Proof.
  intros Hvs Hos Hp Hop Hc Hfv Hfo.
  assert (Hq : exists t l, rest ++ [zeroToken] = t :: l /\ nth 0 rest zeroToken = t).
  { destruct rest as [|t l]; simpl; eauto. }
  destruct Hq as (t & l & Hq & Hn). rewrite Hn in Hop, Hc.
  apply from_padded; [apply respects_parseAssignment|].
  destruct (@parseVarList_loop_reads vs [] (padded w) fuel
              (mkToken TOKEN_ASSIGNMENT "=") (separated operandTokens os ++ t :: l) Hvs)
    as (w1 & E1 & Hp1); try assumption; try reflexivity.
  { rewrite padded_pending, Hp, <- app_assoc. simpl. rewrite <- app_assoc, Hq. reflexivity. }
  destruct (expect_hit w1 Hp1) as (w2 & E2 & Hp2).
  destruct fuel as [|n]; [destruct os; [congruence | simpl in Hfo; lia]|].
  destruct (@parseExpressionList_loop_reads n os [] 0 w2 (S n) t l Hos Hp2 Hop Hc Hfo)
    as (w3 & E3 & Hp3).
  exists w3. split; [|rewrite Hq; assumption].
  unfold parseAssignment, parseVarList. unfold bind at 1. rewrite E1.
  assert (Hlen : Nat.eqb (length ([] ++ map varOf vs)) 0 = false).
  { destruct vs; [congruence | reflexivity]. }
  rewrite Hlen. unfold bind at 1, call at 1. rewrite E2. cbn [negb].
  unfold parseExpressionList, bind. rewrite E3. reflexivity.
Qed.

Lemma parseExpression_pair_pending (n : nat) (a b : Operand) (s : string) (t : Token)
    (l : list Token) (w : World) :
  pending (tokens w) = operandTokens a ++ mkToken TOKEN_OPERATOR s :: operandTokens b ++ t :: l ->
  tokenType t <> TOKEN_OPERATOR ->
  exists w',
    parseExpression (S (S n)) w
    = Some ((BinaryOp (getOperatorType s) (operandExpression a) (operandExpression b)
               TYPE_UNKNOWN, None), w') /\
    pending (tokens w') = t :: l.
Proof.
  intros Hp Ht.
  destruct (parseExpression_operand_operator (S n) a s _ w Hp) as (w1 & Hp1 & Ha).
  destruct (@parseExpression_operand_pending n b t l w1 Hp1 Ht) as (w2 & Hb & Hp2).
  exists w2. split; [apply Ha, Hb | assumption].
Qed.

(** X12.  A unary operator takes everything that follows as its operand:
    [- a OP b] and [! a OP b] parse to the unary node over the binary node
    [a OP b], for every binary operator, not to a binary node whose left
    operand is negated. *)
Theorem unary_operator_takes_the_chain (u s : string) (uop op : Operator) (a b : Operand)
    (rest : list Token) (w : World) (fuel : nat) :
  In (u, uop) unaryOperators ->
  In (s, op) binaryOperators ->
  pending (tokens w)
  = mkToken TOKEN_OPERATOR u ::
    operandTokens a ++ mkToken TOKEN_OPERATOR s :: operandTokens b ++ rest ->
  tokenType (nth 0 rest zeroToken) <> TOKEN_OPERATOR ->
  3 <= fuel ->
  exists w',
    parseExpression fuel w
    = Some ((UnaryOp uop
               (BinaryOp op (operandExpression a) (operandExpression b) TYPE_UNKNOWN)
               TYPE_UNKNOWN, None), w') /\
    forall i, stream w' i = nth i rest zeroToken.
Proof.
  intros Hu Hs Hp Hrest Hfuel.
  apply binaryOperators_getOperatorType in Hs. subst op.
  assert (Hq : exists t l, rest ++ [zeroToken] = t :: l /\ nth 0 rest zeroToken = t).
  { destruct rest as [|t l]; simpl; eauto. }
  destruct Hq as (t & l & Hq & Hn). rewrite Hn in Hrest.
  apply from_padded; [apply respects_parseExpression|].
  assert (Hpp : pending (tokens (padded w))
                = mkToken TOKEN_OPERATOR u ::
                  operandTokens a ++ mkToken TOKEN_OPERATOR s :: operandTokens b ++ t :: l).
  { rewrite padded_pending, Hp. simpl. rewrite <- app_assoc. simpl.
    rewrite <- app_assoc, Hq. reflexivity. }
  destruct fuel as [|[|[|n]]]; try lia.
  rewrite Hq.
  cbn [parseExpression]. unfold parseExpression_body at 1, parseUnaryExpression at 1.
  destruct Hu as [Hu | [Hu | []]]; inversion Hu; subst u uop.
  - destruct (expect_hit (padded w) Hpp) as (w1 & E1 & Hp1).
    destruct (@parseExpression_pair_pending n a b s t l w1 Hp1 Hrest) as (w2 & E2 & Hp2).
    destruct (expectType_miss w2 Hp2 Hrest) as (w3 & E3 & Hp3).
    exists w3. split; [|assumption].
    unfold bind at 1. unfold bind at 1, call at 1. rewrite E1.
    unfold bind at 1. cbn [parseExpression] in E2. rewrite E2.
    unfold ret at 1. unfold parseExpression_binop, bind, call. rewrite E3. reflexivity.
  - destruct (@expect_miss TOKEN_OPERATOR "-" (padded w) _ _ Hpp) as (w0 & E0 & Hp0);
      [reflexivity|].
    destruct (expect_hit w0 Hp0) as (w1 & E1 & Hp1).
    destruct (@parseExpression_pair_pending n a b s t l w1 Hp1 Hrest) as (w2 & E2 & Hp2).
    destruct (expectType_miss w2 Hp2 Hrest) as (w3 & E3 & Hp3).
    exists w3. split; [|assumption].
    unfold bind at 1. unfold bind at 1, call at 1. rewrite E0.
    unfold bind at 1, call at 1. rewrite E1.
    unfold bind at 1. cbn [parseExpression] in E2. rewrite E2.
    unfold ret at 1. unfold parseExpression_binop, bind, call. rewrite E3. reflexivity.
Qed.

(** X13.  Parentheses leave no node in the tree and are the only way to nest
    to the left: [( a OP1 b ) OP2 c] parses to the binary node [OP2] whose
    left operand is the binary node [a OP1 b] itself. *)
Theorem parentheses_nest_left (s1 s2 : string) (op1 op2 : Operator) (a b c : Operand)
    (rest : list Token) (w : World) (fuel : nat) :
  In (s1, op1) binaryOperators ->
  In (s2, op2) binaryOperators ->
  pending (tokens w)
  = mkToken TOKEN_PARENTHESIS_OPEN "(" ::
    operandTokens a ++ mkToken TOKEN_OPERATOR s1 :: operandTokens b ++
    mkToken TOKEN_PARENTHESIS_CLOSE ")" :: mkToken TOKEN_OPERATOR s2 ::
    operandTokens c ++ rest ->
  tokenType (nth 0 rest zeroToken) <> TOKEN_OPERATOR ->
  3 <= fuel ->
  exists w',
    parseExpression fuel w
    = Some ((BinaryOp op2
               (BinaryOp op1 (operandExpression a) (operandExpression b) TYPE_UNKNOWN)
               (operandExpression c) TYPE_UNKNOWN, None), w') /\
    forall i, stream w' i = nth i rest zeroToken.
Proof.
  intros H1 H2 Hp Hrest Hfuel.
  apply binaryOperators_getOperatorType in H1, H2. subst op1 op2.
  destruct fuel as [|[|[|n]]]; try lia.
  set (open := mkToken TOKEN_PARENTHESIS_OPEN "(") in *.
  destruct (@expect_miss TOKEN_OPERATOR "-" w open _ Hp) as (w1 & E1 & Hp1); [reflexivity|].
  destruct (@expect_miss TOKEN_OPERATOR "!" w1 open _ Hp1) as (w2 & E2 & Hp2); [reflexivity|].
  destruct (@expect_miss TOKEN_KEYWORD "shadow" w2 open _ Hp2) as (w3 & E3 & Hp3);
    [reflexivity|].
  destruct (@expectType_miss TOKEN_IDENTIFIER w3 open _ Hp3) as (w4 & E4 & Hp4);
    [discriminate|].
  destruct (@expectType_miss TOKEN_CONSTANT w4 open _ Hp4) as (w5 & E5 & Hp5);
    [discriminate|].
  destruct (expect_hit w5 Hp5) as (w6 & E6 & Hp6).
  destruct (@parseExpression_pair_pending n a b s1 _ _ w6 Hp6) as (w7 & E7 & Hp7);
    [discriminate|].
  destruct (expect_hit w7 Hp7) as (w8 & E8 & Hp8).
  destruct (expectType_hit w8 Hp8) as (w9 & E9 & Hp9).
  destruct (@parseExpression_operand (S n) c rest w9 Hp9 Hrest) as (w10 & E10 & Hs).
  exists w10. split; [|assumption].
  cbn [parseExpression]. cbn [parseExpression] in E7, E10.
  unfold parseExpression_body at 1.
  unfold parseUnaryExpression at 1.
  unfold bind at 1. unfold bind at 1, call at 1. rewrite E1.
  unfold bind at 1, call at 1. rewrite E2. unfold ret at 1.
  unfold parseSimpleExpression at 1, parseVariable, parseConstant.
  unfold bind at 1. unfold bind at 1, call at 1. rewrite E3, E4.
  unfold bind at 1, call at 1. rewrite E5.
  unfold bind at 1, call at 1. rewrite E6.
  unfold bind at 1. rewrite E7.
  unfold bind at 1, call at 1. rewrite E8. unfold ret at 1.
  unfold parseExpression_binop at 1.
  unfold bind at 1, call at 1. rewrite E9.
  unfold bind at 1. rewrite E10. reflexivity.
Qed.

End Parser.

(* ================================================================= *)
(** ** Literal types *)

Lemma append_assoc (s1 s2 s3 : string) :
  ((s1 ++ s2) ++ s3)%string = (s1 ++ (s2 ++ s3))%string.
Proof. induction s1 as [|a s1 IH]; simpl; [reflexivity | rewrite IH; reflexivity]. Qed.

Lemma append_eq_nil (s1 s2 : string) :
  (s1 ++ s2)%string = EmptyString -> s1 = EmptyString /\ s2 = EmptyString.
Proof. destruct s1; simpl; [auto | discriminate]. Qed.

Lemma matches_Cat (r1 r2 : regexp) (s : string) :
  matches (Cat r1 r2) s <->
  exists s1 s2, s = (s1 ++ s2)%string /\ matches r1 s1 /\ matches r2 s2.
Proof.
  split.
  - intros H. inversion H; subst. eauto.
  - intros (s1 & s2 & -> & H1 & H2). constructor; assumption.
Qed.

Lemma matches_Alt (r1 r2 : regexp) (s : string) :
  matches (Alt r1 r2) s <-> matches r1 s \/ matches r2 s.
Proof.
  split.
  - intros H. inversion H; subst; auto.
  - intros [H|H]; [apply MAltL | apply MAltR]; assumption.
Qed.

Lemma nullable_matches (r : regexp) : nullable r = true <-> matches r EmptyString.
Proof.
  split.
  - induction r; simpl; intros H; try discriminate.
    + constructor.
    + apply andb_prop in H. destruct H as [H1 H2].
      change EmptyString with (EmptyString ++ EmptyString)%string. constructor; auto.
    + apply orb_prop in H. destruct H as [H|H]; [apply MAltL | apply MAltR]; auto.
    + constructor.
  - intros H. remember EmptyString as s eqn:Hs.
    induction H; simpl; try reflexivity; try discriminate.
    + apply append_eq_nil in Hs. destruct Hs as [-> ->].
      rewrite IHmatches1, IHmatches2; reflexivity.
    + rewrite (IHmatches Hs); reflexivity.
    + rewrite (IHmatches Hs); apply orb_true_r.
Qed.

Lemma star_cons (r : regexp) (a : ascii) (s : string) :
  matches (Star r) (String a s) ->
  exists s1 s2, s = (s1 ++ s2)%string /\ matches r (String a s1) /\ matches (Star r) s2.
Proof.
  intros H. remember (Star r) as r' eqn:Hr. remember (String a s) as s' eqn:Hs.
  revert a s Hs. induction H; try discriminate; intros a0 s0 Hs.
  inversion Hr; subst r0. clear IHmatches1.
  destruct s1 as [|a1 s1]; simpl in Hs.
  - apply IHmatches2; [reflexivity | assumption].
  - inversion Hs; subst. eauto.
Qed.

Lemma deriv_matches (a : ascii) (r : regexp) :
  forall s, matches (deriv a r) s <-> matches r (String a s).
Proof.
  induction r as [| |p|r1 IH1 r2 IH2|r1 IH1 r2 IH2|r IH]; intros s; simpl.
  - split; intros H; inversion H.
  - split; intros H; inversion H.
  - destruct (p a) eqn:Hp; split; intros H; inversion H; subst.
    + constructor; assumption.
    + constructor.
    + congruence.
  - assert (Hcat : matches (Cat (deriv a r1) r2) s -> matches (Cat r1 r2) (String a s)).
    { intros H. inversion H; subst.
      change (String a (s1 ++ s2)%string) with (String a s1 ++ s2)%string.
      constructor; [apply IH1|]; assumption. }
    split.
    + destruct (nullable r1) eqn:Hn; intros H; [|auto].
      inversion H; subst; [auto|].
      change (String a s) with (EmptyString ++ String a s)%string.
      constructor; [apply nullable_matches | apply IH2]; assumption.
    + intros H. inversion H; subst.
      destruct s1 as [|a1 s1]; simpl in *.
      * subst s2. apply nullable_matches in H3. rewrite H3.
        apply MAltR, IH2. assumption.
      * inversion H2; subst.
        assert (matches (Cat (deriv a r1) r2) (s1 ++ s2)%string)
          by (constructor; [apply IH1|]; assumption).
        destruct (nullable r1); [apply MAltL|]; assumption.
  - split; intros H; inversion H; subst;
      solve [apply MAltL, IH1; assumption | apply MAltR, IH2; assumption].
  - split.
    + intros H. inversion H; subst.
      change (String a (s1 ++ s2)%string) with (String a s1 ++ s2)%string.
      constructor; [apply IH|]; assumption.
    + intros H. apply star_cons in H. destruct H as (s1 & s2 & -> & H1 & H2).
      constructor; [apply IH|]; assumption.
Qed.

(** The pattern is found exactly when a prefix of the text matches it. *)
Lemma FindIndex_found_spec (s : string) : forall r : regexp,
  FindIndex_found r s = true <-> exists p q, s = (p ++ q)%string /\ matches r p.
Proof.
  induction s as [|a s IH]; intros r; simpl.
  - rewrite orb_false_r, nullable_matches. split.
    + intros H. exists EmptyString, EmptyString. auto.
    + intros (p & q & Hs & H). symmetry in Hs. apply append_eq_nil in Hs.
      destruct Hs as [-> _]. assumption.
  - split.
    + intros H. apply orb_prop in H. destruct H as [H|H].
      * exists EmptyString, (String a s). split; [reflexivity | apply nullable_matches; assumption].
      * apply IH in H. destruct H as (p & q & -> & H).
        exists (String a p), q. split; [reflexivity | apply deriv_matches; assumption].
    + intros (p & q & Hs & H). destruct p as [|a1 p]; simpl in Hs.
      * apply nullable_matches in H. rewrite H. reflexivity.
      * inversion Hs; subst. apply orb_true_intro. right.
        apply IH. exists p, q. split; [reflexivity | apply deriv_matches; assumption].
Qed.

Lemma matches_Lit (c : ascii) (s : string) :
  matches (Lit c) s <-> s = String c EmptyString.
Proof.
  unfold Lit. split.
  - intros H. inversion H; subst. apply Ascii.eqb_eq in H1. subst. reflexivity.
  - intros ->. constructor. apply Ascii.eqb_refl.
Qed.

Lemma matches_Star_Class (p : ascii -> bool) (s : string) :
  matches (Star (Class p)) s <-> allChars p s.
Proof.
  split.
  - intros H. remember (Star (Class p)) as r eqn:Hr.
    induction H; try discriminate; [exact I|].
    injection Hr as ->. inversion H; subst. simpl.
    split; [assumption | apply IHmatches2; reflexivity].
  - induction s as [|a s IH]; simpl.
    + intros _. constructor.
    + intros [Ha Hs].
      change (String a s) with (String a EmptyString ++ s)%string.
      constructor; [constructor; assumption | auto].
Qed.

Lemma matches_Plus_Class (p : ascii -> bool) (s : string) :
  matches (Plus (Class p)) s <-> s <> EmptyString /\ allChars p s.
Proof.
  unfold Plus. rewrite matches_Cat. split.
  - intros (s1 & s2 & -> & H1 & H2). inversion H1; subst.
    apply matches_Star_Class in H2. simpl. split; [discriminate | auto].
  - intros [Hne Hall]. destruct s as [|a s]; [congruence|]. simpl in Hall.
    exists (String a EmptyString), s. split; [reflexivity|].
    split; [constructor; tauto | apply matches_Star_Class; tauto].
Qed.

Lemma matches_Opt_Lit (c : ascii) (s : string) :
  matches (Opt (Lit c)) s <-> s = EmptyString \/ s = String c EmptyString.
Proof.
  unfold Opt. split.
  - intros H. inversion H; subst.
    + right. apply matches_Lit. assumption.
    + left. inversion H3. reflexivity.
  - intros [-> | ->]; [apply MAltR; constructor | apply MAltL, matches_Lit; reflexivity].
Qed.

Lemma matches_Word (word s : string) : matches (Word word) s <-> s = word.
Proof.
  revert s. induction word as [|a word IH]; intros s; simpl.
  - split; [intros H; inversion H; reflexivity | intros ->; constructor].
  - rewrite matches_Cat. split.
    + intros (s1 & s2 & -> & H1 & H2). apply matches_Lit in H1. apply IH in H2.
      subst. reflexivity.
    + intros ->. exists (String a EmptyString), word.
      split; [reflexivity|]. split; [apply matches_Lit | apply IH]; reflexivity.
Qed.

Lemma rFloat_found (s : string) : FindIndex_found rFloat s = true <-> floatShape s.
Proof.
  rewrite FindIndex_found_spec. unfold rFloat, floatShape, allDigits. split.
  - intros (p & q & -> & H).
    apply matches_Cat in H. destruct H as (sign & p1 & -> & Hsign & H).
    apply matches_Cat in H. destruct H as (ds & p2 & -> & Hds & H).
    apply matches_Cat in H. destruct H as (dot & frac & -> & Hdot & Hfrac).
    apply matches_Opt_Lit in Hsign. apply matches_Plus_Class in Hds.
    apply matches_Lit in Hdot. apply matches_Star_Class in Hfrac. subst dot.
    exists sign, ds, frac, q. split; [|unfold optSign; tauto].
    rewrite !append_assoc. reflexivity.
  - intros (sign & ds & frac & rest & -> & Hsign & Hne & Hds & Hfrac).
    exists (sign ++ ds ++ "." ++ frac)%string, rest. split.
    + rewrite !append_assoc. reflexivity.
    + constructor; [apply matches_Opt_Lit; assumption|].
      constructor; [apply matches_Plus_Class; auto|].
      change ("." ++ frac)%string with (String "."%char EmptyString ++ frac)%string.
      constructor; [apply matches_Lit; reflexivity | apply matches_Star_Class; assumption].
Qed.

Lemma rInt_found (s : string) : FindIndex_found rInt s = true <-> intShape s.
Proof.
  rewrite FindIndex_found_spec. unfold rInt, intShape, allDigits. split.
  - intros (p & q & -> & H).
    apply matches_Cat in H. destruct H as (sign & ds & -> & Hsign & Hds).
    apply matches_Opt_Lit in Hsign. apply matches_Plus_Class in Hds.
    exists sign, ds, q. split; [|unfold optSign; tauto].
    rewrite !append_assoc. reflexivity.
  - intros (sign & ds & rest & -> & Hsign & Hne & Hds).
    exists (sign ++ ds)%string, rest. split.
    + rewrite !append_assoc. reflexivity.
    + constructor; [apply matches_Opt_Lit; assumption | apply matches_Plus_Class; auto].
Qed.

Lemma rString_found (s : string) : FindIndex_found rString s = true <-> stringShape s.
Proof.
  rewrite FindIndex_found_spec. unfold rString, stringShape. split.
  - intros (p & q & -> & H).
    apply matches_Cat in H. destruct H as (q1 & p1 & -> & Hq1 & H).
    apply matches_Cat in H. destruct H as (body & q2 & -> & Hbody & Hq2).
    apply matches_Lit in Hq1, Hq2. apply matches_Star_Class in Hbody. subst q1 q2.
    exists body, q. split; [|assumption].
    simpl. rewrite append_assoc. reflexivity.
  - intros (body & rest & -> & Hbody).
    exists (String quote (body ++ String quote EmptyString))%string, rest. split.
    + simpl. rewrite append_assoc. reflexivity.
    + change (String quote (body ++ String quote EmptyString))%string
        with (String quote EmptyString ++ (body ++ String quote EmptyString))%string.
      constructor; [apply matches_Lit; reflexivity|].
      constructor; [apply matches_Star_Class; assumption | apply matches_Lit; reflexivity].
Qed.

Lemma rBool_found (s : string) : FindIndex_found rBool s = true <-> boolShape s.
Proof.
  rewrite FindIndex_found_spec. unfold rBool, boolShape. split.
  - intros (p & q & -> & H). exists q.
    apply matches_Alt in H. destruct H as [H|H]; apply matches_Word in H; subst; auto.
  - intros (rest & [-> | ->]).
    + exists "true"%string, rest. split; [reflexivity | apply MAltL, matches_Word; reflexivity].
    + exists "false"%string, rest. split; [reflexivity | apply MAltR, matches_Word; reflexivity].
Qed.

(** C6.  [getConstType] tries the float shape, then the int shape, then the
    quoted-string shape, then the boolean keywords, each against the beginning
    of the text; the first shape that matches gives the type, and a text that
    matches none is [TYPE_UNKNOWN]. *)
Theorem getConstType_first_shape_wins (c : string) :
  (floatShape c -> getConstType c = TYPE_FLOAT) /\
  (~ floatShape c -> intShape c -> getConstType c = TYPE_INT) /\
  (~ floatShape c -> ~ intShape c -> stringShape c -> getConstType c = TYPE_STRING) /\
  (~ floatShape c -> ~ intShape c -> ~ stringShape c -> boolShape c ->
   getConstType c = TYPE_BOOL) /\
  (~ floatShape c -> ~ intShape c -> ~ stringShape c -> ~ boolShape c ->
   getConstType c = TYPE_UNKNOWN).
Proof.
  unfold getConstType.
  pose proof (rFloat_found c) as Hf. pose proof (rInt_found c) as Hi.
  pose proof (rString_found c) as Hs. pose proof (rBool_found c) as Hb.
  destruct (FindIndex_found rFloat c);
    [repeat split; try reflexivity; intros N; exfalso; apply N, Hf; reflexivity|].
  assert (Nf : ~ floatShape c) by (intros F; apply Hf in F; discriminate).
  split; [contradiction|].
  destruct (FindIndex_found rInt c);
    [repeat split; try reflexivity; intros _ N; exfalso; apply N, Hi; reflexivity|].
  assert (Ni : ~ intShape c) by (intros F; apply Hi in F; discriminate).
  split; [intros; contradiction|].
  destruct (FindIndex_found rString c);
    [repeat split; try reflexivity; intros _ _ N; exfalso; apply N, Hs; reflexivity|].
  assert (Ns : ~ stringShape c) by (intros F; apply Hs in F; discriminate).
  split; [intros; contradiction|].
  destruct (FindIndex_found rBool c);
    [repeat split; try reflexivity; intros _ _ _ N; exfalso; apply N, Hb; reflexivity|].
  assert (Nb : ~ boolShape c) by (intros F; apply Hb in F; discriminate).
  split; [intros; contradiction | reflexivity].
Qed.

Lemma getConstType_first_shape_wins_witness :
  floatShape "10000.1234" /\ getConstType "10000.1234" = TYPE_FLOAT.
Proof.
  assert (F : floatShape "10000.1234").
  { exists EmptyString, "10000"%string, "1234"%string, EmptyString.
    unfold optSign, allDigits. simpl. repeat split; auto. discriminate. }
  split; [exact F | exact (proj1 (getConstType_first_shape_wins "10000.1234") F)].
Defined.

(* ================================================================= *)
(** ** Instances and counterexamples *)

Lemma pushBack_one_token_witness :
  fst (next TOKEN_IDENTIFIER (pushBack tokA (startWorld TOKEN_IDENTIFIER [tokB] []))) = tokA.
Proof.
  exact (proj1 (proj2 (proj2 (proj1
    (pushBack_one_token TOKEN_IDENTIFIER tokA (startWorld TOKEN_IDENTIFIER [tokB] []))
    eq_refl)))).
Defined.

Lemma next_exhausted_witness :
  fst (next TOKEN_IDENTIFIER (startWorld TOKEN_IDENTIFIER [] []))
  = zeroToken TOKEN_IDENTIFIER /\
  length (fst (nextN TOKEN_IDENTIFIER 3 (startWorld TOKEN_IDENTIFIER [] []))) = 3.
Proof.
  pose proof (@next_exhausted TOKEN_IDENTIFIER (startWorld TOKEN_IDENTIFIER [] []) 3
                eq_refl eq_refl) as H.
  split; [exact (proj1 H) | exact (proj1 (proj2 (proj2 (proj2 H))))].
Defined.

(** [a + b * c] *)
Lemma binary_chain_nests_right_witness :
  exists w',
    parseExpression TOKEN_IDENTIFIER 3
      (startWorld TOKEN_IDENTIFIER
         [tokA; mkToken TOKEN_OPERATOR "+"; tokB; mkToken TOKEN_OPERATOR "*"; tokC] [])
    = Some ((BinaryOp OP_PLUS (EVariable (mkVariable TYPE_UNKNOWN "a" false))
               (BinaryOp OP_MULT (EVariable (mkVariable TYPE_UNKNOWN "b" false))
                  (EVariable (mkVariable TYPE_UNKNOWN "c" false)) TYPE_UNKNOWN)
               TYPE_UNKNOWN, None), w') /\
    forall i, stream TOKEN_IDENTIFIER w' i = nth i [] (zeroToken TOKEN_IDENTIFIER).
Proof.
  apply (@binary_chain_nests_right TOKEN_IDENTIFIER
           (OVariable false "a") (OVariable false "b") (OVariable false "c")
           "+" "*" OP_PLUS OP_MULT []).
  - simpl. auto.
  - simpl. auto.
  - reflexivity.
  - simpl. discriminate.
  - lia.
Defined.

(** A loop header [for ; ...]: no expression begins at the semicolon. *)
Lemma parseExpressionList_empty_or_dangling_separator_witness :
  (exists w',
     parseExpressionList TOKEN_IDENTIFIER 1
       (startWorld TOKEN_IDENTIFIER [mkToken TOKEN_SEMICOLON ";"] [])
     = Some (([], None), w')) /\
  (exists k,
     isToken TOKEN_SEPARATOR ","
       (stream TOKEN_IDENTIFIER
          (startWorld TOKEN_IDENTIFIER [tokA; commaToken; mkToken TOKEN_SEMICOLON ";"] []) k)
     = true).
Proof.
  split.
  - destruct (proj1 (parseExpressionList_empty_or_dangling_separator TOKEN_IDENTIFIER) 0
                (startWorld TOKEN_IDENTIFIER [mkToken TOKEN_SEMICOLON ";"] []) eq_refl)
      as (w' & H & _).
    exists w'. exact H.
  - assert (H : parseExpressionList TOKEN_IDENTIFIER 2
                  (startWorld TOKEN_IDENTIFIER
                     [tokA; commaToken; mkToken TOKEN_SEMICOLON ";"] [])
                = Some (([], Some (errors_New
                     "Expected expression in expression list after ',', got something else")),
                        mkWorld (mkTokenChannel [] true (mkToken TOKEN_SEMICOLON ";")) []))
      by (vm_compute; reflexivity).
    destruct (proj2 (parseExpressionList_empty_or_dangling_separator TOKEN_IDENTIFIER)
                _ _ _ _ _ H)
      as (_ & _ & items & w3 & k & x & e' & _ & _ & Hk & _).
    exists k. exact Hk.
Defined.

Lemma parseStatementList_never_fails_witness :
  exists b w',
    parseStatementList TOKEN_IDENTIFIER 8 (startWorld TOKEN_IDENTIFIER trailingGarbage [])
    = Some ((b, None), w').
Proof.
  apply (proj1 (proj2 (proj2 (proj2 (proj2 (proj2 (proj2
           (parseStatementList_never_fails TOKEN_IDENTIFIER)))))))).
  vm_compute. lia.
Defined.

Lemma failed_first_token_is_pushed_back_witness :
  exists e w',
    parseCondition TOKEN_IDENTIFIER 1 (parseStatementList TOKEN_IDENTIFIER 0)
      (startWorld TOKEN_IDENTIFIER [mkToken TOKEN_KEYWORD "for"] [])
    = Some ((zeroCondition, Some e), w') /\
    sameStream TOKEN_IDENTIFIER (startWorld TOKEN_IDENTIFIER [mkToken TOKEN_KEYWORD "for"] []) w'.
Proof.
  apply (proj1 (proj2 (proj2 (proj2 (proj2 (proj2 (proj2
           (failed_first_token_is_pushed_back TOKEN_IDENTIFIER)))))))).
  reflexivity.
Defined.




(** C3, as stated, fails on [shadow 5]: [parseVariable] does not match, the
    constant it stopped at is pushed back, and the keyword it had consumed
    is gone.  It fails on [if a )] as well: [parseCondition] does not match
    and only the parenthesis is left. *)
Lemma failed_production_may_consume_tokens :
  ~ (forall (zeroType : TokenType) (w w' : World) (v : Variable_),
       parseVariable zeroType w = ((v, false), w') -> sameStream zeroType w w') /\
  ~ (forall (zeroType : TokenType) (fuel : nat) (w w' : World) (x : Condition) (e : error),
       parseCondition zeroType fuel (parseStatementList zeroType fuel) w
       = Some ((x, Some e), w') ->
       sameStream zeroType w w').
Proof.
  split; intros H.
  - specialize (H TOKEN_IDENTIFIER
                  (startWorld TOKEN_IDENTIFIER
                     [mkToken TOKEN_KEYWORD "shadow"; mkToken TOKEN_CONSTANT "5"] [])
                  _ _ eq_refl 0).
    vm_compute in H. discriminate H.
  - specialize (H TOKEN_IDENTIFIER 2
                  (startWorld TOKEN_IDENTIFIER
                     [mkToken TOKEN_KEYWORD "if"; tokA; mkToken TOKEN_PARENTHESIS_CLOSE ")"] [])
                  _ _ _ eq_refl 0).
    vm_compute in H. discriminate H.
Qed.

(* ================================================================= *)
(** ** Printing and reading operators *)

(** X1.  Reading back the text an operator prints as gives the operator
    again, for every operator but the unary minus: [OP_NEGATIVE] prints as
    [-], which reads back as the binary [OP_MINUS]. *)
Theorem getOperatorType_of_String (o : Operator) :
  getOperatorType (Operator_String o) = (if Operator_eq_dec o OP_NEGATIVE then OP_MINUS else o).
Proof. destruct o; reflexivity. Qed.

(** X2.  [getOperatorType] never answers [OP_NEGATIVE], and whenever it
    answers something else than [OP_UNKNOWN] the text it was given is the
    one that operator prints as: a text that is none of the thirteen
    spellings reads as [OP_UNKNOWN]. *)
Theorem String_of_getOperatorType (text : string) :
  getOperatorType text <> OP_NEGATIVE /\
  (getOperatorType text <> OP_UNKNOWN -> Operator_String (getOperatorType text) = text).
Proof.
  unfold getOperatorType.
  repeat match goal with
         | |- context [String.eqb text ?x] =>
             destruct (String.eqb_spec text x); [subst; split; [discriminate | reflexivity]|]
         end.
  split; [discriminate | congruence].
Qed.

Lemma String_of_getOperatorType_witness :
  Operator_String (getOperatorType "<=") = "<=".
Proof. apply (proj2 (String_of_getOperatorType "<=")). discriminate. Defined.

(** X3.  Printing a binary node leaves out the grouping: [(a OP2 b) OP1 c]
    and [a OP2 (b OP1 c)] print as the same text, and the result types of
    the nodes are not printed. *)
Theorem BinaryOp_String_forgets_grouping (op1 op2 : Operator) (a b c : Expression)
    (t1 t2 t3 t4 : Type_) :
  Expression_String (BinaryOp op1 (BinaryOp op2 a b t1) c t2)
  = Expression_String (BinaryOp op2 a (BinaryOp op1 b c t3) t4).
Proof.
  simpl. repeat (rewrite append_assoc; simpl). reflexivity.
Qed.

(* ================================================================= *)
(** ** Comparing trees *)

Lemma Type_eqb_true (a b : Type_) : Type_eqb a b = true <-> a = b.
Proof. unfold Type_eqb. destruct (Type_eq_dec a b); split; congruence. Qed.

Lemma Operator_eqb_true (a b : Operator) : Operator_eqb a b = true <-> a = b.
Proof. unfold Operator_eqb. destruct (Operator_eq_dec a b); split; congruence. Qed.

Lemma Constant_eq_true (e e2 : Constant) : Constant_eq e e2 = true <-> e = e2.
Proof.
  unfold Constant_eq. rewrite andb_true_iff, Type_eqb_true, String.eqb_eq.
  destruct e, e2; simpl. split; [intros [-> ->]; reflexivity | intros H; inversion H; auto].
Qed.

Lemma Variable_eq_true (e e2 : Variable_) : Variable_eq e e2 = true <-> e = e2.
Proof.
  unfold Variable_eq.
  rewrite !andb_true_iff, Type_eqb_true, String.eqb_eq, Bool.eqb_true_iff.
  destruct e, e2; simpl.
  split; [intros [[-> ->] ->]; reflexivity | intros H; inversion H; auto].
Qed.

Lemma compareExpression_true (e1 : Expression) :
  forall e2, fst (compareExpression e1 e2) = true <->
             withoutNil e1 /\ forgetOpTypes e1 = forgetOpTypes e2.
Proof.
  induction e1 as [| v1 | v1 | o1 l1 IHl r1 IHr t1 | o1 x1 IHx t1]; intros e2.
  all: destruct e2 as [| v2 | v2 | o2 l2 r2 t2 | o2 x2 t2]; simpl.
  all: try (split; [intros H; discriminate H | intros [H1 H2]; try contradiction; discriminate H2]).
  - destruct (Variable_eq v1 v2) eqn:E; simpl.
    + apply Variable_eq_true in E. subst. tauto.
    + split; [discriminate|]. intros [_ H]. inversion H; subst.
      rewrite (proj2 (Variable_eq_true v2 v2) eq_refl) in E. discriminate E.
  - destruct (Constant_eq v1 v2) eqn:E; simpl.
    + apply Constant_eq_true in E. subst. tauto.
    + split; [discriminate|]. intros [_ H]. inversion H; subst.
      rewrite (proj2 (Constant_eq_true v2 v2) eq_refl) in E. discriminate E.
  - specialize (IHl l2). specialize (IHr r2).
    destruct (compareExpression l1 l2) as [ok1 err1].
    destruct (compareExpression r1 r2) as [ok2 err2]. simpl in *.
    rewrite !andb_true_iff, Operator_eqb_true, IHl, IHr.
    split.
    + intros [[[H1 H2] [H3 H4]] ->]. rewrite H2, H4. tauto.
    + intros [[H1 H3] H]. inversion H; subst. tauto.
  - specialize (IHx x2).
    destruct (compareExpression x1 x2) as [ok1 err1]. simpl in *.
    rewrite !andb_true_iff, Operator_eqb_true, IHx.
    split.
    + intros [-> [H1 H2]]. rewrite H2. tauto.
    + intros [H1 H]. inversion H; subst. tauto.
Qed.

Lemma compareExpression_quiet (e1 : Expression) :
  forall e2, fst (compareExpression e1 e2) = true ->
             snd (compareExpression e1 e2) = EmptyString.
Proof.
  induction e1 as [| v1 | v1 | o1 l1 IHl r1 IHr t1 | o1 x1 IHx t1]; intros e2.
  all: destruct e2 as [| v2 | v2 | o2 l2 r2 t2 | o2 x2 t2]; simpl; try discriminate.
  - destruct (Variable_eq v1 v2); simpl; [reflexivity | discriminate].
  - destruct (Constant_eq v1 v2); simpl; [reflexivity | discriminate].
  - specialize (IHl l2). specialize (IHr r2).
    destruct (compareExpression l1 l2) as [ok1 err1].
    destruct (compareExpression r1 r2) as [ok2 err2]. simpl in *.
    rewrite !andb_true_iff. intros [[H1 H2] _].
    rewrite (IHl H1), (IHr H2). reflexivity.
  - specialize (IHx x2).
    destruct (compareExpression x1 x2) as [ok1 err1]. simpl in *.
    rewrite !andb_true_iff. intros [_ H1]. auto.
Qed.

(** X14.  [compareExpression] finds two expressions equal exactly when the
    first has no nil node and the two are the same once the result types of
    their binary and unary nodes are left out: it compares operators,
    operands, variables and constants, but never [opType].  When it finds
    them equal its message is empty. *)
Theorem compareExpression_verdict (e1 e2 : Expression) :
  (fst (compareExpression e1 e2) = true <->
   withoutNil e1 /\ forgetOpTypes e1 = forgetOpTypes e2) /\
  (fst (compareExpression e1 e2) = true -> snd (compareExpression e1 e2) = EmptyString).
Proof.
  split; [apply compareExpression_true | apply compareExpression_quiet].
Qed.

Lemma compareExpressions_loop_true (ee1 : list Expression) :
  forall ee2, length ee1 = length ee2 ->
    (fst (compareExpressions_loop ee1 ee2) = true <->
     Forall withoutNil ee1 /\ map forgetOpTypes ee1 = map forgetOpTypes ee2) /\
    (fst (compareExpressions_loop ee1 ee2) = true ->
     snd (compareExpressions_loop ee1 ee2) = EmptyString).
Proof.
  induction ee1 as [|v1 rest1 IH]; intros [|v2 rest2] Hlen; simpl in Hlen; try discriminate.
  - simpl. split; [|reflexivity]. split; auto.
  - injection Hlen as Hlen. destruct (IH rest2 Hlen) as [IH1 IH2]. simpl.
    pose proof (compareExpression_true v1 v2) as Hv.
    destruct (compareExpression v1 v2) as [b e]. simpl in Hv.
    destruct b; simpl.
    + split; [|assumption]. rewrite IH1. split.
      * intros [H1 H2]. destruct (proj1 Hv eq_refl) as [H3 H4].
        split; [constructor; assumption | congruence].
      * intros [H1 H2]. inversion H1; subst. injection H2 as _ H2. tauto.
    + split; [|discriminate]. split; [discriminate|].
      intros [H1 H2]. inversion H1; subst. injection H2 as H2 _.
      apply Hv. tauto.
Qed.

Lemma compareExpressions_true (ee1 ee2 : list Expression) :
  (fst (compareExpressions ee1 ee2) = true <->
   Forall withoutNil ee1 /\ map forgetOpTypes ee1 = map forgetOpTypes ee2) /\
  (fst (compareExpressions ee1 ee2) = true -> snd (compareExpressions ee1 ee2) = EmptyString).
Proof.
  unfold compareExpressions.
  destruct (Nat.eqb (length ee1) (length ee2)) eqn:E; simpl.
  - apply Nat.eqb_eq in E. apply compareExpressions_loop_true. assumption.
  - apply Nat.eqb_neq in E. split; [|discriminate]. split; [discriminate|].
    intros [_ H]. exfalso. apply E.
    rewrite <- (length_map forgetOpTypes ee1), H. apply length_map.
Qed.

Lemma compareVariables_loop_true (vv1 : list Variable_) :
  forall vv2, length vv1 = length vv2 ->
    (fst (compareVariables_loop vv1 vv2) = true <-> vv1 = vv2) /\
    (fst (compareVariables_loop vv1 vv2) = true ->
     snd (compareVariables_loop vv1 vv2) = EmptyString).
Proof.
  induction vv1 as [|v1 rest1 IH]; intros [|v2 rest2] Hlen; simpl in Hlen; try discriminate.
  - simpl. split; [|reflexivity]. split; auto.
  - injection Hlen as Hlen. destruct (IH rest2 Hlen) as [IH1 IH2]. simpl.
    pose proof (Variable_eq_true v1 v2) as Hv.
    destruct (Variable_eq v1 v2); simpl.
    + split; [|assumption]. rewrite IH1. split.
      * intros ->. f_equal. apply Hv. reflexivity.
      * intros H. injection H as _ H. assumption.
    + split; [|discriminate]. split; [discriminate|].
      intros H. injection H as H _. apply Hv. assumption.
Qed.

Lemma compareVariables_true (vv1 vv2 : list Variable_) :
  (fst (compareVariables vv1 vv2) = true <-> vv1 = vv2) /\
  (fst (compareVariables vv1 vv2) = true -> snd (compareVariables vv1 vv2) = EmptyString).
Proof.
  unfold compareVariables.
  destruct (Nat.eqb (length vv1) (length vv2)) eqn:E; simpl.
  - apply Nat.eqb_eq in E. apply compareVariables_loop_true. assumption.
  - apply Nat.eqb_neq in E. split; [|discriminate]. split; [discriminate|].
    intros H. exfalso. apply E. rewrite H. reflexivity.
Qed.

Lemma compareAssignment_true (v1 v2 : Assignment) :
  (fst (compareAssignment v1 v2) = true <->
   Forall withoutNil (expressions v1) /\ forgetAssignment v1 = forgetAssignment v2) /\
  (fst (compareAssignment v1 v2) = true -> snd (compareAssignment v1 v2) = EmptyString).
Proof.
  unfold compareAssignment, forgetAssignment.
  destruct (compareVariables_true (variables v1) (variables v2)) as [Hv Hvq].
  destruct (compareExpressions_true (expressions v1) (expressions v2)) as [He Heq].
  destruct (compareVariables (variables v1) (variables v2)) as [ok1 err1].
  destruct (compareExpressions (expressions v1) (expressions v2)) as [ok2 err2].
  simpl in *. rewrite andb_true_iff, Hv, He. split.
  - split.
    + intros [-> [H1 ->]]. auto.
    + intros [H1 H2]. injection H2 as H2 H3. auto.
  - intros [H1 H2]. rewrite Hvq, Heq by (tauto). reflexivity.
Qed.

(** Induction on a statement, with the statements of its blocks. *)
Lemma Statement_induction (P : Statement -> Prop)
    (HB : forall b, Forall P (statements b) -> P (SBlock b))
    (HA : forall a, P (SAssignment a))
    (HC : forall cnd, Forall P (statements (block cnd)) ->
                      Forall P (statements (elseBlock cnd)) -> P (SCondition cnd))
    (HL : forall l, Forall P (statements (loopBlock l)) -> P (SLoop l)) :
  forall s, P s.
Proof.
  fix IH 1. intros [b | a | cnd | l].
  - apply HB. destruct b as [ss p t]. simpl.
    induction ss as [|s ss IHss]; constructor; [apply IH | assumption].
  - apply HA.
  - destruct cnd as [e [ss1 p1 t1] [ss2 p2 t2]]. apply HC; simpl.
    + induction ss1 as [|s ss IHss]; constructor; [apply IH | assumption].
    + induction ss2 as [|s ss IHss]; constructor; [apply IH | assumption].
  - destruct l as [a es i [ss p t]]. apply HL; simpl.
    induction ss as [|s ss IHss]; constructor; [apply IH | assumption].
Qed.

Lemma comparableStatement_SCondition (cnd : Condition) :
  comparableStatement (SCondition cnd) <->
  withoutNil (expression cnd) /\
  comparableBlock (block cnd) /\ comparableBlock (elseBlock cnd).
Proof.
  unfold comparableBlock. simpl. rewrite <- !all_fix_Forall. tauto.
Qed.

Lemma comparableStatement_SLoop (l : Loop) :
  comparableStatement (SLoop l) <->
  Forall withoutNil (expressions (assignment l)) /\
  Forall withoutNil (loopExpressions l) /\
  Forall withoutNil (expressions (incrAssignment l)) /\
  comparableBlock (loopBlock l).
Proof.
  unfold comparableBlock. simpl. rewrite <- !all_fix_Forall. tauto.
Qed.

Lemma forgetStatement_SBlock (b : Block) :
  forgetStatement (SBlock b) = SBlock (forgetBlock b).
Proof. reflexivity. Qed.

Lemma forgetStatement_SCondition (cnd : Condition) :
  forgetStatement (SCondition cnd)
  = SCondition (mkCondition (forgetOpTypes (expression cnd))
                  (forgetBlock (block cnd)) (forgetBlock (elseBlock cnd))).
Proof. reflexivity. Qed.

Lemma forgetStatement_SLoop (l : Loop) :
  forgetStatement (SLoop l)
  = SLoop (mkLoop (forgetAssignment (assignment l))
             (map forgetOpTypes (loopExpressions l))
             (forgetAssignment (incrAssignment l))
             (forgetBlock (loopBlock l))).
Proof. reflexivity. Qed.

Section Comparison_facts.

Variable formatStatement : Statement -> string.
Variable formatBlock : Block -> string.

Lemma compareStatement_SCondition (v1 v2 : Condition) :
  compareStatement formatStatement formatBlock (SCondition v1) (SCondition v2)
  = (let (ok1, err1) := compareExpression (expression v1) (expression v2) in
     let (ok2, err2) := compareBlock formatStatement formatBlock (block v1) (block v2) in
     let (ok3, err3) :=
       compareBlock formatStatement formatBlock (elseBlock v1) (elseBlock v2) in
     (ok1 && ok2 && ok3, (err1 ++ err2 ++ err3)%string)).
Proof. reflexivity. Qed.

Lemma compareStatement_SLoop (v1 v2 : Loop) :
  compareStatement formatStatement formatBlock (SLoop v1) (SLoop v2)
  = (let (ok1, err1) := compareAssignment (assignment v1) (assignment v2) in
     let (ok2, err2) := compareExpressions (loopExpressions v1) (loopExpressions v2) in
     let (ok3, err3) := compareAssignment (incrAssignment v1) (incrAssignment v2) in
     let (ok4, err4) :=
       compareBlock formatStatement formatBlock (loopBlock v1) (loopBlock v2) in
     (ok1 && ok2 && ok3 && ok4, (err1 ++ err2 ++ err3 ++ err4)%string)).
Proof. reflexivity. Qed.

Lemma compareBlock_loop_true (l1 : list Statement) :
  Forall (statementVerdict formatStatement formatBlock) l1 ->
  forall l2, length l1 = length l2 ->
    (fst (compareBlock_loop formatStatement formatBlock l1 l2) = true <->
     Forall comparableStatement l1 /\ map forgetStatement l1 = map forgetStatement l2) /\
    (fst (compareBlock_loop formatStatement formatBlock l1 l2) = true ->
     snd (compareBlock_loop formatStatement formatBlock l1 l2) = EmptyString).
Proof.
  induction 1 as [|v1 rest1 Hv1 Hrest IH]; intros [|v2 rest2] Hlen;
    simpl in Hlen; try discriminate.
  - simpl. split; [|reflexivity]. split; auto.
  - injection Hlen as Hlen. destruct (IH rest2 Hlen) as [IH1 IH2]. simpl.
    destruct (Hv1 v2) as [Hv _].
    destruct (compareStatement formatStatement formatBlock v1 v2) as [b e]. simpl in Hv.
    destruct b; simpl.
    + split; [|assumption]. rewrite IH1. split.
      * intros [H1 H2]. destruct (proj1 Hv eq_refl) as [H3 H4].
        split; [constructor; assumption | congruence].
      * intros [H1 H2]. inversion H1; subst. injection H2 as _ H2. tauto.
    + split; [|discriminate]. split; [discriminate|].
      intros [H1 H2]. inversion H1; subst. injection H2 as H2 _.
      apply Hv. tauto.
Qed.

Lemma compareBlock_true_of (ss1 ss2 : Block) :
  Forall (statementVerdict formatStatement formatBlock) (statements ss1) ->
  (fst (compareBlock formatStatement formatBlock ss1 ss2) = true <->
   comparableBlock ss1 /\ forgetBlock ss1 = forgetBlock ss2) /\
  (fst (compareBlock formatStatement formatBlock ss1 ss2) = true ->
   snd (compareBlock formatStatement formatBlock ss1 ss2) = EmptyString).
Proof.
  intros Hall. unfold compareBlock, comparableBlock, forgetBlock.
  destruct (Nat.eqb (length (statements ss1)) (length (statements ss2))) eqn:E; simpl.
  - apply Nat.eqb_eq in E.
    destruct (compareBlock_loop_true Hall (statements ss2) E) as [H1 H2].
    split; [|assumption]. rewrite H1. split.
    + intros [H3 H4]. rewrite H4. auto.
    + intros [H3 H4]. injection H4 as H4. auto.
  - apply Nat.eqb_neq in E. split; [|discriminate]. split; [discriminate|].
    intros [_ H]. injection H as H. exfalso. apply E.
    rewrite <- (length_map forgetStatement (statements ss1)), H. apply length_map.
Qed.

Lemma compareStatement_true : forall s1, statementVerdict formatStatement formatBlock s1.
Proof.
  apply Statement_induction.
  - intros b _ s2. simpl. split; [|discriminate]. split; [discriminate | tauto].
  - intros a [b2 | a2 | c2 | l2]; simpl.
    2:{ destruct (compareAssignment_true a a2) as [H1 H2]. split; [|assumption].
        rewrite H1. split.
        - intros [H3 H4]. rewrite H4. auto.
        - intros [H3 H4]. injection H4 as H4 H5. unfold forgetAssignment.
          rewrite H4, H5. auto. }
    all: split; [|discriminate]; split; [discriminate | intros [_ H]; discriminate H].
  - intros v1 Hb He [b2 | a2 | v2 | l2].
    3:{ rewrite compareStatement_SCondition, comparableStatement_SCondition,
          !forgetStatement_SCondition.
        pose proof (compareExpression_true (expression v1) (expression v2)) as Hx.
        pose proof (@compareExpression_quiet (expression v1) (expression v2)) as Hxq.
        destruct (compareBlock_true_of (block v1) (block v2) Hb) as [H1 H1q].
        destruct (compareBlock_true_of (elseBlock v1) (elseBlock v2) He) as [H2 H2q].
        destruct (compareExpression (expression v1) (expression v2)) as [ok1 err1].
        destruct (compareBlock formatStatement formatBlock (block v1) (block v2))
          as [ok2 err2].
        destruct (compareBlock formatStatement formatBlock (elseBlock v1) (elseBlock v2))
          as [ok3 err3].
        cbn [fst snd] in *. rewrite !andb_true_iff, Hx, H1, H2. split.
        - split.
          + intros [[[A1 A2] [A3 A4]] [A5 A6]]. split; [tauto | congruence].
          + intros [[A1 [A3 A5]] A]. injection A; intros.
            unfold forgetBlock. repeat split; try assumption; congruence.
        - intros [[A1 A2] A3]. rewrite Hxq, H1q, H2q by tauto. reflexivity. }
    all: simpl; split; [|discriminate]; split; [discriminate | intros [_ H]; discriminate H].
  - intros v1 Hb [b2 | a2 | c2 | v2].
    4:{ rewrite compareStatement_SLoop, comparableStatement_SLoop,
          !forgetStatement_SLoop.
        destruct (compareAssignment_true (assignment v1) (assignment v2)) as [Ha Haq].
        destruct (compareExpressions_true (loopExpressions v1) (loopExpressions v2))
          as [Hx Hxq].
        destruct (compareAssignment_true (incrAssignment v1) (incrAssignment v2))
          as [Hi Hiq].
        destruct (compareBlock_true_of (loopBlock v1) (loopBlock v2) Hb) as [H1 H1q].
        destruct (compareAssignment (assignment v1) (assignment v2)) as [ok1 err1].
        destruct (compareExpressions (loopExpressions v1) (loopExpressions v2))
          as [ok2 err2].
        destruct (compareAssignment (incrAssignment v1) (incrAssignment v2))
          as [ok3 err3].
        destruct (compareBlock formatStatement formatBlock (loopBlock v1) (loopBlock v2))
          as [ok4 err4].
        cbn [fst snd] in *. rewrite !andb_true_iff, Ha, Hx, Hi, H1. split.
        - split.
          + intros [[[[A1 A2] [A3 A4]] [A5 A6]] [A7 A8]].
            split; [tauto | congruence].
          + intros [[A1 [A3 [A5 A7]]] A]. injection A; intros.
            unfold forgetBlock, forgetAssignment. repeat split; try assumption; congruence.
        - intros [[[A1 A2] A3] A4]. rewrite Haq, Hxq, Hiq, H1q by tauto. reflexivity. }
    all: simpl; split; [|discriminate]; split; [discriminate | intros [_ H]; discriminate H].
Qed.

End Comparison_facts.

(** X15.  [compareASTs] finds the generated tree equal to the expected one
    exactly when the generated tree has no [Block] used as a statement and no
    nil expression, and the two trees are the same once the result types of
    expressions and all symbol tables are left out; the texts [%v] gives do
    not matter.  When the trees are found equal the message is empty. *)
Theorem compareASTs_verdict (formatStatement : Statement -> string)
    (formatBlock : Block -> string) (generated expected : AST) :
  (fst (compareASTs formatStatement formatBlock generated expected) = true <->
   comparableBlock (astBlock generated) /\
   forgetBlock (astBlock generated) = forgetBlock (astBlock expected)) /\
  (fst (compareASTs formatStatement formatBlock generated expected) = true ->
   snd (compareASTs formatStatement formatBlock generated expected) = EmptyString).
Proof.
  unfold compareASTs. apply compareBlock_true_of.
  apply Forall_forall. intros s _. apply compareStatement_true.
Qed.

Lemma parsedExpression_withoutNil (e : Expression) : parsedExpression e -> withoutNil e.
Proof.
  induction e as [| v | k | o l IHl r IHr t | o x IHx t]; simpl; auto.
  - intros [_ [_ [H1 H2]]]. auto.
  - intros [_ [_ H]]. auto.
Qed.

Lemma parsedAssignment_withoutNil (a : Assignment) :
  parsedAssignment a -> Forall withoutNil (expressions a).
Proof.
  intros [_ H]. eapply Forall_impl; [|exact H]. apply parsedExpression_withoutNil.
Qed.

Lemma parsedStatement_comparable : forall s, parsedStatement s -> comparableStatement s.
Proof.
  apply (@Statement_induction (fun s => parsedStatement s -> comparableStatement s)).
  - intros b _ H. exact H.
  - intros a [_ H]. simpl. apply parsedAssignment_withoutNil. assumption.
  - intros cnd Hb He H. apply parsedStatement_SCondition in H.
    destruct H as [H1 [[_ [_ H2]] [_ [_ H3]]]].
    apply comparableStatement_SCondition. unfold comparableBlock.
    split; [apply parsedExpression_withoutNil; assumption|].
    rewrite !Forall_forall in *. split; intros s Hs; auto.
  - intros l Hb H. apply parsedStatement_SLoop in H.
    destruct H as [H1 [H2 [H3 [_ [_ H4]]]]].
    apply comparableStatement_SLoop. unfold comparableBlock.
    split; [apply parsedAssignment_withoutNil; assumption|].
    split; [eapply Forall_impl; [|exact H2]; apply parsedExpression_withoutNil|].
    split; [apply parsedAssignment_withoutNil; assumption|].
    rewrite Forall_forall in *. intros s Hs; auto.
Qed.

Lemma parsedExpression_forgetOpTypes (e : Expression) :
  parsedExpression e -> forgetOpTypes e = e.
Proof.
  induction e as [| v | k | o l IHl r IHr t | o x IHx t]; simpl; auto.
  - intros [_ [-> [H1 H2]]]. rewrite IHl, IHr by assumption. reflexivity.
  - intros [_ [-> H]]. rewrite IHx by assumption. reflexivity.
Qed.

Lemma map_fixes {A : Type} (f : A -> A) (P : A -> Prop) (l : list A) :
  (forall x, In x l -> P x -> f x = x) -> Forall P l -> map f l = l.
Proof.
  intros Hf H. induction H as [|x l Hx Hl IH]; simpl; [reflexivity|].
  rewrite Hf, IH; auto with datatypes.
Qed.

Lemma parsedAssignment_forgetAssignment (a : Assignment) :
  parsedAssignment a -> forgetAssignment a = a.
Proof.
  intros [_ H]. unfold forgetAssignment.
  rewrite (@map_fixes _ forgetOpTypes parsedExpression) by
    (auto using parsedExpression_forgetOpTypes).
  destruct a; reflexivity.
Qed.

Lemma parsedBlock_forgetBlock (b : Block) :
  Forall (fun s => parsedStatement s -> forgetStatement s = s) (statements b) ->
  parsedBlock b -> forgetBlock b = b.
Proof.
  intros Hall [H1 [H2 H3]]. unfold forgetBlock.
  rewrite (@map_fixes _ forgetStatement parsedStatement); [| |assumption].
  - destruct b; simpl in *; subst; reflexivity.
  - rewrite Forall_forall in Hall. auto.
Qed.

Lemma parsedStatement_forgetStatement :
  forall s, parsedStatement s -> forgetStatement s = s.
Proof.
  apply (@Statement_induction (fun s => parsedStatement s -> forgetStatement s = s)).
  - intros b _ H. destruct H.
  - intros a [_ H]. simpl. rewrite parsedAssignment_forgetAssignment by assumption.
    reflexivity.
  - intros cnd Hb He H. apply parsedStatement_SCondition in H.
    destruct H as [H1 [H2 H3]]. rewrite forgetStatement_SCondition.
    rewrite parsedExpression_forgetOpTypes, !parsedBlock_forgetBlock by assumption.
    destruct cnd; reflexivity.
  - intros l Hb H. apply parsedStatement_SLoop in H.
    destruct H as [H1 [H2 [H3 H4]]]. rewrite forgetStatement_SLoop.
    rewrite !parsedAssignment_forgetAssignment, parsedBlock_forgetBlock by assumption.
    rewrite (@map_fixes _ forgetOpTypes parsedExpression) by
      (auto using parsedExpression_forgetOpTypes).
    destruct l; reflexivity.
Qed.

Lemma parse_parsedBlock (zeroType : TokenType) (fuel : nat) (toks : list Token)
    (out out' : list string) (ast : AST) :
  parse zeroType fuel toks out = Some (ast, out') -> parsedBlock (astBlock ast).
Proof.
  unfold parse. intros H.
  destruct (parseStatementList zeroType fuel
              (mkWorld (mkTokenChannel toks false (zeroToken zeroType)) out))
    as [[[b err] w]|] eqn:E; [|discriminate].
  pose proof (parseStatementList_shape _ _ _ E) as Hb.
  inversion H; subst. unfold parse_result.
  destruct err; simpl; auto using parsedBlock_zero.
Qed.

(** X16.  A test on a tree the parser built passes exactly when the block of
    that tree is the expected block with the result types of its expressions
    set to [TYPE_UNKNOWN] and its symbol tables emptied; so the result types
    and symbol tables a test writes in its expected tree are never checked.
    In particular the tree the parser built is equal to itself, with an empty
    message. *)
Theorem parsed_tree_compares_up_to_types (zeroType : TokenType)
    (formatStatement : Statement -> string) (formatBlock : Block -> string)
    (fuel : nat) (toks : list Token) (out out' : list string) (generated : AST) :
  parse zeroType fuel toks out = Some (generated, out') ->
  (forall expected,
     fst (compareASTs formatStatement formatBlock generated expected) = true <->
     astBlock generated = forgetBlock (astBlock expected)) /\
  compareASTs formatStatement formatBlock generated generated = (true, EmptyString).
Proof.
  intros H. apply parse_parsedBlock in H.
  assert (Hc : comparableBlock (astBlock generated)).
  { destruct H as [_ [_ H]]. unfold comparableBlock.
    eapply Forall_impl; [|exact H]. apply parsedStatement_comparable. }
  assert (Hf : forgetBlock (astBlock generated) = astBlock generated).
  { apply parsedBlock_forgetBlock; [|assumption].
    apply Forall_forall. intros s _. apply parsedStatement_forgetStatement. }
  assert (Hv : forall expected,
             (fst (compareASTs formatStatement formatBlock generated expected) = true <->
              comparableBlock (astBlock generated) /\
              forgetBlock (astBlock generated) = forgetBlock (astBlock expected)) /\
             (fst (compareASTs formatStatement formatBlock generated expected) = true ->
              snd (compareASTs formatStatement formatBlock generated expected)
              = EmptyString)).
  { intros expected. unfold compareASTs. apply compareBlock_true_of.
    apply Forall_forall. intros s _. apply compareStatement_true. }
  split.
  - intros expected. destruct (Hv expected) as [Hiff _]. rewrite Hiff, Hf. tauto.
  - destruct (Hv generated) as [Hiff Hq].
    assert (Ht : fst (compareASTs formatStatement formatBlock generated generated) = true)
      by (apply Hiff; auto).
    specialize (Hq Ht).
    destruct (compareASTs formatStatement formatBlock generated generated) as [b e].
    simpl in *. subst. reflexivity.
Qed.

(** X17.  A block that holds a [Block] as one of its statements is never
    found equal to anything, not even to itself: the switch of
    [compareStatement] has no case for [Block]. *)
Theorem block_statement_never_equal (formatStatement : Statement -> string)
    (formatBlock : Block -> string) (ss1 ss2 inner : Block) :
  In (SBlock inner) (statements ss1) ->
  fst (compareBlock formatStatement formatBlock ss1 ss2) = false.
Proof.
  intros Hin.
  destruct (fst (compareBlock formatStatement formatBlock ss1 ss2)) eqn:E; [|reflexivity].
  exfalso.
  assert (Hall : Forall (statementVerdict formatStatement formatBlock) (statements ss1)).
  { apply Forall_forall. intros s _. apply compareStatement_true. }
  destruct (@compareBlock_true_of formatStatement formatBlock ss1 ss2 Hall) as [Hiff _].
  apply Hiff in E. destruct E as [Hc _]. unfold comparableBlock in Hc.
  rewrite Forall_forall in Hc. exact (Hc _ Hin).
Qed.

(* ================================================================= *)
(** ** The properties at concrete inputs *)

(** [a + 1 ;] *)
Lemma parseExpression_maximal_witness :
  tokenType (peek TOKEN_IDENTIFIER
               (mkWorld (mkTokenChannel [] true (mkToken TOKEN_SEMICOLON ";")) []))
  <> TOKEN_OPERATOR.
Proof.
  apply (@parseExpression_maximal TOKEN_IDENTIFIER 3
           (startWorld TOKEN_IDENTIFIER
              [tokA; mkToken TOKEN_OPERATOR "+"; mkToken TOKEN_CONSTANT "1";
               mkToken TOKEN_SEMICOLON ";"] [])
           (mkWorld (mkTokenChannel [] true (mkToken TOKEN_SEMICOLON ";")) [])
           (BinaryOp OP_PLUS (EVariable (mkVariable TYPE_UNKNOWN "a" false))
              (EConstant (mkConstant TYPE_INT "1")) TYPE_UNKNOWN)).
  vm_compute. reflexivity.
Defined.

Lemma parseExpression_shape_witness :
  parsedExpression
    (BinaryOp OP_PLUS (EVariable (mkVariable TYPE_UNKNOWN "a" false))
       (EConstant (mkConstant TYPE_INT "1")) TYPE_UNKNOWN).
Proof.
  apply (@parseExpression_shape TOKEN_IDENTIFIER 3
           (startWorld TOKEN_IDENTIFIER
              [tokA; mkToken TOKEN_OPERATOR "+"; mkToken TOKEN_CONSTANT "1";
               mkToken TOKEN_SEMICOLON ";"] [])
           (mkWorld (mkTokenChannel [] true (mkToken TOKEN_SEMICOLON ";")) [])).
  vm_compute. reflexivity.
Defined.

(** [a = b + 1], with no semicolon: the channel is found closed twice. *)
Lemma parser_prints_only_closed_channel_witness :
  exists k, [closedLine; closedLine] = [] ++ repeat closedLine k.
Proof.
  apply (proj2 (proj2 (proj2 (proj2 (parser_prints_only_closed_channel TOKEN_IDENTIFIER 4))))
           [tokA; mkToken TOKEN_ASSIGNMENT "="; tokB; mkToken TOKEN_OPERATOR "+";
            mkToken TOKEN_CONSTANT "1"]
           [] [closedLine; closedLine]
           (mkAST (mkBlock
                     [SAssignment
                        (mkAssignment [mkVariable TYPE_UNKNOWN "a" false]
                           [BinaryOp OP_PLUS (EVariable (mkVariable TYPE_UNKNOWN "b" false))
                              (EConstant (mkConstant TYPE_INT "1")) TYPE_UNKNOWN])]
                     [] []) [])).
  vm_compute. reflexivity.
Defined.

Lemma parse_shape_witness :
  parsedBlock
    (astBlock
       (mkAST (mkBlock
                 [SAssignment
                    (mkAssignment [mkVariable TYPE_UNKNOWN "a" false]
                       [EConstant (mkConstant TYPE_INT "1")])] [] []) [])) /\
  globalSymbolTable
    (mkAST (mkBlock
              [SAssignment
                 (mkAssignment [mkVariable TYPE_UNKNOWN "a" false]
                    [EConstant (mkConstant TYPE_INT "1")])] [] []) []) = [].
Proof.
  apply (@parse_shape TOKEN_IDENTIFIER 8 trailingGarbage [] []).
  vm_compute. reflexivity.
Defined.

(** [a, shadow b =] *)
Lemma parseVarList_reads_witness :
  exists w',
    parseVarList TOKEN_IDENTIFIER 2
      (startWorld TOKEN_IDENTIFIER
         [tokA; commaToken; mkToken TOKEN_KEYWORD "shadow"; tokB;
          mkToken TOKEN_ASSIGNMENT "="] [])
    = Some (map varOf [(false, "a"); (true, "b")], w') /\
    forall i, stream TOKEN_IDENTIFIER w' i
              = nth i [mkToken TOKEN_ASSIGNMENT "="] (zeroToken TOKEN_IDENTIFIER).
Proof.
  apply (@parseVarList_reads TOKEN_IDENTIFIER [(false, "a"); (true, "b")]
           [mkToken TOKEN_ASSIGNMENT "="]).
  - discriminate.
  - reflexivity.
  - reflexivity.
  - simpl. lia.
Defined.

(** [a , = 1] *)
Lemma parseVarList_dangling_comma_witness :
  (exists w',
     parseVarList TOKEN_IDENTIFIER 2
       (startWorld TOKEN_IDENTIFIER
          [tokA; commaToken; mkToken TOKEN_ASSIGNMENT "="; mkToken TOKEN_CONSTANT "1"] [])
     = Some ([], w') /\
     forall i, stream TOKEN_IDENTIFIER w' i
               = nth i [mkToken TOKEN_ASSIGNMENT "="; mkToken TOKEN_CONSTANT "1"]
                   (zeroToken TOKEN_IDENTIFIER)) /\
  (exists w',
     parseAssignment TOKEN_IDENTIFIER 2
       (startWorld TOKEN_IDENTIFIER
          [tokA; commaToken; mkToken TOKEN_ASSIGNMENT "="; mkToken TOKEN_CONSTANT "1"] [])
     = Some ((zeroAssignment,
              Some (errors_New "Expected variable in assignment, got something else")), w') /\
     forall i, stream TOKEN_IDENTIFIER w' i
               = nth i [mkToken TOKEN_ASSIGNMENT "="; mkToken TOKEN_CONSTANT "1"]
                   (zeroToken TOKEN_IDENTIFIER)).
Proof.
  apply (@parseVarList_dangling_comma TOKEN_IDENTIFIER [(false, "a")]
           [mkToken TOKEN_ASSIGNMENT "="; mkToken TOKEN_CONSTANT "1"]).
  - discriminate.
  - reflexivity.
  - reflexivity.
  - simpl. lia.
Defined.

(** [a, b = 1, c ;] *)
Lemma parseAssignment_reads_witness :
  exists w',
    parseAssignment TOKEN_IDENTIFIER 2
      (startWorld TOKEN_IDENTIFIER
         [tokA; commaToken; tokB; mkToken TOKEN_ASSIGNMENT "=";
          mkToken TOKEN_CONSTANT "1"; commaToken; tokC; mkToken TOKEN_SEMICOLON ";"] [])
    = Some ((mkAssignment (map varOf [(false, "a"); (false, "b")])
               (map operandExpression [OConstant "1"; OVariable false "c"]), None), w') /\
    forall i, stream TOKEN_IDENTIFIER w' i
              = nth i [mkToken TOKEN_SEMICOLON ";"] (zeroToken TOKEN_IDENTIFIER).
Proof.
  apply (@parseAssignment_reads TOKEN_IDENTIFIER [(false, "a"); (false, "b")]
           [OConstant "1"; OVariable false "c"] [mkToken TOKEN_SEMICOLON ";"]).
  - discriminate.
  - discriminate.
  - reflexivity.
  - simpl. discriminate.
  - reflexivity.
  - simpl. lia.
  - simpl. lia.
Defined.

(** [- a + b] *)
Lemma unary_operator_takes_the_chain_witness :
  exists w',
    parseExpression TOKEN_IDENTIFIER 3
      (startWorld TOKEN_IDENTIFIER
         [mkToken TOKEN_OPERATOR "-"; tokA; mkToken TOKEN_OPERATOR "+"; tokB] [])
    = Some ((UnaryOp OP_NEGATIVE
               (BinaryOp OP_PLUS (operandExpression (OVariable false "a"))
                  (operandExpression (OVariable false "b")) TYPE_UNKNOWN)
               TYPE_UNKNOWN, None), w') /\
    forall i, stream TOKEN_IDENTIFIER w' i = nth i [] (zeroToken TOKEN_IDENTIFIER).
Proof.
  apply (@unary_operator_takes_the_chain TOKEN_IDENTIFIER "-" "+" OP_NEGATIVE OP_PLUS
           (OVariable false "a") (OVariable false "b") []).
  - simpl. auto.
  - simpl. auto.
  - reflexivity.
  - simpl. discriminate.
  - lia.
Defined.

(** [( a + b ) * c] *)
Lemma parentheses_nest_left_witness :
  exists w',
    parseExpression TOKEN_IDENTIFIER 3
      (startWorld TOKEN_IDENTIFIER
         [mkToken TOKEN_PARENTHESIS_OPEN "("; tokA; mkToken TOKEN_OPERATOR "+"; tokB;
          mkToken TOKEN_PARENTHESIS_CLOSE ")"; mkToken TOKEN_OPERATOR "*"; tokC] [])
    = Some ((BinaryOp OP_MULT
               (BinaryOp OP_PLUS (operandExpression (OVariable false "a"))
                  (operandExpression (OVariable false "b")) TYPE_UNKNOWN)
               (operandExpression (OVariable false "c")) TYPE_UNKNOWN, None), w') /\
    forall i, stream TOKEN_IDENTIFIER w' i = nth i [] (zeroToken TOKEN_IDENTIFIER).
Proof.
  apply (@parentheses_nest_left TOKEN_IDENTIFIER "+" "*" OP_PLUS OP_MULT
           (OVariable false "a") (OVariable false "b") (OVariable false "c") []).
  - simpl. auto.
  - simpl. auto.
  - reflexivity.
  - simpl. discriminate.
  - lia.
Defined.

(** [a + 1] against itself with other result types. *)
Lemma compareExpression_verdict_witness :
  snd (compareExpression
         (BinaryOp OP_PLUS (EVariable (mkVariable TYPE_UNKNOWN "a" false))
            (EConstant (mkConstant TYPE_INT "1")) TYPE_UNKNOWN)
         (BinaryOp OP_PLUS (EVariable (mkVariable TYPE_UNKNOWN "a" false))
            (EConstant (mkConstant TYPE_INT "1")) TYPE_INT))
  = EmptyString.
Proof.
  apply (proj2 (compareExpression_verdict _ _)). reflexivity.
Defined.

Lemma compareASTs_verdict_witness :
  snd (compareASTs (fun _ => "statement") (fun _ => "block")
         (mkAST (mkBlock
                   [SAssignment
                      (mkAssignment [mkVariable TYPE_UNKNOWN "a" false]
                         [EConstant (mkConstant TYPE_INT "1")])] [] []) [])
         (mkAST (mkBlock
                   [SAssignment
                      (mkAssignment [mkVariable TYPE_UNKNOWN "a" false]
                         [EConstant (mkConstant TYPE_INT "1")])]
                   [] [("a", mkSymbolEntry TYPE_INT false)]) []))
  = EmptyString.
Proof.
  apply (proj2 (compareASTs_verdict _ _ _ _)). reflexivity.
Defined.

Lemma parsed_tree_compares_up_to_types_witness :
  compareASTs (fun _ => "statement") (fun _ => "block")
    (mkAST (mkBlock
              [SAssignment
                 (mkAssignment [mkVariable TYPE_UNKNOWN "a" false]
                    [EConstant (mkConstant TYPE_INT "1")])] [] []) [])
    (mkAST (mkBlock
              [SAssignment
                 (mkAssignment [mkVariable TYPE_UNKNOWN "a" false]
                    [EConstant (mkConstant TYPE_INT "1")])] [] []) [])
  = (true, EmptyString).
Proof.
  refine (proj2 (@parsed_tree_compares_up_to_types TOKEN_IDENTIFIER
                   (fun _ => "statement") (fun _ => "block") 8 trailingGarbage [] []
                   (mkAST (mkBlock
                             [SAssignment
                                (mkAssignment [mkVariable TYPE_UNKNOWN "a" false]
                                   [EConstant (mkConstant TYPE_INT "1")])] [] []) []) _)).
  vm_compute. reflexivity.
Defined.

Lemma block_statement_never_equal_witness :
  fst (compareBlock (fun _ => "statement") (fun _ => "block")
         (mkBlock [SBlock (mkBlock [] [] [])] [] [])
         (mkBlock [SBlock (mkBlock [] [] [])] [] []))
  = false.
Proof.
  apply (@block_statement_never_equal _ _ _ _ (mkBlock [] [] [])).
  simpl. auto.
Defined.
